(** * BracketMaster: the enclosing bracket / tag selector of [src/extension.ts]

    A shallow embedding of the two matchers ([findEnclosingBrackets],
    [findEnclosingTags]), of the ranking function [compareRanges] and of the
    body of the [extension.selectEnclosing] command, followed by the
    properties the specification states about them.

    - the model: text, documents and ranges; the bracket matcher; the
      regular expressions of the tag matcher and [exec]; the tag matcher;
      the selector and the command;
    - the tag matcher once more, with its regular expression objects in a
      heap;
    - the vocabulary of the specification: balanced pairs, by the depth of
      the scan, for brackets and for tags, the tags being read off the
      characters of the text;
    - what each loop computes, what the two patterns read, and where the
      count of the tag matcher is the count of the tags of one name;
    - the claims C1 to C10. *)

From Stdlib Require Import String Ascii.
From Stdlib Require Import List Arith Lia ZArith NArith Bool.
From Stdlib Require Import Sorting.Sorted Sorting.Permutation.
From Equations Require Import Equations.
Import ListNotations.

(** ** Text

    A JavaScript string is a sequence of UTF-16 code units; [text[i]] is the
    code unit at index [i] and [undefined] past the end, here [nth_error]. *)

Definition char := N.
Definition Text := list char.

Definition code (a : ascii) : char := N_of_ascii a.

(** The code units of a literal written in the source. *)
Definition js (s : string) : Text := map code (list_ascii_of_string s).

Definition chr (s : string) : char :=
  match s with
  | String a _ => code a
  | EmptyString => 0%N
  end.

Fixpoint startsWith (s prefix : Text) {struct prefix} : bool :=
  match prefix with
  | [] => true
  | p :: prefix' =>
      match s with
      | c :: s' => N.eqb c p && startsWith s' prefix'
      | [] => false
      end
  end.

(** [text.slice(a, b)] for [a <= b]. *)
Definition slice (text : Text) (a b : nat) : Text := firstn (b - a) (skipn a text).

(** ** Documents, positions and ranges

    The editor's API ([vscode.TextDocument], [Position], [Range],
    [Selection]) is not part of the repository; what the source uses of it
    is modelled here after its documented behaviour.

    A [Position] is a (line, character) pair, ordered by line and then by
    character, and the document maps it to and from a linear offset with
    [offsetAt] and [positionAt].  The two maps are monotone and inverse to
    each other on the offsets the matchers build ranges from (the offset just
    after an opening bracket or after the [>] of a tag, the offset of a
    closing bracket or of the [<] of a closing tag: none falls inside a line
    terminator).  A position is therefore represented by its offset, and
    both conversions clamp to the document, as the editor's do. *)

Definition Position := nat.

Record TextDocument := mkDocument { getText : Text }.

Definition offsetAt (document : TextDocument) (position : Position) : nat :=
  Nat.min position (length (getText document)).

Definition positionAt (document : TextDocument) (offset : nat) : Position :=
  Nat.min offset (length (getText document)).

Record Range := mkRange { start : Position; end_ : Position }.

(** [new vscode.Range(a, b)]: the constructor swaps its arguments when [b]
    is before [a]. *)
Definition newRange (a b : Position) : Range :=
  if b <? a then mkRange b a else mkRange a b.

(** [range.contains(position)]: inclusive at both ends. *)
Definition contains (r : Range) (p : Position) : bool :=
  (start r <=? p) && (p <=? end_ r).

(** [range.contains(other)] for a range argument. *)
Definition containsRange (r other : Range) : bool :=
  contains r (start other) && contains r (end_ other).

Record Selection := mkSelection { anchor : Position; active : Position }.

(** [position.compareTo(other)]. *)
Definition compareTo (a b : Position) : Z :=
  if a <? b then (-1)%Z else if b <? a then 1%Z else 0%Z.

(** The test [range.contains(position) && (!bestRange || bestRange.contains(range))]
    shared by both matchers, with the assignment it guards. *)
Definition keepInner (range : Range) (position : Position)
           (bestRange : option Range) : option Range :=
  if contains range position
     && match bestRange with
        | None => true
        | Some best => containsRange best range
        end
  then Some range
  else bestRange.

(** ** The bracket matcher *)

Definition BracketPair := (char * char)%type.

Definition brackets : list BracketPair :=
  [ (chr "(", chr ")"); (chr "[", chr "]"); (chr "{", chr "}") ].

(** [brackets.find(pair => pair[0] === char)] where [char] is [text[i]]. *)
Definition findPair (char : option char) : option BracketPair :=
  match char with
  | Some c => find (fun pair => N.eqb (fst pair) c) brackets
  | None => None
  end.

(** The inner loop [for (let j = i + 1; j < text.length; j++)]: [rest] is
    the text from index [j] on.  It returns the value of [bestRange] when the
    loop is left, by [break] or by running off the text. *)
Fixpoint scanForward (document : TextDocument) (position : Position)
         (bracketPair : BracketPair) (i : nat)
         (rest : Text) (j : nat) (depth : Z) (bestRange : option Range)
  : option Range :=
  match rest with
  | [] => bestRange
  | currentChar :: rest' =>
      if N.eqb currentChar (fst bracketPair) then
        scanForward document position bracketPair i rest' (S j) (depth + 1) bestRange
      else if N.eqb currentChar (snd bracketPair) then
        let depth := (depth - 1)%Z in
        if (depth =? 0)%Z then
          let range := newRange (positionAt document (i + 1))
                                (positionAt document j) in
          keepInner range position bestRange
        else
          scanForward document position bracketPair i rest' (S j) depth bestRange
      else
        scanForward document position bracketPair i rest' (S j) depth bestRange
  end.

(** The body of the outer loop at index [i]. *)
Definition bracketStep (document : TextDocument) (position : Position)
           (i : nat) (bestRange : option Range) : option Range :=
  let text := getText document in
  match findPair (nth_error text i) with
  | Some bracketPair =>
      scanForward document position bracketPair i
                  (skipn (i + 1) text) (i + 1) 1 bestRange
  | None => bestRange
  end.

(** The outer loop [for (let i = offset; i >= 0; i--)], with [n] iterations
    left: the next index is [n - 1]. *)
Fixpoint bracketLoop (document : TextDocument) (position : Position)
         (n : nat) (bestRange : option Range) : option Range :=
  match n with
  | 0 => bestRange
  | S i => bracketLoop document position i
                       (bracketStep document position i bestRange)
  end.

Definition findEnclosingBrackets (document : TextDocument) (position : Position)
  : option Range :=
  let offset := offsetAt document position in
  bracketLoop document position (S offset) None.

(** ** Regular expressions

    The fragment of JavaScript regular expressions the source uses: literal
    characters, greedy [*] and [+] on a character class, sequence,
    alternation and one capture group.  Matching is the backtracking
    matcher of the language definition, in continuation-passing style: a
    pattern is matched against the rest of the input and the continuation
    decides whether what follows matches; on failure the next choice of the
    pattern is tried. *)

Inductive Pattern : Type :=
| Eps
| Lit (c : char)
| Star (cls : char -> bool)
| Plus (cls : char -> bool)
| Seq (p q : Pattern)
| Alt (p q : Pattern)
| Group (p : Pattern).

Record MatchState := mkState {
  input : Text;                  (* the text from [endIndex] on *)
  endIndex : nat;
  capture : option Text          (* capture group 1 *)
}.

Definition Continuation := MatchState -> option MatchState.

Fixpoint matchStar (cls : char -> bool) (k : Continuation)
         (rest : Text) (e : nat) (cap : option Text) : option MatchState :=
  match rest with
  | c :: rest' =>
      if cls c then
        match matchStar cls k rest' (S e) cap with
        | Some y => Some y
        | None => k (mkState rest e cap)
        end
      else k (mkState rest e cap)
  | [] => k (mkState [] e cap)
  end.

Fixpoint matchPattern (p : Pattern) (k : Continuation) (x : MatchState)
  : option MatchState :=
  match p with
  | Eps => k x
  | Lit c =>
      match input x with
      | c' :: rest' =>
          if N.eqb c' c then k (mkState rest' (S (endIndex x)) (capture x)) else None
      | [] => None
      end
  | Star cls => matchStar cls k (input x) (endIndex x) (capture x)
  | Plus cls =>
      match input x with
      | c' :: rest' =>
          if cls c' then matchStar cls k rest' (S (endIndex x)) (capture x) else None
      | [] => None
      end
  | Seq p q => matchPattern p (fun y => matchPattern q k y) x
  | Alt p q =>
      match matchPattern p k x with
      | Some y => Some y
      | None => matchPattern q k x
      end
  | Group p =>
      matchPattern p
        (fun y => k (mkState (input y) (endIndex y)
                             (Some (firstn (endIndex y - endIndex x) (input x)))))
        x
  end.

(** The result of [exec]: [match.index], [match[0]] and [match[1]]. *)
Record RegExpMatch := mkMatch {
  index : nat;
  matched : Text;
  group1 : option Text
}.

(** The search of [exec]: try the pattern at [i], then at [i + 1], ..., up to
    and including the end of the text.  With the match comes its end index. *)
Fixpoint searchFrom (source : Pattern) (rest : Text) (i : nat)
  : option (RegExpMatch * nat) :=
  match matchPattern source Some (mkState rest i None) with
  | Some y =>
      Some (mkMatch i (firstn (endIndex y - i) rest) (capture y), endIndex y)
  | None =>
      match rest with
      | [] => None
      | _ :: rest' => searchFrom source rest' (S i)
      end
  end.

(** [regex.exec(text)] for a regular expression with the [g] flag, whose
    only mutable state is [lastIndex]: the result and the new [lastIndex],
    the end index of the match, or 0 when there is none. *)
Definition exec (source : Pattern) (text : Text) (lastIndex : nat)
  : option RegExpMatch * nat :=
  if length text <? lastIndex then (None, 0)
  else
    match searchFrom source (skipn lastIndex text) lastIndex with
    | Some (m, e) => (Some m, e)
    | None => (None, 0)
    end.

(** [\w] (without the [u] and [i] flags): [[A-Za-z0-9_]]. *)
Definition word (c : char) : bool :=
  ((chr "a" <=? c) && (c <=? chr "z")
   || (chr "A" <=? c) && (c <=? chr "Z")
   || (chr "0" <=? c) && (c <=? chr "9")
   || (c =? chr "_"))%N.

(** [[^>]]. *)
Definition notGt (c : char) : bool := negb (N.eqb c (chr ">")).

(** A run of literal characters. *)
Fixpoint Lits (s : Text) : Pattern :=
  match s with
  | [] => Eps
  | c :: s' => Seq (Lit c) (Lits s')
  end.

(** [/<(\w+)[^>]*>/g] *)
Definition openingTagRegex : Pattern :=
  Seq (Lit (chr "<")) (Seq (Group (Plus word)) (Seq (Star notGt) (Lit (chr ">")))).

(** [new RegExp(`</${name}>|<${name}[^>]*>`, 'g')].  The name spliced into
    the pattern is a capture of [\w+], so it holds no character that is
    special in a pattern and stands for itself. *)
Definition closingTagRegex (name : Text) : Pattern :=
  Alt (Seq (Lits (js "</")) (Seq (Lits name) (Lit (chr ">"))))
      (Seq (Lit (chr "<")) (Seq (Lits name) (Seq (Star notGt) (Lit (chr ">"))))).

(** The length of the shortest string a pattern matches. *)
Fixpoint minLength (p : Pattern) : nat :=
  match p with
  | Eps => 0
  | Lit _ => 1
  | Star _ => 0
  | Plus _ => 1
  | Seq p q => minLength p + minLength q
  | Alt p q => Nat.min (minLength p) (minLength q)
  | Group p => minLength p
  end.

(** *** Matches of the two patterns are not empty

    This is what makes the two [while ((match = regex.exec(text)) !== null)]
    loops of the tag matcher terminate: [lastIndex] grows at every turn. *)

Definition gains (d : nat) (k : Continuation) : Prop :=
  forall x y, k x = Some y -> endIndex x + d <= endIndex y.

Lemma matchStar_gains cls d k :
  gains d k ->
  forall rest e cap y, matchStar cls k rest e cap = Some y -> e + d <= endIndex y.
Proof.
  intros Hk rest; induction rest as [|c rest IH]; intros e cap y; simpl.
  - intros H. apply Hk in H. exact H.
  - destruct (cls c).
    + destruct (matchStar cls k rest (S e) cap) eqn:E.
      * intros H; inversion H; subst. apply IH in E. lia.
      * intros H. apply Hk in H. exact H.
    + intros H. apply Hk in H. exact H.
Qed.

Lemma matchPattern_gains p :
  forall d k, gains d k -> gains (minLength p + d) (matchPattern p k).
Proof.
  induction p as [|c|cls|cls|p IHp q IHq|p IHp q IHq|p IHp];
    intros d k Hk x y; simpl.
  - intros H. apply Hk in H. exact H.
  - destruct (input x) as [|c' rest']; [discriminate|].
    destruct (N.eqb c' c); [|discriminate].
    intros H. apply Hk in H. simpl in H. lia.
  - intros H. apply (matchStar_gains _ _ _ Hk) in H. exact H.
  - destruct (input x) as [|c' rest']; [discriminate|].
    destruct (cls c'); [|discriminate].
    intros H. apply (matchStar_gains _ _ _ Hk) in H. lia.
  - intros H. apply (IHp _ _ (IHq _ _ Hk)) in H. lia.
  - destruct (matchPattern p k x) eqn:E.
    + intros H; inversion H; subst. apply (IHp _ _ Hk) in E. lia.
    + intros H. apply (IHq _ _ Hk) in H. lia.
  - intros H.
    refine (IHp d (fun z => k (mkState (input z) (endIndex z) _)) _ x y H).
    intros z w Hz. apply Hk in Hz. exact Hz.
Qed.

Lemma searchFrom_gains source :
  forall rest i m e, searchFrom source rest i = Some (m, e) ->
    i <= index m /\ index m + minLength source <= e.
Proof.
  induction rest as [|c rest IH]; intros i m e; simpl.
  - destruct (matchPattern source Some (mkState [] i None)) eqn:E; [|discriminate].
    intros H; inversion H; subst; simpl.
    apply (matchPattern_gains source 0 Some) in E.
    + simpl in E. lia.
    + intros x y Hx; inversion Hx; subst; lia.
  - destruct (matchPattern source Some (mkState (c :: rest) i None)) eqn:E.
    + intros H; inversion H; subst; simpl.
      apply (matchPattern_gains source 0 Some) in E.
      * simpl in E. lia.
      * intros x y Hx; inversion Hx; subst; lia.
    + intros H. apply IH in H. lia.
Qed.

Lemma exec_progress source text lastIndex m lastIndex' :
  1 <= minLength source ->
  exec source text lastIndex = (Some m, lastIndex') ->
  S (length text) - lastIndex' < S (length text) - lastIndex.
Proof.
  intros Hmin. unfold exec.
  destruct (Nat.ltb_spec (length text) lastIndex) as [Hlt|Hle]; [discriminate|].
  destruct (searchFrom source (skipn lastIndex text) lastIndex) as [[m' e]|] eqn:E;
    [|discriminate].
  intros H; inversion H; subst.
  apply searchFrom_gains in E. lia.
Qed.

Lemma minLength_closingTagRegex name : 1 <= minLength (closingTagRegex name).
Proof. simpl. lia. Qed.

(** ** The tag matcher *)

Record TagInfo := mkTag {
  tag_index : nat;
  tag_name : Text;
  tag_end : nat
}.

Definition inspect {A} (a : A) : {b : A | a = b} := exist _ a eq_refl.

(** [if (match[1]) tags.push({ index, name, end })]: a capture is truthy
    when it is defined and not the empty string. *)
Definition pushTag (m : RegExpMatch) (lastIndex : nat) (tags : list TagInfo)
  : list TagInfo :=
  match group1 m with
  | Some (c :: s) => tags ++ [mkTag (index m) (c :: s) lastIndex]
  | _ => tags
  end.

(** The first loop, [while ((match = openingTagRegex.exec(text)) !== null)],
    from the current [lastIndex] of [openingTagRegex]. *)
Equations? collectTags (text : Text) (offset : nat) (lastIndex : nat)
  (tags : list TagInfo) : list TagInfo
  by wf (S (length text) - lastIndex) lt :=
collectTags text offset lastIndex tags
  with inspect (exec openingTagRegex text lastIndex) := {
  | exist _ (Some m, lastIndex') _ =>
      if offset <? index m then tags
      else collectTags text offset lastIndex' (pushTag m lastIndex' tags);
  | exist _ (None, _) _ => tags }.
Proof.
  eapply exec_progress; [|eassumption]. simpl. lia.
Qed.

(** The inner loop, [while ((match = closingTagRegex.exec(text)) !== null)],
    from the current [lastIndex] of [closingTagRegex] and the current
    [depth]; it returns the value of [bestRange] when the loop is left. *)
Equations? closingLoop (document : TextDocument) (position : Position)
  (tag : TagInfo) (lastIndex : nat) (depth : Z) (bestRange : option Range)
  : option Range
  by wf (S (length (getText document)) - lastIndex) lt :=
closingLoop document position tag lastIndex depth bestRange
  with inspect (exec (closingTagRegex (tag_name tag)) (getText document) lastIndex) := {
  | exist _ (Some m, lastIndex') _ =>
      if startsWith (matched m) (js "</") then
        if (depth - 1 =? 0)%Z then
          keepInner (newRange (positionAt document (tag_end tag))
                              (positionAt document (index m)))
                    position bestRange
        else
          closingLoop document position tag lastIndex' (depth - 1) bestRange
      else
        closingLoop document position tag lastIndex' (depth + 1) bestRange;
  | exist _ (None, _) _ => bestRange }.
Proof.
  all: eapply exec_progress; [apply minLength_closingTagRegex | eassumption].
Qed.

(** The body of the second loop for [tags[i]]. *)
Definition tagStep (document : TextDocument) (position : Position)
           (tag : option TagInfo) (bestRange : option Range) : option Range :=
  match tag with
  | Some tag => closingLoop document position tag (tag_end tag) 1 bestRange
  | None => bestRange
  end.

(** The second loop, [for (let i = tags.length - 1; i >= 0; i--)], with [n]
    iterations left. *)
Fixpoint tagLoop (document : TextDocument) (position : Position)
         (tags : list TagInfo) (n : nat) (bestRange : option Range)
  : option Range :=
  match n with
  | 0 => bestRange
  | S i => tagLoop document position tags i
                   (tagStep document position (nth_error tags i) bestRange)
  end.

Definition findEnclosingTags (document : TextDocument) (position : Position)
  : option Range :=
  let text := getText document in
  let offset := offsetAt document position in
  let tags := collectTags text offset 0 [] in
  tagLoop document position tags (length tags) None.

(** ** The tag matcher and its regular expression objects

    A regular expression with the [g] flag is an object that keeps
    [lastIndex] from one call of [exec] to the next: the one piece of state
    in the matchers that outlives a statement.  Here the objects live in a
    heap and are reached through references, so that what a call of the tag
    matcher finds in the heap and what it leaves there can be told.  The
    matcher makes its objects itself: the literal [/<(\w+)[^>]*>/g] is
    evaluated at every call and gives a new object each time, and
    [new RegExp(...)] gives one at every turn of the second loop. *)

Inductive RegExpSource : Type :=
| OpeningTag                   (* /<(\w+)[^>]*>/g *)
| ClosingTag (name : Text).    (* `</${name}>|<${name}[^>]*>` with 'g' *)

Definition patternOf (s : RegExpSource) : Pattern :=
  match s with
  | OpeningTag => openingTagRegex
  | ClosingTag name => closingTagRegex name
  end.

Record RegExp := mkRegExp { re_source : RegExpSource; re_lastIndex : nat }.

Definition Heap := list RegExp.
Definition Reference := nat.

(** A new object: its [lastIndex] is 0. *)
Definition newRegExp (s : RegExpSource) (heap : Heap) : Reference * Heap :=
  (length heap, heap ++ [mkRegExp s 0]).

Definition getLastIndex (regex : Reference) (heap : Heap) : nat :=
  match nth_error heap regex with
  | Some o => re_lastIndex o
  | None => 0
  end.

(** [regex.lastIndex = n] *)
Definition setLastIndex (regex : Reference) (n : nat) (heap : Heap) : Heap :=
  match nth_error heap regex with
  | Some o => firstn regex heap ++ mkRegExp (re_source o) n :: skipn (S regex) heap
  | None => heap
  end.

(** [regex.exec(text)]: the match, and the heap with the new [lastIndex] of
    the object. *)
Definition execOn (regex : Reference) (text : Text) (heap : Heap)
  : option RegExpMatch * Heap :=
  match nth_error heap regex with
  | Some o =>
      let (m, lastIndex') := exec (patternOf (re_source o)) text (re_lastIndex o) in
      (m, setLastIndex regex lastIndex' heap)
  | None => (None, heap)
  end.

Lemma minLength_patternOf s : 1 <= minLength (patternOf s).
Proof. destruct s; simpl; lia. Qed.

Lemma getLastIndex_set regex n heap o :
  nth_error heap regex = Some o -> getLastIndex regex (setLastIndex regex n heap) = n.
Proof.
  intros H. unfold getLastIndex, setLastIndex. rewrite H.
  assert (Hlt : regex < length heap) by (apply nth_error_Some; congruence).
  rewrite nth_error_app2; rewrite length_firstn; [|lia].
  replace (regex - Nat.min regex (length heap)) with 0 by lia. reflexivity.
Qed.

Lemma execOn_progress regex text heap m heap' :
  execOn regex text heap = (Some m, heap') ->
  S (length text) - getLastIndex regex heap'
  < S (length text) - getLastIndex regex heap.
Proof.
  unfold execOn. destruct (nth_error heap regex) as [o|] eqn:Ho; [|discriminate].
  destruct (exec (patternOf (re_source o)) text (re_lastIndex o))
    as [m' lastIndex'] eqn:E.
  intros H; inversion H; subst.
  rewrite (getLastIndex_set _ _ _ _ Ho). unfold getLastIndex. rewrite Ho.
  apply (exec_progress _ _ _ _ _ (minLength_patternOf _) E).
Qed.

(** The first loop, on the object [regex]. *)
Equations? collectTagsOn (regex : Reference) (text : Text) (offset : nat)
  (tags : list TagInfo) (heap : Heap) : list TagInfo * Heap
  by wf (S (length text) - getLastIndex regex heap) lt :=
collectTagsOn regex text offset tags heap
  with inspect (execOn regex text heap) := {
  | exist _ (Some m, heap') _ =>
      if offset <? index m then (tags, heap')
      else collectTagsOn regex text offset
                         (pushTag m (getLastIndex regex heap') tags) heap';
  | exist _ (None, heap') _ => (tags, heap') }.
Proof.
  eapply execOn_progress; eassumption.
Qed.

(** The inner loop, on the object [regex]. *)
Equations? closingLoopOn (document : TextDocument) (position : Position)
  (tag : TagInfo) (regex : Reference) (depth : Z) (bestRange : option Range)
  (heap : Heap) : option Range * Heap
  by wf (S (length (getText document)) - getLastIndex regex heap) lt :=
closingLoopOn document position tag regex depth bestRange heap
  with inspect (execOn regex (getText document) heap) := {
  | exist _ (Some m, heap') _ =>
      if startsWith (matched m) (js "</") then
        if (depth - 1 =? 0)%Z then
          (keepInner (newRange (positionAt document (tag_end tag))
                               (positionAt document (index m)))
                     position bestRange, heap')
        else
          closingLoopOn document position tag regex (depth - 1) bestRange heap'
      else
        closingLoopOn document position tag regex (depth + 1) bestRange heap';
  | exist _ (None, heap') _ => (bestRange, heap') }.
Proof.
  all: eapply execOn_progress; eassumption.
Qed.

(** The body of the second loop for [tags[i]]: a new object, its
    [lastIndex] set to [tag.end], and the inner loop on it. *)
Definition tagStepOn (document : TextDocument) (position : Position)
           (tag : option TagInfo) (bestRange : option Range) (heap : Heap)
  : option Range * Heap :=
  match tag with
  | Some tag =>
      let (regex, heap) := newRegExp (ClosingTag (tag_name tag)) heap in
      let heap := setLastIndex regex (tag_end tag) heap in
      closingLoopOn document position tag regex 1 bestRange heap
  | None => (bestRange, heap)
  end.

Fixpoint tagLoopOn (document : TextDocument) (position : Position)
         (tags : list TagInfo) (n : nat) (bestRange : option Range) (heap : Heap)
  : option Range * Heap :=
  match n with
  | 0 => (bestRange, heap)
  | S i =>
      let (bestRange, heap) :=
        tagStepOn document position (nth_error tags i) bestRange heap in
      tagLoopOn document position tags i bestRange heap
  end.

(** [findEnclosingTags], called in the heap [heap]: what it returns and the
    heap it leaves. *)
Definition findEnclosingTagsOn (heap : Heap) (document : TextDocument)
           (position : Position) : option Range * Heap :=
  let text := getText document in
  let offset := offsetAt document position in
  let (regex, heap) := newRegExp OpeningTag heap in
  let (tags, heap) := collectTagsOn regex text offset [] heap in
  tagLoopOn document position tags (length tags) None heap.


(** ** The selector and the command *)

Definition compareRanges (a b : Range) : Z :=
  let startCompare := compareTo (start b) (start a) in
  if negb (startCompare =? 0)%Z then startCompare
  else compareTo (end_ a) (end_ b).

(** [array.sort(compare)]: a stable sort; [a] stays before [b] when
    [compare a b <= 0]. *)
Fixpoint insertSorted {A} (compare : A -> A -> Z) (a : A) (l : list A) : list A :=
  match l with
  | [] => [a]
  | b :: l' =>
      if (compare a b <=? 0)%Z then a :: b :: l'
      else b :: insertSorted compare a l'
  end.

Definition sort {A} (compare : A -> A -> Z) (l : list A) : list A :=
  fold_right (insertSorted compare) [] l.

(** [if (range) candidates.push(range)]. *)
Definition pushIf {A} (x : option A) (l : list A) : list A :=
  match x with
  | Some a => l ++ [a]
  | None => l
  end.

(** The body of [editor.selections.forEach]: the new selection for one
    cursor. *)
Definition selectEnclosingAt (document : TextDocument) (selection : Selection)
  : Selection :=
  let position := active selection in
  let tagRange := findEnclosingTags document position in
  let bracketRange := findEnclosingBrackets document position in
  let candidates := pushIf bracketRange (pushIf tagRange []) in
  let bestRange :=
    hd_error (sort compareRanges
                   (filter (fun r => contains r position) candidates)) in
  match bestRange with
  | Some bestRange => mkSelection (start bestRange) (end_ bestRange)
  | None => selection
  end.

(** The command: [editor.selections = newSelections]. *)
Definition selectEnclosing (document : TextDocument) (selections : list Selection)
  : list Selection :=
  map (selectEnclosingAt document) selections.

(** [candidates.filter(r => r.contains(position)).sort(compareRanges)[0]] *)
Definition bestOf (position : Position) (candidates : list Range) : option Range :=
  hd_error (sort compareRanges (filter (fun r => contains r position) candidates)).


Definition doc (s : string) : TextDocument := mkDocument (js s).

(** ** What the specification talks about

    *** Balanced bracket pairs

    The depth of the scan that starts at 1 just after an opening delimiter
    and reads a stretch [l] of text: one more for each opening delimiter of
    the same kind, one less for each closing one. *)

Fixpoint count (c : char) (l : Text) : Z :=
  match l with
  | [] => 0
  | x :: l' => (if N.eqb x c then 1 else 0) + count c l'
  end.

Definition depthAfter (bracketPair : BracketPair) (depth : Z) (l : Text) : Z :=
  depth + count (fst bracketPair) l - count (snd bracketPair) l.

(** The depth once [text[k]] has been read, for the opening delimiter at [i]. *)
Definition bracketDepth (bracketPair : BracketPair) (text : Text) (i k : nat) : Z :=
  depthAfter bracketPair 1 (slice text (i + 1) (k + 1)).

(** [text[i]] opens a pair of kind [bracketPair] that [text[j]] closes: the
    depth first returns to 0 at [j]. *)
Definition closesAt (text : Text) (bracketPair : BracketPair) (i j : nat) : Prop :=
  In bracketPair brackets /\
  nth_error text i = Some (fst bracketPair) /\
  i < j /\
  nth_error text j = Some (snd bracketPair) /\
  bracketDepth bracketPair text i j = 0%Z /\
  forall k, i < k < j -> (0 < bracketDepth bracketPair text i k)%Z.

(** The opening delimiter at [i] is never closed. *)
Definition neverCloses (text : Text) (bracketPair : BracketPair) (i : nat) : Prop :=
  forall k, i < k < length text -> (0 < bracketDepth bracketPair text i k)%Z.

(** A balanced pair whose interior holds the position. *)
Definition enclosingPair (text : Text) (position : Position) (i j : nat) : Prop :=
  (exists bracketPair, closesAt text bracketPair i j) /\ i + 1 <= position <= j.

(** The interior of a balanced bracket pair. *)
Definition balancedBracketSpan (text : Text) (r : Range) : Prop :=
  exists bracketPair i,
    start r = i + 1 /\ closesAt text bracketPair i (end_ r).

(** *** Opening tags *)

(** [s] is read in [text] at index [i]. *)
Definition occursAt (text : Text) (i : nat) (s : Text) : Prop :=
  slice text i (i + length s) = s.

(** All the opening tags of a text: what the first loop records when it
    never leaves early. *)
Definition openingTags (text : Text) : list TagInfo :=
  collectTags text (length text) 0 [].

(** The opening tags the matcher records for a position. *)
Definition recordedTags (document : TextDocument) (position : Position)
  : list TagInfo :=
  collectTags (getText document) (offsetAt document position) 0 [].

(** An opening tag of the text, from its [<] at [tag.index] to just after
    its [>] at [tag.end]; its name is made of word characters, so it stands
    for itself in [closingTagRegex]. *)
Definition isOpeningTag (text : Text) (tag : TagInfo) : Prop :=
  tag_name tag <> [] /\ forallb word (tag_name tag) = true /\
  exists attrs,
    forallb notGt attrs = true /\
    occursAt text (tag_index tag) (chr "<" :: tag_name tag ++ attrs ++ [chr ">"]) /\
    tag_end tag = tag_index tag + (length (tag_name tag) + length attrs + 2).

(** Tags in the order of the text: each ends before the next one. *)
Definition increasingEnds (tags : list TagInfo) : Prop :=
  forall i j a b, i < j ->
    nth_error tags i = Some a -> nth_error tags j = Some b ->
    tag_end a < tag_end b.

(** Tags in the order of the text that start at or before [offset] and end
    at or before [bound]. *)
Definition tagsUpTo (offset bound : nat) (tags : list TagInfo) : Prop :=
  increasingEnds tags /\
  forall t, In t tags ->
    tag_index t <= offset /\ tag_index t < tag_end t <= bound.

(** *** The depth the tag matcher counts

    The successive matches of [closingTagRegex] from [lastIndex] on: what the
    inner loop of the tag matcher would see if it never left early.  The
    depth below is the matcher's own, counted over these matches. *)

Equations? closingMatches (text : Text) (name : Text) (lastIndex : nat)
  : list RegExpMatch
  by wf (S (length text) - lastIndex) lt :=
closingMatches text name lastIndex
  with inspect (exec (closingTagRegex name) text lastIndex) := {
  | exist _ (Some m, lastIndex') _ => m :: closingMatches text name lastIndex';
  | exist _ (None, _) _ => [] }.
Proof.
  eapply exec_progress; [apply minLength_closingTagRegex | eassumption].
Qed.

(** A match of the first alternative, [</name>]. *)
Definition isClosing (m : RegExpMatch) : bool := startsWith (matched m) (js "</").

(** The depth after a run of matches: one less for each closing tag, one
    more for each other match. *)
Fixpoint tagDepth (depth : Z) (events : list RegExpMatch) : Z :=
  match events with
  | [] => depth
  | m :: events' => tagDepth (if isClosing m then depth - 1 else depth + 1)%Z events'
  end.

(** The depth, started at [depth], first returns to 0 at the [k]-th event,
    which is a closing tag at index [e]. *)
Definition firstZeroAt (events : list RegExpMatch) (depth : Z) (k e : nat) : Prop :=
  (exists m, nth_error events k = Some m /\ isClosing m = true /\ index m = e) /\
  tagDepth depth (firstn (S k) events) = 0%Z /\
  forall k', k' < k -> (0 < tagDepth depth (firstn (S k') events))%Z.

(** The depth never returns to 0. *)
Definition neverZero (events : list RegExpMatch) (depth : Z) : Prop :=
  forall k, k < length events -> (0 < tagDepth depth (firstn (S k) events))%Z.

(** By the matcher's count the opening tag [tag] is closed by the closing
    tag at index [e]. *)
Definition tagClosesAt (text : Text) (tag : TagInfo) (e : nat) : Prop :=
  exists k, firstZeroAt (closingMatches text (tag_name tag) (tag_end tag)) 1 k e.

(** By the matcher's count the opening tag [tag] is never closed. *)
Definition tagNeverCloses (text : Text) (tag : TagInfo) : Prop :=
  neverZero (closingMatches text (tag_name tag) (tag_end tag)) 1.

(** The interior of [tag], closed by the matcher's count, holds the
    position. *)
Definition countEncloses (text : Text) (position : Position)
           (tag : TagInfo) (e : nat) : Prop :=
  tagClosesAt text tag e /\ tag_end tag <= position <= e.

(** A recorded tag whose interior holds the position. *)
Definition enclosingTag (document : TextDocument) (position : Position)
           (tag : TagInfo) (e : nat) : Prop :=
  In tag (recordedTags document position) /\
  tagClosesAt (getText document) tag e /\
  tag_end tag <= position <= e.

(** What the matcher's count makes of a span: it goes from the end of a
    tag the first loop can record to the [<] of the closing tag [</name>] at
    which the matcher's depth first returns to 0. *)
Definition countedTagSpan (text : Text) (r : Range) : Prop :=
  exists tag,
    In tag (openingTags text) /\ start r = tag_end tag /\
    tagClosesAt text tag (end_ r) /\
    occursAt text (end_ r) (js "</" ++ tag_name tag ++ [chr ">"]).

(** *** Tags as the specification reads them

    The specification speaks of opening tags [<name ...>], whose name is the
    run of word characters after the [<], and of closing tags [</name>], and
    it looks for the next occurrence of a tag, one after the other.  The
    definitions below read the characters of the text; they use neither the
    regular expressions nor the loops of the matcher. *)

(** The number of characters of the class [cls] at the head of [rest]. *)
Fixpoint runLength (cls : char -> bool) (rest : Text) : nat :=
  match rest with
  | c :: rest' => if cls c then S (runLength cls rest') else 0
  | [] => 0
  end.

(** The opening tag at the head of [rest], if one starts there: [<], the
    name, which is the word characters that follow, as many as there are and
    at least one, then anything up to the first [>].  Its name and its
    length. *)
Definition openingTagAt (rest : Text) : option (Text * nat) :=
  match rest with
  | c :: rest' =>
      if N.eqb c (chr "<") then
        let n := runLength word rest' in
        let a := runLength notGt (skipn n rest') in
        match n, nth_error rest' (n + a) with
        | S _, Some _ => Some (firstn n rest', n + a + 2)
        | _, _ => None
        end
      else None
  | [] => None
  end.

(** The closing tag [</name>] is read at the head of [rest]. *)
Definition closingTagAt (name rest : Text) : bool :=
  startsWith rest (js "</" ++ name ++ [chr ">"]).

Definition sameText (a b : Text) : bool :=
  (length a =? length b) && startsWith a b.

(** Reading a text token by token: [recognise] tells which token, if any,
    starts at the head of the rest of the text, and how long it is; the
    tokens are taken from left to right, the search for the next one starting
    behind the last.  [i] is the index of the head of [rest] and [skip] the
    number of characters of the last token still to pass.  A token comes
    with its index and the index just behind it. *)
Fixpoint tokens {A} (recognise : Text -> option (A * nat))
         (rest : Text) (i skip : nat) : list (nat * A * nat) :=
  match rest with
  | [] => []
  | _ :: rest' =>
      match skip with
      | S skip' => tokens recognise rest' (S i) skip'
      | 0 =>
          match recognise rest with
          | Some (a, len) => (i, a, i + len) :: tokens recognise rest' (S i) (len - 1)
          | None => tokens recognise rest' (S i) 0
          end
      end
  end.

Definition tagOfToken (t : nat * Text * nat) : TagInfo :=
  mkTag (fst (fst t)) (snd (fst t)) (snd t).

(** The opening tags of a text, in the order of the text. *)
Definition tagsOf (text : Text) : list TagInfo :=
  map tagOfToken (tokens openingTagAt text 0 0).

(** A tag with the name [name] at the head of [rest]: the closing tag
    [</name>], or an opening tag whose name is [name]; whether it is the
    closing tag, and its length. *)
Definition namedTagAt (name rest : Text) : option (bool * nat) :=
  if closingTagAt name rest then Some (true, length name + 3)
  else match openingTagAt rest with
       | Some (name', len) =>
           if sameText name' name then Some (false, len) else None
       | None => None
       end.

(** The tags with the name [name] from the index [from] on. *)
Definition tagsNamed (text name : Text) (from : nat) : list (nat * bool * nat) :=
  tokens (namedTagAt name) (skipn from text) from 0.

(** The depth after a run of tags of one name: one less for each closing
    tag, one more for each opening tag. *)
Fixpoint depthByName (depth : Z) (events : list (nat * bool * nat)) : Z :=
  match events with
  | [] => depth
  | (_, closing, _) :: events' =>
      depthByName (if closing then depth - 1 else depth + 1)%Z events'
  end.

(** The opening tag [tag] is closed by the closing tag at index [e]:
    counting the tags of its name from 1 behind the opening tag, the depth
    first returns to 0 at the closing tag at [e]. *)
Definition closesByName (text : Text) (tag : TagInfo) (e : nat) : Prop :=
  let events := tagsNamed text (tag_name tag) (tag_end tag) in
  exists k,
    (exists e', nth_error events k = Some (e, true, e')) /\
    depthByName 1 (firstn (S k) events) = 0%Z /\
    forall k', k' < k -> (0 < depthByName 1 (firstn (S k') events))%Z.

(** The interior of a balanced tag pair: from the end of an opening tag of
    the text to the closing tag of its name at which the depth first returns
    to 0. *)
Definition balancedTagSpan (text : Text) (r : Range) : Prop :=
  exists tag,
    In tag (tagsOf text) /\ start r = tag_end tag /\
    closesByName text tag (end_ r).

(** An opening tag of the text whose interior holds the position. *)
Definition enclosesByName (text : Text) (position : Position)
           (tag : TagInfo) (e : nat) : Prop :=
  In tag (tagsOf text) /\ closesByName text tag e /\
  tag_end tag <= position <= e.

(** [name'] begins with [name] and is longer. *)
Definition extendsName (name name' : Text) : bool :=
  startsWith name' name && (length name <? length name').

(** No opening tag in [rest] has a name that begins with [name] and is
    longer. *)
Fixpoint noLongerName (name rest : Text) : bool :=
  match rest with
  | [] => true
  | _ :: rest' =>
      match openingTagAt rest with
      | Some (name', _) => negb (extendsName name name')
      | None => true
      end && noLongerName name rest'
  end.

(** No opening tag of the text is followed by an opening tag whose name
    begins with its own and is longer. *)
Definition plainNames (text : Text) : bool :=
  forallb (fun tag => noLongerName (tag_name tag) (skipn (tag_end tag) text))
          (tagsOf text).

(** *** What the two patterns read *)

(** A tag as [openingTagRegex] reads it at the head of [rest]: [<], the
    name, the attributes, [>]. *)
Definition readsOpeningTag (rest : Text) (name attrs : Text) : Prop :=
  name <> [] /\ forallb word name = true /\ forallb notGt attrs = true /\
  exists rest', rest = chr "<" :: name ++ attrs ++ chr ">" :: rest'.

(** What [closingTagRegex] reads at the head of [rest]: a closing tag
    [</name>], or [<name], any characters but [>], and [>]. *)
Definition readsClosingTag (rest : Text) (name : Text) : Prop :=
  exists rest', rest = js "</" ++ name ++ chr ">" :: rest'.

Definition readsReopening (rest : Text) (name attrs : Text) : Prop :=
  forallb notGt attrs = true /\
  exists rest', rest = chr "<" :: name ++ attrs ++ chr ">" :: rest'.

(** The end of the whole input, which matching never moves. *)
Definition inputEnd (x : MatchState) : nat := endIndex x + length (input x).

Definition conserves (k : Continuation) : Prop :=
  forall x y, k x = Some y -> inputEnd y = inputEnd x.

(** *** The selector *)

(** [a] ranks before [b]: it starts later, or at the same offset and ends
    no later. *)
Definition ranksBefore (a b : Range) : Prop :=
  start b < start a \/ (start a = start b /\ end_ a <= end_ b).

Definition toSelection (r : Range) : Selection := mkSelection (start r) (end_ r).

(** The candidates of one cursor, as the command collects them. *)
Definition candidatesAt (document : TextDocument) (position : Position)
  : list Range :=
  pushIf (findEnclosingBrackets document position)
         (pushIf (findEnclosingTags document position) []).

(** [bestRange] in the command: the first of the sorted candidates. *)
Definition selectedRange (document : TextDocument) (position : Position)
  : option Range :=
  hd_error (sort compareRanges
                 (filter (fun r => contains r position)
                         (candidatesAt document position))).

(** ** Ranges *)

Lemma contains_spec r p : contains r p = true <-> start r <= p <= end_ r.
Proof.
  unfold contains. rewrite andb_true_iff, !Nat.leb_le. tauto.
Qed.

Lemma containsRange_spec r o :
  containsRange r o = true <->
  (start r <= start o <= end_ r) /\ (start r <= end_ o <= end_ r).
Proof.
  unfold containsRange. rewrite andb_true_iff, !contains_spec. tauto.
Qed.

Lemma newRange_ordered a b : a <= b -> newRange a b = mkRange a b.
Proof.
  intros H. unfold newRange. destruct (Nat.ltb_spec b a); [lia | reflexivity].
Qed.

Lemma positionAt_inside document o :
  o <= length (getText document) -> positionAt document o = o.
Proof. intros H. unfold positionAt. lia. Qed.

Lemma keepInner_cases range position bestRange :
  (keepInner range position bestRange = Some range /\
   contains range position = true) \/
  keepInner range position bestRange = bestRange.
Proof.
  unfold keepInner. destruct (contains range position); simpl; [|now right].
  destruct bestRange as [best|]; [|now left].
  destruct (containsRange best range); [now left | now right].
Qed.

Lemma keepInner_None range position :
  keepInner range position None =
  if contains range position then Some range else None.
Proof. unfold keepInner. now rewrite andb_true_r. Qed.

(** Once a range is kept, a range that starts before it never replaces it. *)
Lemma keepInner_outer range position best :
  start range < start best ->
  keepInner range position (Some best) = Some best.
Proof.
  intros H. unfold keepInner.
  destruct (containsRange best range) eqn:E.
  - apply containsRange_spec in E. lia.
  - now rewrite andb_false_r.
Qed.

(** ** The bracket matcher *)

Lemma findPair_spec c bracketPair :
  findPair (Some c) = Some bracketPair <->
  In bracketPair brackets /\ fst bracketPair = c.
Proof.
  unfold findPair, brackets. cbn [find fst].
  split.
  - repeat (match goal with
            | |- context [N.eqb ?a c] => destruct (N.eqb_spec a c)
            end; [intros H; inversion H; subst; cbn [In fst]; tauto|]).
    discriminate.
  - intros [[H|[H|[H|[]]]] Hc]; subst bracketPair; cbn [fst] in Hc; subst c;
      reflexivity.
Qed.

Lemma findPair_None c :
  findPair (Some c) = None -> forall bracketPair,
  In bracketPair brackets -> fst bracketPair <> c.
Proof.
  intros H bracketPair Hin Hc.
  assert (E : findPair (Some c) = Some bracketPair) by (apply findPair_spec; auto).
  congruence.
Qed.

Lemma brackets_distinct bracketPair :
  In bracketPair brackets -> fst bracketPair <> snd bracketPair.
Proof.
  intros [H|[H|[H|[]]]]; subst bracketPair; simpl; discriminate.
Qed.

Lemma brackets_open_inj p q :
  In p brackets -> In q brackets -> fst p = fst q -> p = q.
Proof.
  intros [H|[H|[H|[]]]] [H'|[H'|[H'|[]]]]; subst p q; simpl;
    intros E; try reflexivity; discriminate.
Qed.

Lemma depthAfter_nil bracketPair d : depthAfter bracketPair d [] = d.
Proof. unfold depthAfter; simpl; lia. Qed.

Lemma depthAfter_open bracketPair d l :
  fst bracketPair <> snd bracketPair ->
  depthAfter bracketPair d (fst bracketPair :: l) = depthAfter bracketPair (d + 1) l.
Proof.
  intros Hne. unfold depthAfter; simpl. rewrite N.eqb_refl.
  destruct (N.eqb_spec (fst bracketPair) (snd bracketPair)); [contradiction | lia].
Qed.

Lemma depthAfter_close bracketPair d l :
  fst bracketPair <> snd bracketPair ->
  depthAfter bracketPair d (snd bracketPair :: l) = depthAfter bracketPair (d - 1) l.
Proof.
  intros Hne. unfold depthAfter; simpl. rewrite N.eqb_refl.
  destruct (N.eqb_spec (snd bracketPair) (fst bracketPair)); [congruence | lia].
Qed.

Lemma depthAfter_other bracketPair d c l :
  c <> fst bracketPair -> c <> snd bracketPair ->
  depthAfter bracketPair d (c :: l) = depthAfter bracketPair d l.
Proof.
  intros H1 H2. unfold depthAfter; simpl.
  destruct (N.eqb_spec c (fst bracketPair)); [contradiction|].
  destruct (N.eqb_spec c (snd bracketPair)); [contradiction | lia].
Qed.

(** What the inner loop computes: either the depth first returns to 0 at
    the [n]-th character read, a closing delimiter, and the range up to it is
    offered to [keepInner]; or the depth stays positive to the end of the
    text and [bestRange] is left as it was. *)
Lemma scanForward_spec document position bracketPair i :
  fst bracketPair <> snd bracketPair ->
  forall rest j depth bestRange, (1 <= depth)%Z ->
  (exists n,
      nth_error rest n = Some (snd bracketPair) /\
      depthAfter bracketPair depth (firstn (S n) rest) = 0%Z /\
      (forall m, m < n -> (0 < depthAfter bracketPair depth (firstn (S m) rest))%Z) /\
      scanForward document position bracketPair i rest j depth bestRange =
      keepInner (newRange (positionAt document (i + 1))
                          (positionAt document (j + n))) position bestRange)
  \/ ((forall m, m < length rest ->
         (0 < depthAfter bracketPair depth (firstn (S m) rest))%Z) /\
      scanForward document position bracketPair i rest j depth bestRange = bestRange).
Proof.
  intros Hne rest; induction rest as [|c rest IH]; intros j depth bestRange Hd.
  - right. split; [simpl; intros; lia | reflexivity].
  - simpl scanForward.
    destruct (N.eqb_spec c (fst bracketPair)) as [Ho|Ho].
    + subst c.
      destruct (IH (S j) (depth + 1)%Z bestRange ltac:(lia))
        as [(n & Hn & Hz & Hpos & Hr)|(Hpos & Hr)].
      * left. exists (S n). repeat split.
        -- exact Hn.
        -- rewrite firstn_cons, depthAfter_open by assumption. exact Hz.
        -- intros [|m] Hm; rewrite firstn_cons, depthAfter_open by assumption.
           ++ simpl. rewrite depthAfter_nil. lia.
           ++ apply Hpos. lia.
        -- rewrite Hr. do 3 f_equal. lia.
      * right. split; [|exact Hr].
        intros [|m] Hm; rewrite firstn_cons, depthAfter_open by assumption.
        -- simpl. rewrite depthAfter_nil. lia.
        -- apply Hpos. simpl in Hm. lia.
    + destruct (N.eqb_spec c (snd bracketPair)) as [Hc|Hc].
      * subst c.
        destruct (Z.eqb_spec (depth - 1) 0) as [Hz|Hz].
        -- left. exists 0. repeat split.
           ++ simpl. rewrite depthAfter_close, depthAfter_nil by assumption. exact Hz.
           ++ intros m Hm; lia.
           ++ do 3 f_equal. lia.
        -- destruct (IH (S j) (depth - 1)%Z bestRange ltac:(lia))
             as [(n & Hn & Hz' & Hpos & Hr)|(Hpos & Hr)].
           ++ left. exists (S n). repeat split.
              ** exact Hn.
              ** rewrite firstn_cons, depthAfter_close by assumption. exact Hz'.
              ** intros [|m] Hm; rewrite firstn_cons, depthAfter_close by assumption.
                 --- simpl. rewrite depthAfter_nil. lia.
                 --- apply Hpos. lia.
              ** rewrite Hr. do 3 f_equal. lia.
           ++ right. split; [|exact Hr].
              intros [|m] Hm; rewrite firstn_cons, depthAfter_close by assumption.
              ** simpl. rewrite depthAfter_nil. lia.
              ** apply Hpos. simpl in Hm. lia.
      * destruct (IH (S j) depth bestRange Hd)
          as [(n & Hn & Hz & Hpos & Hr)|(Hpos & Hr)].
        -- left. exists (S n). repeat split.
           ++ exact Hn.
           ++ rewrite firstn_cons, depthAfter_other by assumption. exact Hz.
           ++ intros [|m] Hm; rewrite firstn_cons, depthAfter_other by assumption.
              ** simpl. rewrite depthAfter_nil. lia.
              ** apply Hpos. lia.
           ++ rewrite Hr. do 3 f_equal. lia.
        -- right. split; [|exact Hr].
           intros [|m] Hm; rewrite firstn_cons, depthAfter_other by assumption.
           ++ simpl. rewrite depthAfter_nil. lia.
           ++ apply Hpos. simpl in Hm. lia.
Qed.

Lemma closesAt_inside text bracketPair i j :
  closesAt text bracketPair i j -> i + 1 <= j < length text.
Proof.
  intros (_ & _ & Hij & Hj & _). split; [lia|].
  apply nth_error_Some. congruence.
Qed.

(** An opening delimiter has at most one closing delimiter. *)
Lemma closesAt_unique text p q i j j' :
  closesAt text p i j -> closesAt text q i j' -> p = q /\ j = j'.
Proof.
  intros (Hp & Hi & Hij & Hj & Hz & Hpos) (Hq & Hi' & Hij' & Hj' & Hz' & Hpos').
  assert (E : p = q) by (apply brackets_open_inj; congruence).
  subst q. split; [reflexivity|].
  destruct (Nat.lt_trichotomy j j') as [Hlt|[Heq|Hgt]]; [|exact Heq|].
  - specialize (Hpos' j ltac:(lia)). lia.
  - specialize (Hpos j' ltac:(lia)). lia.
Qed.

Lemma slice_from text a n : firstn (S n) (skipn a text) = slice text a (a + n + 1).
Proof. unfold slice. f_equal. lia. Qed.

(** The body of the outer loop: the opening delimiter at [i], if there is
    one and it is closed at [j], offers the interior [(i + 1, j)]; in every
    other case [bestRange] is left as it was. *)
Lemma bracketStep_cases document position i bestRange :
  (exists bracketPair j,
      closesAt (getText document) bracketPair i j /\
      bracketStep document position i bestRange =
      keepInner (mkRange (i + 1) j) position bestRange)
  \/ ((forall bracketPair j, ~ closesAt (getText document) bracketPair i j) /\
      bracketStep document position i bestRange = bestRange).
Proof.
  unfold bracketStep. cbv zeta.
  destruct (nth_error (getText document) i) as [c|] eqn:Hc.
  2:{ right. split; [|reflexivity].
      intros p j (_ & Hi & _). rewrite Hi in Hc. discriminate. }
  destruct (findPair (Some c)) as [bracketPair|] eqn:Hf.
  2:{ right. split; [|reflexivity].
      intros p j (Hp & Hi & _).
      apply (findPair_None _ Hf p Hp). congruence. }
  apply findPair_spec in Hf. destruct Hf as [Hin Hfst].
  pose proof (brackets_distinct _ Hin) as Hne.
  destruct (scanForward_spec document position bracketPair i Hne
              (skipn (i + 1) (getText document)) (i + 1) 1%Z bestRange ltac:(lia))
    as [(n & Hn & Hz & Hpos & Hr)|(Hpos & Hr)].
  - left. exists bracketPair, (i + 1 + n).
    rewrite nth_error_skipn in Hn.
    assert (Hlen : i + 1 + n < length (getText document))
      by (apply nth_error_Some; congruence).
    split.
    + repeat split.
      * exact Hin.
      * congruence.
      * lia.
      * exact Hn.
      * unfold bracketDepth. rewrite <- slice_from. exact Hz.
      * intros k Hk. unfold bracketDepth.
        replace k with (i + 1 + (k - (i + 1))) by lia.
        rewrite <- slice_from. apply Hpos. lia.
    + rewrite Hr, !positionAt_inside, newRange_ordered by lia. reflexivity.
  - right. split; [|exact Hr].
    intros p j Hcl.
    pose proof (closesAt_inside _ _ _ _ Hcl) as Hj.
    destruct Hcl as (Hp & Hi & Hij & _ & Hz & _).
    assert (E : p = bracketPair) by (apply brackets_open_inj; congruence).
    subst p.
    specialize (Hpos (j - (i + 1))). rewrite length_skipn in Hpos.
    specialize (Hpos ltac:(lia)).
    rewrite slice_from in Hpos. unfold bracketDepth in Hz.
    replace (i + 1 + (j - (i + 1)) + 1) with (j + 1) in Hpos by lia. lia.
Qed.

Lemma bracketLoop_kept document position best :
  forall n, n < start best ->
  bracketLoop document position n (Some best) = Some best.
Proof.
  induction n as [|i IH]; intros Hn; [reflexivity|].
  simpl.
  destruct (bracketStep_cases document position i (Some best))
    as [(p & j & _ & ->)|(_ & ->)].
  - rewrite keepInner_outer by (simpl; lia). apply IH. lia.
  - apply IH. lia.
Qed.

(** The outer loop, started with no range kept, keeps the enclosing pair
    with the greatest opening index below [n]. *)
Lemma bracketLoop_spec document position :
  forall n,
  match bracketLoop document position n None with
  | Some r =>
      exists i j, i < n /\ r = mkRange (i + 1) j /\
        enclosingPair (getText document) position i j /\
        forall i' j', i < i' < n ->
                      ~ enclosingPair (getText document) position i' j'
  | None =>
      forall i j, i < n -> ~ enclosingPair (getText document) position i j
  end.
Proof.
  induction n as [|i IH]; [simpl; intros; lia|].
  simpl.
  destruct (bracketStep_cases document position i None)
    as [(p & j & Hcl & ->)|(Hno & ->)].
  - rewrite keepInner_None.
    destruct (contains (mkRange (i + 1) j) position) eqn:Hc.
    + rewrite bracketLoop_kept by (simpl; lia).
      exists i, j. apply contains_spec in Hc. simpl in Hc.
      split; [lia|]. split; [reflexivity|]. split.
      * split; [exists p; exact Hcl | lia].
      * intros; lia.
    + assert (Hi : forall j', ~ enclosingPair (getText document) position i j').
      { intros j' [[q Hq] Hpos].
        destruct (closesAt_unique _ _ _ _ _ _ Hcl Hq) as [_ <-].
        assert (contains (mkRange (i + 1) j) position = true)
          by (apply contains_spec; simpl; lia).
        congruence. }
      destruct (bracketLoop document position i None) as [r|].
      * destruct IH as (i0 & j0 & Hi0 & Hr & Henc & Hmax).
        exists i0, j0.
        split; [lia|]. split; [exact Hr|]. split; [exact Henc|].
        intros i' j' Hi'. destruct (Nat.eq_dec i' i) as [->|Hne].
        -- apply Hi.
        -- apply Hmax. lia.
      * intros i' j' Hi'. destruct (Nat.eq_dec i' i) as [->|Hne].
        -- apply Hi.
        -- apply IH. lia.
  - assert (Hi : forall j', ~ enclosingPair (getText document) position i j').
    { intros j' [[q Hq] _]. exact (Hno q j' Hq). }
    destruct (bracketLoop document position i None) as [r|].
    + destruct IH as (i0 & j0 & Hi0 & Hr & Henc & Hmax).
      exists i0, j0.
      split; [lia|]. split; [exact Hr|]. split; [exact Henc|].
      intros i' j' Hi'. destruct (Nat.eq_dec i' i) as [->|Hne].
      * apply Hi.
      * apply Hmax. lia.
    + intros i' j' Hi'. destruct (Nat.eq_dec i' i) as [->|Hne].
      * apply Hi.
      * apply IH. lia.
Qed.

Lemma enclosingPair_below_offset document position i j :
  enclosingPair (getText document) position i j ->
  i < S (offsetAt document position).
Proof.
  intros [[p Hcl] Hpos]. apply closesAt_inside in Hcl.
  unfold offsetAt. lia.
Qed.

(** The bracket matcher returns the enclosing pair with the greatest opening
    index, and nothing exactly when no balanced pair encloses the position. *)
Lemma findEnclosingBrackets_spec document position :
  match findEnclosingBrackets document position with
  | Some r =>
      exists i j, r = mkRange (i + 1) j /\
        enclosingPair (getText document) position i j /\
        forall i' j', enclosingPair (getText document) position i' j' -> i' <= i
  | None =>
      forall i j, ~ enclosingPair (getText document) position i j
  end.
Proof.
  unfold findEnclosingBrackets. cbv zeta.
  pose proof (bracketLoop_spec document position (S (offsetAt document position))) as H.
  destruct (bracketLoop document position (S (offsetAt document position)) None) as [r|].
  - destruct H as (i & j & Hi & Hr & Henc & Hmax).
    exists i, j. split; [exact Hr|]. split; [exact Henc|].
    intros i' j' Henc'.
    destruct (Nat.le_gt_cases i' i) as [Hle|Hgt]; [exact Hle|].
    exfalso. apply (Hmax i' j'); [|exact Henc'].
    apply enclosingPair_below_offset in Henc'. lia.
  - intros i j Henc. apply (H i j); [|exact Henc].
    apply (enclosingPair_below_offset _ _ _ _ Henc).
Qed.

(** ** Regular expressions: where a match lies *)

Lemma matchStar_conserves cls k :
  conserves k ->
  forall rest e cap y,
    matchStar cls k rest e cap = Some y -> inputEnd y = e + length rest.
Proof.
  intros Hk rest; induction rest as [|c rest IH]; intros e cap y; simpl.
  - intros H. apply Hk in H. exact H.
  - destruct (cls c).
    + destruct (matchStar cls k rest (S e) cap) eqn:E.
      * intros H; inversion H; subst. apply IH in E. lia.
      * intros H. apply Hk in H. exact H.
    + intros H. apply Hk in H. exact H.
Qed.

Lemma matchPattern_conserves p :
  forall k, conserves k -> conserves (matchPattern p k).
Proof.
  induction p as [|c|cls|cls|p IHp q IHq|p IHp q IHq|p IHp];
    intros k Hk x y; simpl.
  - apply Hk.
  - unfold inputEnd. destruct (input x) as [|c' rest']; [discriminate|].
    destruct (N.eqb c' c); [|discriminate].
    intros H. apply Hk in H. unfold inputEnd in H. simpl in *. lia.
  - intros H. apply (matchStar_conserves _ _ Hk) in H. exact H.
  - unfold inputEnd. destruct (input x) as [|c' rest']; [discriminate|].
    destruct (cls c'); [|discriminate].
    intros H. apply (matchStar_conserves _ _ Hk) in H. unfold inputEnd in H.
    simpl. lia.
  - apply (IHp _ (IHq _ Hk)).
  - destruct (matchPattern p k x) eqn:E.
    + intros H; inversion H; subst. apply (IHp _ Hk _ _ E).
    + apply (IHq _ Hk).
  - intros H.
    refine (IHp (fun z => k (mkState (input z) (endIndex z) _)) _ x y H).
    intros z w Hz. apply Hk in Hz. exact Hz.
Qed.

Lemma searchFrom_bounds source :
  forall rest i m e, searchFrom source rest i = Some (m, e) ->
    i <= index m /\ index m + minLength source <= e <= i + length rest.
Proof.
  intros rest i m e H. pose proof (searchFrom_gains _ _ _ _ _ H) as [H1 H2].
  split; [exact H1|]. split; [exact H2|].
  revert i m e H H1 H2.
  induction rest as [|c rest IH]; intros i m e; simpl.
  - destruct (matchPattern source Some (mkState [] i None)) eqn:E; [|discriminate].
    intros H _ _; inversion H; subst.
    apply (matchPattern_conserves source Some) in E.
    + unfold inputEnd in E. simpl in E. lia.
    + intros x y Hx; inversion Hx; reflexivity.
  - destruct (matchPattern source Some (mkState (c :: rest) i None)) eqn:E.
    + intros H _ _; inversion H; subst.
      apply (matchPattern_conserves source Some) in E.
      * unfold inputEnd in E. simpl in E. lia.
      * intros x y Hx; inversion Hx; reflexivity.
    + intros H _ _. pose proof (searchFrom_gains _ _ _ _ _ H) as [H1 H2].
      specialize (IH _ _ _ H H1 H2). lia.
Qed.

(** A match lies between [lastIndex] and the end of the text, and the new
    [lastIndex] is its end. *)
Lemma exec_bounds source text lastIndex m lastIndex' :
  exec source text lastIndex = (Some m, lastIndex') ->
  lastIndex <= index m /\
  index m + minLength source <= lastIndex' <= length text.
Proof.
  unfold exec.
  destruct (Nat.ltb_spec (length text) lastIndex) as [Hlt|Hle]; [discriminate|].
  destruct (searchFrom source (skipn lastIndex text) lastIndex) as [[m' e]|] eqn:E;
    [|discriminate].
  intros H; inversion H; subst.
  apply searchFrom_bounds in E. rewrite length_skipn in E. lia.
Qed.

(** Induction along a [while ((match = regex.exec(text)) !== null)] loop:
    to prove [P] of every [lastIndex] it is enough to prove it of a
    [lastIndex] knowing it of the [lastIndex] that a match from there
    leaves. *)
Lemma exec_ind source text :
  1 <= minLength source ->
  forall P : nat -> Prop,
  (forall lastIndex,
      (forall m lastIndex',
          exec source text lastIndex = (Some m, lastIndex') -> P lastIndex') ->
      P lastIndex) ->
  forall lastIndex, P lastIndex.
Proof.
  intros Hmin P Hstep lastIndex.
  remember (S (length text) - lastIndex) as n eqn:Hn. revert lastIndex Hn.
  induction n as [n IH] using lt_wf_ind. intros lastIndex Hn.
  apply Hstep. intros m lastIndex' E.
  apply (IH (S (length text) - lastIndex')); [|reflexivity].
  subst n. apply (exec_progress _ _ _ _ _ Hmin E).
Qed.

Lemma openingTagRegex_progress : 1 <= minLength openingTagRegex.
Proof. simpl. lia. Qed.

(** ** The tag matcher: the inner loop *)

Lemma closingLoop_eq document position tag lastIndex depth bestRange :
  closingLoop document position tag lastIndex depth bestRange =
  match exec (closingTagRegex (tag_name tag)) (getText document) lastIndex with
  | (Some m, lastIndex') =>
      if startsWith (matched m) (js "</") then
        if (depth - 1 =? 0)%Z then
          keepInner (newRange (positionAt document (tag_end tag))
                              (positionAt document (index m)))
                    position bestRange
        else
          closingLoop document position tag lastIndex' (depth - 1) bestRange
      else
        closingLoop document position tag lastIndex' (depth + 1) bestRange
  | (None, _) => bestRange
  end.
Proof.
  funelim (closingLoop document position tag lastIndex depth bestRange);
    match goal with E : exec _ _ _ = _ |- _ => rewrite E end; reflexivity.
Qed.

Lemma closingMatches_eq text name lastIndex :
  closingMatches text name lastIndex =
  match exec (closingTagRegex name) text lastIndex with
  | (Some m, lastIndex') => m :: closingMatches text name lastIndex'
  | (None, _) => []
  end.
Proof.
  funelim (closingMatches text name lastIndex);
    match goal with E : exec _ _ _ = _ |- _ => rewrite E end; reflexivity.
Qed.

Lemma collectTags_eq text offset lastIndex tags :
  collectTags text offset lastIndex tags =
  match exec openingTagRegex text lastIndex with
  | (Some m, lastIndex') =>
      if offset <? index m then tags
      else collectTags text offset lastIndex' (pushTag m lastIndex' tags)
  | (None, _) => tags
  end.
Proof.
  funelim (collectTags text offset lastIndex tags);
    match goal with E : exec _ _ _ = _ |- _ => rewrite E end; reflexivity.
Qed.

Lemma firstZeroAt_here m events depth :
  isClosing m = true -> (depth - 1 = 0)%Z ->
  firstZeroAt (m :: events) depth 0 (index m).
Proof.
  intros Hc Hz. split; [|split].
  - exists m. auto.
  - simpl. rewrite Hc. exact Hz.
  - intros; lia.
Qed.

Lemma firstZeroAt_later m events depth k e :
  let depth' := (if isClosing m then depth - 1 else depth + 1)%Z in
  (0 < depth')%Z ->
  firstZeroAt events depth' k e ->
  firstZeroAt (m :: events) depth (S k) e.
Proof.
  intros depth' Hd (Hm & Hz & Hpos). split; [|split].
  - exact Hm.
  - exact Hz.
  - intros [|k'] Hk'.
    + exact Hd.
    + apply (Hpos k'). lia.
Qed.

Lemma neverZero_nil depth : neverZero [] depth.
Proof. intros k Hk. simpl in Hk. lia. Qed.

Lemma neverZero_cons m events depth :
  let depth' := (if isClosing m then depth - 1 else depth + 1)%Z in
  (0 < depth')%Z ->
  neverZero events depth' ->
  neverZero (m :: events) depth.
Proof.
  intros depth' Hd Hpos [|k] Hk.
  - exact Hd.
  - apply (Hpos k). simpl in Hk. lia.
Qed.

Lemma firstZeroAt_unique events depth k e k' e' :
  firstZeroAt events depth k e -> firstZeroAt events depth k' e' ->
  k = k' /\ e = e'.
Proof.
  intros ((m & Hm & _ & He) & Hz & Hpos) ((m' & Hm' & _ & He') & Hz' & Hpos').
  assert (E : k = k').
  { destruct (Nat.lt_trichotomy k k') as [Hlt|[Heq|Hgt]]; [|exact Heq|].
    - specialize (Hpos' k Hlt). lia.
    - specialize (Hpos k' Hgt). lia. }
  subst k'. split; [reflexivity|]. congruence.
Qed.

Lemma firstZeroAt_not_neverZero events depth k e :
  firstZeroAt events depth k e -> ~ neverZero events depth.
Proof.
  intros ((m & Hm & _) & Hz & _) Hn.
  assert (Hk : k < length events) by (apply nth_error_Some; congruence).
  specialize (Hn k Hk). lia.
Qed.

(** What the inner loop computes: either the depth first returns to 0 at
    some match, a closing tag at index [e], and the range from the end of the
    opening tag to [e] is offered to [keepInner]; or the depth stays positive
    until the matches run out and [bestRange] is left as it was. *)
Lemma closingLoop_spec document position tag :
  forall lastIndex depth bestRange,
  (1 <= depth)%Z -> tag_end tag <= lastIndex ->
  let events := closingMatches (getText document) (tag_name tag) lastIndex in
  (exists k e,
      firstZeroAt events depth k e /\
      tag_end tag <= e < length (getText document) /\
      closingLoop document position tag lastIndex depth bestRange =
      keepInner (mkRange (tag_end tag) e) position bestRange)
  \/ (neverZero events depth /\
      closingLoop document position tag lastIndex depth bestRange = bestRange).
Proof.
  intros lastIndex.
  induction lastIndex as [lastIndex IH]
    using (exec_ind (closingTagRegex (tag_name tag)) (getText document)
                    (minLength_closingTagRegex _)).
  intros depth bestRange Hd Hle events. subst events.
  rewrite closingLoop_eq, closingMatches_eq.
  destruct (exec (closingTagRegex (tag_name tag)) (getText document) lastIndex)
    as [[m|] lastIndex'] eqn:E.
  2:{ right. split; [apply neverZero_nil | reflexivity]. }
  pose proof (exec_bounds _ _ _ _ _ E) as (Hb1 & Hb2 & Hb3).
  pose proof (minLength_closingTagRegex (tag_name tag)) as Hmin.
  assert (Hrec : forall depth', (1 <= depth')%Z ->
    let events := closingMatches (getText document) (tag_name tag) lastIndex' in
    (exists k e,
      firstZeroAt events depth' k e /\
      tag_end tag <= e < length (getText document) /\
      closingLoop document position tag lastIndex' depth' bestRange =
      keepInner (mkRange (tag_end tag) e) position bestRange)
    \/ (neverZero events depth' /\
      closingLoop document position tag lastIndex' depth' bestRange = bestRange)).
  { intros depth' Hd'. apply (IH _ _ eq_refl); [exact Hd' | lia]. }
  fold (isClosing m). destruct (isClosing m) eqn:Hc.
  - destruct (Z.eqb_spec (depth - 1) 0) as [Hz|Hz].
    + left. exists 0, (index m). split; [|split].
      * apply firstZeroAt_here; assumption.
      * lia.
      * rewrite !positionAt_inside, newRange_ordered by lia. reflexivity.
    + destruct (Hrec (depth - 1)%Z ltac:(lia)) as [(k & e & Hf & He & Hr)|(Hnz & Hr)].
      * left. exists (S k), e. split; [|split; [exact He | exact Hr]].
        apply firstZeroAt_later; rewrite Hc; [lia | exact Hf].
      * right. split; [|exact Hr].
        apply neverZero_cons; rewrite Hc; [lia | exact Hnz].
  - destruct (Hrec (depth + 1)%Z ltac:(lia)) as [(k & e & Hf & He & Hr)|(Hnz & Hr)].
    + left. exists (S k), e. split; [|split; [exact He | exact Hr]].
      apply firstZeroAt_later; rewrite Hc; [lia | exact Hf].
    + right. split; [|exact Hr].
      apply neverZero_cons; rewrite Hc; [lia | exact Hnz].
Qed.

Lemma tagClosesAt_unique text tag e e' :
  tagClosesAt text tag e -> tagClosesAt text tag e' -> e = e'.
Proof.
  intros [k Hk] [k' Hk']. apply (firstZeroAt_unique _ _ _ _ _ _ Hk Hk').
Qed.

(** The body of the second loop: a tag that is closed at [e] offers the
    interior [(tag.end, e)]; a tag that is never closed leaves [bestRange]
    as it was. *)
Lemma tagStep_cases document position tag bestRange :
  (exists e,
      tagClosesAt (getText document) tag e /\
      tag_end tag <= e /\
      tagStep document position (Some tag) bestRange =
      keepInner (mkRange (tag_end tag) e) position bestRange)
  \/ (tagNeverCloses (getText document) tag /\
      tagStep document position (Some tag) bestRange = bestRange).
Proof.
  unfold tagStep.
  destruct (closingLoop_spec document position tag (tag_end tag) 1 bestRange
              ltac:(lia) ltac:(lia)) as [(k & e & Hf & He & Hr)|(Hnz & Hr)].
  - left. exists e. split; [exists k; exact Hf|]. split; [lia | exact Hr].
  - right. split; [exact Hnz | exact Hr].
Qed.

(** ** The tag matcher: the recorded tags *)

Lemma tagsUpTo_push offset bound bound' tags m :
  tagsUpTo offset bound tags ->
  bound <= index m -> index m < bound' -> index m <= offset ->
  tagsUpTo offset bound' (pushTag m bound' tags).
Proof.
  intros [Hinc Hall] Hb Hm Ho. unfold pushTag.
  assert (Hsame : tagsUpTo offset bound' tags).
  { split; [exact Hinc|]. intros t Ht. specialize (Hall t Ht). lia. }
  destruct (group1 m) as [[|c s]|]; try exact Hsame.
  split.
  - intros i j a b Hij Ha Hb'.
    assert (Hj : j < length (tags ++ [mkTag (index m) (c :: s) bound']))
      by (apply nth_error_Some; congruence).
    rewrite length_app in Hj. simpl in Hj.
    rewrite nth_error_app1 in Ha by lia.
    destruct (Nat.eq_dec j (length tags)) as [->|Hne].
    + rewrite nth_error_app2, Nat.sub_diag in Hb' by lia.
      simpl in Hb'. inversion Hb'; subst b; simpl.
      apply nth_error_In in Ha. specialize (Hall a Ha). lia.
    + rewrite nth_error_app1 in Hb' by lia.
      apply (Hinc i j a b Hij Ha Hb').
  - intros t Ht. apply in_app_or in Ht. destruct Ht as [Ht|[<-|[]]].
    + specialize (Hall t Ht). lia.
    + simpl. lia.
Qed.

Lemma collectTags_inv text offset :
  forall lastIndex tags,
  tagsUpTo offset lastIndex tags -> lastIndex <= length text ->
  tagsUpTo offset (length text) (collectTags text offset lastIndex tags).
Proof.
  intros lastIndex.
  induction lastIndex as [lastIndex IH]
    using (exec_ind openingTagRegex text openingTagRegex_progress).
  intros tags Hinv Hlen.
  assert (Hsame : tagsUpTo offset (length text) tags).
  { destruct Hinv as [Hinc Hall]. split; [exact Hinc|].
    intros t Ht. specialize (Hall t Ht). lia. }
  rewrite collectTags_eq.
  destruct (exec openingTagRegex text lastIndex) as [[m|] lastIndex'] eqn:E;
    [|exact Hsame].
  pose proof (exec_bounds _ _ _ _ _ E) as (Hb1 & Hb2 & Hb3). simpl in Hb2.
  destruct (Nat.ltb_spec offset (index m)) as [Hlt|Hge]; [exact Hsame|].
  apply (IH _ _ eq_refl); [|exact Hb3].
  apply (tagsUpTo_push _ _ _ _ _ Hinv); lia.
Qed.

Lemma recordedTags_inv document position :
  tagsUpTo (offsetAt document position) (length (getText document))
           (recordedTags document position).
Proof.
  apply collectTags_inv; [|lia].
  split; [intros i j a b _ Ha; destruct i; discriminate | intros t []].
Qed.

(** ** The tag matcher: the second loop *)

Lemma tagLoop_kept document position tags best :
  forall n,
  (forall i t, i < n -> nth_error tags i = Some t -> tag_end t < start best) ->
  tagLoop document position tags n (Some best) = Some best.
Proof.
  induction n as [|i IH]; intros Hn; [reflexivity|].
  simpl.
  assert (E : tagStep document position (nth_error tags i) (Some best) = Some best).
  { destruct (nth_error tags i) as [tag|] eqn:Ht; [|reflexivity].
    destruct (tagStep_cases document position tag (Some best))
      as [(e & _ & _ & ->)|(_ & ->)]; [|reflexivity].
    apply keepInner_outer. simpl. apply (Hn i tag); [lia | exact Ht]. }
  rewrite E. apply IH. intros i' t Hi'. apply Hn. lia.
Qed.

(** The second loop, started with no range kept, keeps the interior of the
    last of the first [n] tags whose interior holds the position. *)
Lemma tagLoop_spec document position tags :
  increasingEnds tags ->
  forall n, n <= length tags ->
  match tagLoop document position tags n None with
  | Some r =>
      exists i tag e, i < n /\ nth_error tags i = Some tag /\
        r = mkRange (tag_end tag) e /\
        countEncloses (getText document) position tag e /\
        forall i' tag' e', i < i' < n -> nth_error tags i' = Some tag' ->
                           ~ countEncloses (getText document) position tag' e'
  | None =>
      forall i tag e, i < n -> nth_error tags i = Some tag ->
                      ~ countEncloses (getText document) position tag e
  end.
Proof.
  intros Hinc.
  induction n as [|i IH]; intros Hlen; [simpl; intros; lia|].
  simpl.
  destruct (nth_error tags i) as [tag|] eqn:Ht.
  2:{ apply nth_error_None in Ht. lia. }
  specialize (IH ltac:(lia)).
  assert (Hrest : forall r : option Range,
    (forall e, ~ countEncloses (getText document) position tag e) ->
    match r with
    | Some r =>
        exists i0 tag0 e, i0 < i /\ nth_error tags i0 = Some tag0 /\
          r = mkRange (tag_end tag0) e /\
          countEncloses (getText document) position tag0 e /\
          forall i' tag' e', i0 < i' < i -> nth_error tags i' = Some tag' ->
                             ~ countEncloses (getText document) position tag' e'
    | None =>
        forall i0 tag0 e, i0 < i -> nth_error tags i0 = Some tag0 ->
                          ~ countEncloses (getText document) position tag0 e
    end ->
    match r with
    | Some r =>
        exists i0 tag0 e, i0 < S i /\ nth_error tags i0 = Some tag0 /\
          r = mkRange (tag_end tag0) e /\
          countEncloses (getText document) position tag0 e /\
          forall i' tag' e', i0 < i' < S i -> nth_error tags i' = Some tag' ->
                             ~ countEncloses (getText document) position tag' e'
    | None =>
        forall i0 tag0 e, i0 < S i -> nth_error tags i0 = Some tag0 ->
                          ~ countEncloses (getText document) position tag0 e
    end).
  { intros [r|] Hi H.
    - destruct H as (i0 & tag0 & e & Hi0 & Ht0 & Hr & Henc & Hmax).
      exists i0, tag0, e.
      split; [lia|]. split; [exact Ht0|]. split; [exact Hr|]. split; [exact Henc|].
      intros i' tag' e' Hi' Ht'. destruct (Nat.eq_dec i' i) as [->|Hne].
      + replace tag' with tag by congruence. apply Hi.
      + apply (Hmax i'); [lia | exact Ht'].
    - intros i0 tag0 e Hi0 Ht0. destruct (Nat.eq_dec i0 i) as [->|Hne].
      + replace tag0 with tag by congruence. apply Hi.
      + apply (H i0); [lia | exact Ht0]. }
  destruct (tagStep_cases document position tag None)
    as [(e & Hcl & Hle & ->)|(Hno & ->)].
  - rewrite keepInner_None.
    destruct (contains (mkRange (tag_end tag) e) position) eqn:Hc.
    + rewrite tagLoop_kept.
      * exists i, tag, e. apply contains_spec in Hc. simpl in Hc.
        split; [lia|]. split; [exact Ht|]. split; [reflexivity|].
        split; [split; [exact Hcl | lia]|]. intros; lia.
      * intros i' t Hi' Ht'. simpl. apply (Hinc i' i t tag Hi' Ht' Ht).
    + apply Hrest; [|exact IH].
      intros e' [Hcl' Hpos].
      rewrite (tagClosesAt_unique _ _ _ _ Hcl' Hcl) in Hpos.
      assert (contains (mkRange (tag_end tag) e) position = true)
        by (apply contains_spec; simpl; lia).
      congruence.
  - apply Hrest; [|exact IH].
    intros e' [[k Hk] _]. exact (firstZeroAt_not_neverZero _ _ _ _ Hk Hno).
Qed.

(** The tag matcher returns the interior of the last recorded tag whose
    interior holds the position, and nothing exactly when no recorded tag
    has such an interior. *)
Lemma findEnclosingTags_spec document position :
  match findEnclosingTags document position with
  | Some r =>
      exists tag e, r = mkRange (tag_end tag) e /\
        enclosingTag document position tag e /\
        forall tag' e', enclosingTag document position tag' e' ->
                        tag_end tag' <= tag_end tag
  | None =>
      forall tag e, ~ enclosingTag document position tag e
  end.
Proof.
  unfold findEnclosingTags. cbv zeta.
  fold (recordedTags document position).
  destruct (recordedTags_inv document position) as [Hinc _].
  pose proof (tagLoop_spec document position _ Hinc
                (length (recordedTags document position)) (Nat.le_refl _)) as H.
  destruct (tagLoop document position (recordedTags document position)
                    (length (recordedTags document position)) None) as [r|].
  - destruct H as (i & tag & e & Hi & Ht & Hr & [Hcl Hpos] & Hmax).
    exists tag, e. split; [exact Hr|]. split.
    + split; [eapply nth_error_In; exact Ht|]. split; assumption.
    + intros tag' e' (Hin & Hcl' & Hpos').
      apply In_nth_error in Hin. destruct Hin as [i' Ht'].
      assert (Hi' : i' < length (recordedTags document position))
        by (apply nth_error_Some; congruence).
      destruct (Nat.lt_trichotomy i' i) as [Hlt|[->|Hgt]].
      * specialize (Hinc i' i tag' tag Hlt Ht' Ht). lia.
      * replace tag' with tag by congruence. lia.
      * exfalso. apply (Hmax i' tag' e'); [lia | exact Ht' | split; assumption].
  - intros tag e (Hin & Hcl & Hpos).
    apply In_nth_error in Hin. destruct Hin as [i Ht].
    apply (H i tag e); [apply nth_error_Some; congruence | exact Ht |].
    split; assumption.
Qed.

(** ** The selector *)

Lemma compareTo_cases a b :
  (a < b /\ compareTo a b = (-1)%Z) \/
  (a = b /\ compareTo a b = 0%Z) \/
  (b < a /\ compareTo a b = 1%Z).
Proof.
  unfold compareTo.
  destruct (Nat.ltb_spec a b); [left; auto|].
  destruct (Nat.ltb_spec b a); [right; right; auto|].
  right; left. split; [lia | reflexivity].
Qed.

Lemma compareRanges_le a b :
  (compareRanges a b <=? 0)%Z = true <-> ranksBefore a b.
Proof.
  unfold compareRanges, ranksBefore. cbv zeta. rewrite Z.leb_le.
  destruct (compareTo_cases (start b) (start a)) as [[H ->]|[[H ->]|[H ->]]];
    simpl; [lia| |lia].
  destruct (compareTo_cases (end_ a) (end_ b)) as [[H' ->]|[[H' ->]|[H' ->]]]; lia.
Qed.

Lemma compareRanges_zero a b : compareRanges a b = 0%Z <-> a = b.
Proof.
  unfold compareRanges. cbv zeta.
  destruct (compareTo_cases (start b) (start a)) as [[H ->]|[[H ->]|[H ->]]];
    simpl; try (split; [discriminate | intros ->; lia]).
  destruct (compareTo_cases (end_ a) (end_ b)) as [[H' ->]|[[H' ->]|[H' ->]]];
    try (split; [discriminate | intros ->; lia]).
  split; [|reflexivity]. intros _. destruct a, b; simpl in *; congruence.
Qed.

Lemma ranksBefore_trans a b c : ranksBefore a b -> ranksBefore b c -> ranksBefore a c.
Proof. unfold ranksBefore. lia. Qed.

Lemma ranksBefore_total a b : ranksBefore a b \/ ranksBefore b a.
Proof. unfold ranksBefore. lia. Qed.

Lemma insertSorted_perm a l :
  Permutation (insertSorted compareRanges a l) (a :: l).
Proof.
  induction l as [|b l IH]; simpl; [reflexivity|].
  destruct (compareRanges a b <=? 0)%Z; [reflexivity|].
  rewrite IH. apply perm_swap.
Qed.

Lemma insertSorted_sorted a l :
  StronglySorted ranksBefore l ->
  StronglySorted ranksBefore (insertSorted compareRanges a l).
Proof.
  induction 1 as [|b l Hs IH Hb]; simpl.
  - constructor; constructor.
  - destruct (compareRanges a b <=? 0)%Z eqn:E.
    + apply compareRanges_le in E. constructor.
      * constructor; assumption.
      * constructor; [exact E|].
        eapply Forall_impl; [|exact Hb].
        intros c Hc. eapply ranksBefore_trans; eassumption.
    + assert (Hba : ranksBefore b a).
      { destruct (ranksBefore_total a b) as [H|H]; [|exact H].
        apply compareRanges_le in H. congruence. }
      constructor; [exact IH|].
      eapply Permutation_Forall; [symmetry; apply insertSorted_perm|].
      constructor; assumption.
Qed.

Lemma sort_perm l : Permutation (sort compareRanges l) l.
Proof.
  induction l as [|a l IH]; simpl; [reflexivity|].
  unfold sort in *. simpl. rewrite insertSorted_perm. now constructor.
Qed.

Lemma sort_sorted l : StronglySorted ranksBefore (sort compareRanges l).
Proof.
  induction l as [|a l IH]; simpl; [constructor|].
  apply insertSorted_sorted. exact IH.
Qed.

(** The first element of the sorted candidates ranks before every
    candidate. *)
Lemma sort_head l w :
  hd_error (sort compareRanges l) = Some w ->
  In w l /\ forall c, In c l -> ranksBefore w c.
Proof.
  intros H. pose proof (sort_sorted l) as Hs. pose proof (sort_perm l) as Hp.
  destruct (sort compareRanges l) as [|w' rest]; [discriminate|].
  inversion H; subst w'. inversion Hs as [|? ? _ Hall]; subst.
  split.
  - eapply Permutation_in; [exact Hp | left; reflexivity].
  - intros c Hc. apply (Permutation_in _ (Permutation_sym Hp)) in Hc.
    destruct Hc as [<-|Hc].
    + right. lia.
    + rewrite Forall_forall in Hall. apply Hall, Hc.
Qed.

Lemma sort_two a b :
  sort compareRanges [a; b] = if (compareRanges a b <=? 0)%Z then [a; b] else [b; a].
Proof. reflexivity. Qed.

(** ** The command *)

Lemma findEnclosingBrackets_contains document position r :
  findEnclosingBrackets document position = Some r ->
  contains r position = true.
Proof.
  intros H. pose proof (findEnclosingBrackets_spec document position) as S.
  rewrite H in S. destruct S as (i & j & -> & [_ Hpos] & _).
  apply contains_spec. simpl. lia.
Qed.

Lemma findEnclosingTags_contains document position r :
  findEnclosingTags document position = Some r ->
  contains r position = true.
Proof.
  intros H. pose proof (findEnclosingTags_spec document position) as S.
  rewrite H in S. destruct S as (tag & e & -> & (_ & _ & Hpos) & _).
  apply contains_spec. simpl. lia.
Qed.

Lemma candidatesAt_contain document position r :
  In r (candidatesAt document position) -> contains r position = true.
Proof.
  unfold candidatesAt, pushIf.
  destruct (findEnclosingTags document position) as [t|] eqn:Ht;
    destruct (findEnclosingBrackets document position) as [b|] eqn:Hb;
    simpl; intros H; repeat destruct H as [<-|H]; try contradiction;
    first [ apply (findEnclosingTags_contains _ _ _ Ht)
          | apply (findEnclosingBrackets_contains _ _ _ Hb) ].
Qed.

Lemma filter_all {A} (f : A -> bool) l :
  (forall x, In x l -> f x = true) -> filter f l = l.
Proof.
  induction l as [|a l IH]; intros H; simpl; [reflexivity|].
  rewrite (H a (or_introl eq_refl)), IH; [reflexivity|].
  intros x Hx. apply H. now right.
Qed.

Lemma candidatesAt_filter document position :
  filter (fun r => contains r position) (candidatesAt document position) =
  candidatesAt document position.
Proof. apply filter_all. apply candidatesAt_contain. Qed.

Lemma selectEnclosingAt_eq document selection :
  selectEnclosingAt document selection =
  match hd_error (sort compareRanges (candidatesAt document (active selection))) with
  | Some bestRange => toSelection bestRange
  | None => selection
  end.
Proof.
  unfold selectEnclosingAt. cbv zeta.
  fold (candidatesAt document (active selection)).
  rewrite candidatesAt_filter. reflexivity.
Qed.

(** ** Regular expressions: what a match reads *)

Lemma matchStar_inv cls k :
  forall rest e cap y,
  matchStar cls k rest e cap = Some y ->
  exists n, n <= length rest /\ forallb cls (firstn n rest) = true /\
            k (mkState (skipn n rest) (e + n) cap) = Some y.
Proof.
  induction rest as [|c rest IH]; intros e cap y; simpl.
  - intros H. exists 0. simpl. rewrite Nat.add_0_r. auto.
  - destruct (cls c) eqn:Hc.
    + destruct (matchStar cls k rest (S e) cap) eqn:E.
      * intros H; inversion H; subst.
        destruct (IH _ _ _ E) as (n & Hn & Hall & Hk).
        exists (S n). simpl. rewrite Hc, Hall.
        replace (e + S n) with (S e + n) by lia.
        split; [lia|]. split; [reflexivity | exact Hk].
      * intros H. exists 0. simpl. rewrite Nat.add_0_r.
        split; [lia|]. split; [reflexivity | exact H].
    + intros H. exists 0. simpl. rewrite Nat.add_0_r.
      split; [lia|]. split; [reflexivity | exact H].
Qed.

Lemma matchLit_inv c k x y :
  matchPattern (Lit c) k x = Some y ->
  exists rest', input x = c :: rest' /\
                k (mkState rest' (S (endIndex x)) (capture x)) = Some y.
Proof.
  simpl. destruct (input x) as [|c' rest']; [discriminate|].
  destruct (N.eqb_spec c' c) as [->|]; [|discriminate].
  intros H. exists rest'. auto.
Qed.

Lemma matchLits_inv s :
  forall k x y,
  matchPattern (Lits s) k x = Some y ->
  exists rest', input x = s ++ rest' /\
                k (mkState rest' (endIndex x + length s) (capture x)) = Some y.
Proof.
  induction s as [|c s IH]; intros k x y.
  - simpl. intros H. exists (input x). rewrite Nat.add_0_r.
    destruct x; auto.
  - cbn [Lits]. intros H. cbn [matchPattern] in H.
    apply matchLit_inv in H. destruct H as (rest1 & Hx & H).
    apply IH in H. simpl in H. destruct H as (rest' & H1 & H).
    exists rest'. subst rest1. rewrite Hx. simpl.
    replace (endIndex x + S (length s)) with (S (endIndex x) + length s) by lia.
    auto.
Qed.

Lemma matchSeq_inv p q k x y :
  matchPattern (Seq p q) k x = Some y ->
  matchPattern p (fun z => matchPattern q k z) x = Some y.
Proof. intros H. exact H. Qed.

Lemma matchSeq_inv_eq p q k x r :
  matchPattern p (fun z => matchPattern q k z) x = r ->
  matchPattern (Seq p q) k x = r.
Proof. intros H. exact H. Qed.

Lemma matchGroup_inv p k x y :
  matchPattern (Group p) k x = Some y ->
  matchPattern p
    (fun z => k (mkState (input z) (endIndex z)
                         (Some (firstn (endIndex z - endIndex x) (input x))))) x
  = Some y.
Proof. intros H. exact H. Qed.

Lemma matchAlt_inv p q k x y :
  matchPattern (Alt p q) k x = Some y ->
  matchPattern p k x = Some y \/
  (matchPattern p k x = None /\ matchPattern q k x = Some y).
Proof.
  simpl. destruct (matchPattern p k x) as [y'|]; [left | right]; auto.
Qed.

Lemma forallb_skipn_firstn {A} (f : A -> bool) n l :
  forallb f (firstn n l) = true -> n <= length l ->
  exists run, l = run ++ skipn n l /\ length run = n /\ forallb f run = true.
Proof.
  intros H Hn. exists (firstn n l).
  rewrite firstn_skipn, length_firstn. repeat split; [lia | exact H].
Qed.

Lemma matchStarPattern_inv cls k x y :
  matchPattern (Star cls) k x = Some y ->
  exists run rest',
    input x = run ++ rest' /\ forallb cls run = true /\
    k (mkState rest' (endIndex x + length run) (capture x)) = Some y.
Proof.
  simpl. intros H. apply matchStar_inv in H. destruct H as (n & Hn & Hrun & H).
  destruct (forallb_skipn_firstn _ _ _ Hrun Hn) as (run & H1 & H2 & H3).
  exists run, (skipn n (input x)). rewrite H2. auto.
Qed.

Lemma matchPlus_inv cls k x y :
  matchPattern (Plus cls) k x = Some y ->
  exists run rest',
    input x = run ++ rest' /\ run <> [] /\ forallb cls run = true /\
    k (mkState rest' (endIndex x + length run) (capture x)) = Some y.
Proof.
  simpl. destruct (input x) as [|c rest]; [discriminate|].
  destruct (cls c) eqn:Hc; [|discriminate].
  intros H. apply matchStar_inv in H. destruct H as (n & Hn & Hrun & H).
  destruct (forallb_skipn_firstn _ _ _ Hrun Hn) as (run & H1 & H2 & H3).
  exists (c :: run), (skipn n rest). simpl. rewrite Hc, H3, H2.
  replace (endIndex x + S n) with (S (endIndex x) + n) by lia.
  repeat split; auto; [congruence | discriminate].
Qed.

Lemma openingTagRegex_inv rest i y :
  matchPattern openingTagRegex Some (mkState rest i None) = Some y ->
  exists name attrs,
    readsOpeningTag rest name attrs /\
    capture y = Some name /\
    endIndex y = i + (length name + length attrs + 2).
Proof.
  unfold openingTagRegex. intros H.
  apply matchSeq_inv, matchLit_inv in H. destruct H as (rest1 & H1 & H).
  apply matchSeq_inv, matchGroup_inv, matchPlus_inv in H.
  destruct H as (name & rest2 & H2 & Hne & Hname & H).
  apply matchSeq_inv, matchStarPattern_inv in H.
  destruct H as (attrs & rest3 & H3 & Hattrs & H).
  apply matchLit_inv in H. destruct H as (rest' & H4 & H).
  cbn [input endIndex capture] in *. inversion H; subst y. cbn [capture endIndex].
  exists name, attrs. split; [|split].
  - split; [exact Hne|]. split; [exact Hname|]. split; [exact Hattrs|].
    exists rest'. subst. reflexivity.
  - f_equal. subst rest1.
    replace (i + length name - i) with (length name) by lia.
    rewrite firstn_app, firstn_all, Nat.sub_diag. simpl. apply app_nil_r.
  - lia.
Qed.

Lemma closingTagRegex_inv name rest i y :
  matchPattern (closingTagRegex name) Some (mkState rest i None) = Some y ->
  (readsClosingTag rest name /\ endIndex y = i + (length name + 3)) \/
  (exists attrs, readsReopening rest name attrs /\
                 endIndex y = i + (length name + length attrs + 2)).
Proof.
  unfold closingTagRegex. intros H.
  apply matchAlt_inv in H. destruct H as [H|[_ H]].
  - left.
    apply matchSeq_inv, matchLits_inv in H. destruct H as (rest1 & H1 & H).
    apply matchSeq_inv, matchLits_inv in H. destruct H as (rest2 & H2 & H).
    apply matchLit_inv in H. destruct H as (rest' & H3 & H).
    cbn [input endIndex capture] in *. inversion H; subst y. cbn [endIndex].
    split; [|simpl; lia].
    exists rest'. subst. reflexivity.
  - right.
    apply matchSeq_inv, matchLit_inv in H. destruct H as (rest1 & H1 & H).
    apply matchSeq_inv, matchLits_inv in H. destruct H as (rest2 & H2 & H).
    apply matchSeq_inv, matchStarPattern_inv in H.
    destruct H as (attrs & rest3 & H3 & Hattrs & H).
    apply matchLit_inv in H. destruct H as (rest' & H4 & H).
    cbn [input endIndex capture] in *. inversion H; subst y. cbn [endIndex].
    exists attrs. split; [|lia]. split; [exact Hattrs|].
    exists rest'. subst. reflexivity.
Qed.

(** The search finds its match where the pattern matches: [k] characters
    into [rest]. *)
Lemma searchFrom_inv source :
  forall rest i m e,
  searchFrom source rest i = Some (m, e) ->
  exists k y,
    index m = i + k /\ k <= length rest /\
    matchPattern source Some (mkState (skipn k rest) (i + k) None) = Some y /\
    e = endIndex y /\
    matched m = firstn (e - index m) (skipn k rest) /\
    group1 m = capture y.
Proof.
  assert (Here : forall rest i y m e,
    matchPattern source Some (mkState rest i None) = Some y ->
    Some (mkMatch i (firstn (endIndex y - i) rest) (capture y), endIndex y)
    = Some (m, e) ->
    exists k y,
      index m = i + k /\ k <= length rest /\
      matchPattern source Some (mkState (skipn k rest) (i + k) None) = Some y /\
      e = endIndex y /\
      matched m = firstn (e - index m) (skipn k rest) /\
      group1 m = capture y).
  { intros rest i y m e E H. inversion H; subst. exists 0, y.
    rewrite Nat.add_0_r. simpl.
    split; [reflexivity|]. split; [lia|]. split; [exact E|]. auto. }
  induction rest as [|c rest IH]; intros i m e; simpl.
  - destruct (matchPattern source Some (mkState [] i None)) as [y|] eqn:E;
      [|discriminate].
    apply (Here _ _ _ _ _ E).
  - destruct (matchPattern source Some (mkState (c :: rest) i None)) as [y|] eqn:E.
    + apply (Here _ _ _ _ _ E).
    + intros H. apply IH in H. destruct H as (k & y & H1 & H2 & H3 & H4 & H5 & H6).
      exists (S k), y. simpl. replace (i + S k) with (S i + k) by lia.
      split; [exact H1|]. split; [lia|]. auto.
Qed.

Lemma exec_inv source text lastIndex m lastIndex' :
  exec source text lastIndex = (Some m, lastIndex') ->
  exists y,
    matchPattern source Some (mkState (skipn (index m) text) (index m) None) = Some y /\
    lastIndex' = endIndex y /\
    matched m = slice text (index m) lastIndex' /\
    group1 m = capture y.
Proof.
  unfold exec.
  destruct (Nat.ltb_spec (length text) lastIndex) as [Hlt|Hle]; [discriminate|].
  destruct (searchFrom source (skipn lastIndex text) lastIndex) as [[m' e]|] eqn:E;
    [|discriminate].
  intros H; inversion H; subst.
  apply searchFrom_inv in E.
  destruct E as (k & y & H1 & H2 & H3 & H4 & H5 & H6).
  rewrite skipn_skipn in H3, H5. rewrite (Nat.add_comm k) in H3, H5.
  rewrite <- H1 in H3, H5.
  exists y. split; [exact H3|]. split; [exact H4|]. split; [|exact H6].
  subst lastIndex'. exact H5.
Qed.

Lemma slice_prefix text i s rest' e :
  skipn i text = s ++ rest' -> e = i + length s -> slice text i e = s.
Proof.
  intros H ->. unfold slice. rewrite H.
  replace (i + length s - i) with (length s) by lia.
  rewrite firstn_app, firstn_all, Nat.sub_diag. simpl. apply app_nil_r.
Qed.

Lemma word_not_slash c : word c = true -> c <> chr "/".
Proof. intros H ->. vm_compute in H. discriminate. Qed.

(** A match of [closingTagRegex] is the closing tag [</name>], or it starts
    with [<name] and runs to the next [>]. *)
Lemma closingTagRegex_match text name lastIndex m lastIndex' :
  name <> [] -> forallb word name = true ->
  exec (closingTagRegex name) text lastIndex = (Some m, lastIndex') ->
  occursAt text (index m) (matched m) /\
  lastIndex' = index m + length (matched m) /\
  ((isClosing m = true /\ matched m = js "</" ++ name ++ [chr ">"]) \/
   (isClosing m = false /\
    exists attrs, forallb notGt attrs = true /\
                  matched m = chr "<" :: name ++ attrs ++ [chr ">"])).
Proof.
  intros Hne Hword E. apply exec_inv in E.
  destruct E as (y & Hy & He & Hm & _).
  apply closingTagRegex_inv in Hy.
  destruct Hy as [[[rest' Hr] Hend]|(attrs & [Hattrs [rest' Hr]] & Hend)].
  - assert (Hs : matched m = js "</" ++ name ++ [chr ">"]).
    { rewrite Hm. apply (slice_prefix _ _ _ rest').
      - rewrite Hr, <- !app_assoc. reflexivity.
      - rewrite He, Hend, !length_app. simpl. lia. }
    split; [|split].
    + unfold occursAt. rewrite Hm at 2. f_equal. rewrite Hs, !length_app. simpl. lia.
    + rewrite Hs, !length_app. simpl. lia.
    + left. split; [|exact Hs]. unfold isClosing. rewrite Hs.
      vm_compute. reflexivity.
  - assert (Hs : matched m = chr "<" :: name ++ attrs ++ [chr ">"]).
    { rewrite Hm. apply (slice_prefix _ _ _ rest').
      - rewrite Hr. simpl. rewrite <- !app_assoc. reflexivity.
      - rewrite He, Hend. simpl. rewrite !length_app. simpl. lia. }
    split; [|split].
    + unfold occursAt. rewrite Hm at 2. f_equal. rewrite Hs. simpl.
      rewrite !length_app. simpl. lia.
    + rewrite Hs. simpl. rewrite !length_app. simpl. lia.
    + right. split; [|exists attrs; auto].
      unfold isClosing. rewrite Hs.
      destruct name as [|c name]; [contradiction|].
      simpl in Hword. apply andb_true_iff in Hword. destruct Hword as [Hc _].
      apply word_not_slash in Hc. cbn [startsWith js map list_ascii_of_string app].
      destruct (N.eqb_spec c (code "/")) as [Heq|_]; [contradiction|].
      apply andb_false_r.
Qed.

(** A match of [openingTagRegex] is [<], a name of word characters, any
    characters but [>], and [>]; the name is what the group captures. *)
Lemma openingTagRegex_match text lastIndex m lastIndex' :
  exec openingTagRegex text lastIndex = (Some m, lastIndex') ->
  exists name attrs,
    group1 m = Some name /\ name <> [] /\
    forallb word name = true /\ forallb notGt attrs = true /\
    occursAt text (index m) (chr "<" :: name ++ attrs ++ [chr ">"]) /\
    lastIndex' = index m + (length name + length attrs + 2).
Proof.
  intros E. apply exec_inv in E. destruct E as (y & Hy & He & Hm & Hg).
  apply openingTagRegex_inv in Hy.
  destruct Hy as (name & attrs & (Hne & Hword & Hattrs & rest' & Hr) & Hcap & Hend).
  exists name, attrs. repeat split; try assumption; try congruence.
  unfold occursAt. apply (slice_prefix _ _ _ rest').
  - rewrite Hr. simpl. rewrite <- !app_assoc. reflexivity.
  - reflexivity.
Qed.

Lemma collectTags_opening text offset :
  forall lastIndex tags,
  Forall (isOpeningTag text) tags ->
  Forall (isOpeningTag text) (collectTags text offset lastIndex tags).
Proof.
  intros lastIndex.
  induction lastIndex as [lastIndex IH]
    using (exec_ind openingTagRegex text openingTagRegex_progress).
  intros tags Hall.
  rewrite collectTags_eq.
  destruct (exec openingTagRegex text lastIndex) as [[m|] lastIndex'] eqn:E;
    [|exact Hall].
  destruct (offset <? index m); [exact Hall|].
  apply (IH _ _ eq_refl).
  apply openingTagRegex_match in E.
  destruct E as (name & attrs & Hg & Hne & Hword & Hattrs & Hocc & Hend).
  unfold pushTag. rewrite Hg. destruct name as [|c s]; [contradiction|].
  apply Forall_app. split; [exact Hall|]. constructor; [|constructor].
  split; [discriminate|]. split; [exact Hword|].
  exists attrs. auto.
Qed.

Lemma recordedTags_opening document position tag :
  In tag (recordedTags document position) ->
  isOpeningTag (getText document) tag.
Proof.
  intros H.
  pose proof (collectTags_opening (getText document)
                (offsetAt document position) 0 [] (Forall_nil _)) as Hall.
  rewrite Forall_forall in Hall. apply Hall, H.
Qed.

Lemma closingMatches_In text name :
  forall lastIndex m,
  In m (closingMatches text name lastIndex) ->
  exists l l', lastIndex <= l /\
               exec (closingTagRegex name) text l = (Some m, l').
Proof.
  intros lastIndex.
  induction lastIndex as [lastIndex IH]
    using (exec_ind (closingTagRegex name) text (minLength_closingTagRegex _)).
  intros m. rewrite closingMatches_eq.
  destruct (exec (closingTagRegex name) text lastIndex) as [[m'|] lastIndex'] eqn:E;
    [|intros []].
  intros [<-|Hin].
  - exists lastIndex, lastIndex'. auto.
  - destruct (IH _ _ eq_refl m Hin) as (l & l' & Hl & El).
    exists l, l'. split; [|exact El].
    pose proof (exec_bounds _ _ _ _ _ E). lia.
Qed.

(** The closing tag of a recorded tag: [</name>] is read at [e], at or after
    the end of the opening tag. *)
Lemma tagClosesAt_closing text tag e :
  isOpeningTag text tag -> tagClosesAt text tag e ->
  tag_end tag <= e < length text /\
  occursAt text e (js "</" ++ tag_name tag ++ [chr ">"]).
Proof.
  intros (Hne & Hword & _) [k [(m & Hm & Hc & He) _]].
  apply nth_error_In, closingMatches_In in Hm.
  destruct Hm as (l & l' & Hl & E).
  pose proof (exec_bounds _ _ _ _ _ E) as (Hb1 & Hb2 & Hb3).
  pose proof (minLength_closingTagRegex (tag_name tag)).
  split; [lia|].
  destruct (closingTagRegex_match _ _ _ _ _ Hne Hword E) as (Hocc & _ & [[_ Hs]|[Hc' _]]).
  - rewrite <- He, <- Hs. exact Hocc.
  - congruence.
Qed.

(** ** The recorded tags are the opening tags that start at or before the offset *)

Lemma pushTag_acc m lastIndex tags :
  pushTag m lastIndex tags = tags ++ pushTag m lastIndex [].
Proof.
  unfold pushTag. destruct (group1 m) as [[|c s]|]; simpl;
    try (now rewrite app_nil_r); reflexivity.
Qed.

Lemma pushTag_index m lastIndex t :
  In t (pushTag m lastIndex []) -> tag_index t = index m.
Proof.
  unfold pushTag. destruct (group1 m) as [[|c s]|]; simpl;
    intros H; try contradiction.
  destruct H as [<-|[]]. reflexivity.
Qed.

Lemma collectTags_acc text offset :
  forall lastIndex tags,
  collectTags text offset lastIndex tags =
  tags ++ collectTags text offset lastIndex [].
Proof.
  intros lastIndex.
  induction lastIndex as [lastIndex IH]
    using (exec_ind openingTagRegex text openingTagRegex_progress).
  intros tags.
  rewrite (collectTags_eq text offset lastIndex tags),
          (collectTags_eq text offset lastIndex []).
  destruct (exec openingTagRegex text lastIndex) as [[m|] lastIndex'] eqn:E;
    [|now rewrite app_nil_r].
  destruct (offset <? index m); [now rewrite app_nil_r|].
  rewrite (IH _ _ eq_refl (pushTag m lastIndex' tags)),
          (IH _ _ eq_refl (pushTag m lastIndex' [])).
  rewrite (pushTag_acc m lastIndex' tags), app_assoc. reflexivity.
Qed.

Lemma collectTags_lower text offset :
  forall lastIndex t,
  In t (collectTags text offset lastIndex []) -> lastIndex <= tag_index t.
Proof.
  intros lastIndex.
  induction lastIndex as [lastIndex IH]
    using (exec_ind openingTagRegex text openingTagRegex_progress).
  intros t. rewrite collectTags_eq.
  destruct (exec openingTagRegex text lastIndex) as [[m|] lastIndex'] eqn:E;
    [|intros []].
  destruct (offset <? index m); [intros []|].
  pose proof (exec_bounds _ _ _ _ _ E) as (Hb1 & Hb2 & Hb3).
  rewrite collectTags_acc. intros H. apply in_app_or in H. destruct H as [H|H].
  - apply pushTag_index in H. lia.
  - apply (IH _ _ eq_refl) in H. lia.
Qed.

Lemma filter_none {A} (f : A -> bool) l :
  (forall x, In x l -> f x = false) -> filter f l = [].
Proof.
  induction l as [|a l IH]; intros H; simpl; [reflexivity|].
  rewrite (H a (or_introl eq_refl)). apply IH.
  intros x Hx. apply H. now right.
Qed.

Lemma collectTags_filter text offset :
  forall lastIndex,
  collectTags text offset lastIndex [] =
  filter (fun t => tag_index t <=? offset)
         (collectTags text (length text) lastIndex []).
Proof.
  intros lastIndex.
  induction lastIndex as [lastIndex IH]
    using (exec_ind openingTagRegex text openingTagRegex_progress).
  rewrite (collectTags_eq text offset), (collectTags_eq text (length text)).
  destruct (exec openingTagRegex text lastIndex) as [[m|] lastIndex'] eqn:E;
    [|reflexivity].
  pose proof (exec_bounds _ _ _ _ _ E) as (Hb1 & Hb2 & Hb3). simpl in Hb2.
  destruct (Nat.ltb_spec (length text) (index m)) as [Hout|_]; [lia|].
  rewrite (collectTags_acc text (length text)), filter_app.
  destruct (Nat.ltb_spec offset (index m)) as [Hbreak|Hgo].
  - rewrite !filter_none; [reflexivity| |].
    + intros t Ht. apply collectTags_lower in Ht. apply Nat.leb_gt. lia.
    + intros t Ht. apply pushTag_index in Ht. apply Nat.leb_gt. lia.
  - rewrite collectTags_acc, (IH _ _ eq_refl). f_equal.
    symmetry. apply filter_all.
    intros t Ht. apply pushTag_index in Ht. apply Nat.leb_le. lia.
Qed.

Lemma recordedTags_iff document position tag :
  In tag (recordedTags document position) <->
  In tag (openingTags (getText document)) /\
  tag_index tag <= offsetAt document position.
Proof.
  unfold recordedTags, openingTags. rewrite collectTags_filter, filter_In.
  rewrite Nat.leb_le. tauto.
Qed.

(** ** What a returned span is *)

Lemma openingTags_inv text :
  tagsUpTo (length text) (length text) (openingTags text).
Proof.
  apply collectTags_inv; [|lia].
  split; [intros i j a b _ Ha; destruct i; discriminate | intros t []].
Qed.

Lemma openingTags_opening text tag :
  In tag (openingTags text) -> isOpeningTag text tag.
Proof.
  intros H.
  pose proof (collectTags_opening text (length text) 0 [] (Forall_nil _)) as Hall.
  rewrite Forall_forall in Hall. apply Hall, H.
Qed.

Lemma increasingEnds_inj tags a b :
  increasingEnds tags -> In a tags -> In b tags ->
  tag_end a = tag_end b -> a = b.
Proof.
  intros Hinc Ha Hb Heq.
  apply In_nth_error in Ha, Hb. destruct Ha as [i Hi], Hb as [j Hj].
  destruct (Nat.lt_trichotomy i j) as [Hlt|[->|Hgt]].
  - specialize (Hinc i j a b Hlt Hi Hj). lia.
  - congruence.
  - specialize (Hinc j i b a Hgt Hj Hi). lia.
Qed.

Lemma openingTags_end_inj text a b :
  In a (openingTags text) -> In b (openingTags text) ->
  tag_end a = tag_end b -> a = b.
Proof. apply increasingEnds_inj, openingTags_inv. Qed.

(** An opening tag whose interior holds the position is one of the recorded
    tags. *)
Lemma enclosingTag_iff document position tag e :
  enclosingTag document position tag e <->
  In tag (openingTags (getText document)) /\
  countEncloses (getText document) position tag e.
Proof.
  unfold enclosingTag, countEncloses. rewrite recordedTags_iff.
  split; [tauto|].
  intros (Hin & Hcl & Hpos). repeat split; try assumption; try lia.
  pose proof (openingTags_opening _ _ Hin) as Hop.
  destruct (tagClosesAt_closing _ _ _ Hop Hcl) as [He _].
  destruct Hop as (_ & _ & attrs & _ & _ & Hend).
  unfold offsetAt. lia.
Qed.

Lemma findEnclosingBrackets_Some document position r :
  findEnclosingBrackets document position = Some r ->
  start r <= position <= end_ r /\ end_ r < length (getText document) /\
  balancedBracketSpan (getText document) r.
Proof.
  intros H. pose proof (findEnclosingBrackets_spec document position) as S.
  rewrite H in S. destruct S as (i & j & -> & [[p Hcl] Hpos] & _).
  pose proof (closesAt_inside _ _ _ _ Hcl). simpl.
  split; [lia|]. split; [lia|]. exists p, i. auto.
Qed.

Lemma findEnclosingTags_Some document position r :
  findEnclosingTags document position = Some r ->
  start r <= position <= end_ r /\ end_ r < length (getText document) /\
  countedTagSpan (getText document) r.
Proof.
  intros H. pose proof (findEnclosingTags_spec document position) as S.
  rewrite H in S. destruct S as (tag & e & -> & Henc & _).
  apply enclosingTag_iff in Henc. destruct Henc as (Hin & Hcl & Hpos).
  destruct (tagClosesAt_closing _ _ _ (openingTags_opening _ _ Hin) Hcl) as [He Hocc].
  simpl. split; [lia|]. split; [lia|]. exists tag. auto.
Qed.

Lemma candidatesAt_In document position r :
  In r (candidatesAt document position) <->
  findEnclosingTags document position = Some r \/
  findEnclosingBrackets document position = Some r.
Proof.
  unfold candidatesAt, pushIf.
  destruct (findEnclosingTags document position) as [t|];
    destruct (findEnclosingBrackets document position) as [b|]; simpl;
    split; intros H;
    repeat match goal with
           | H : _ \/ _ |- _ => destruct H as [H|H]
           | H : Some _ = Some _ |- _ => inversion H; subst; clear H
           | H : None = Some _ |- _ => discriminate H
           | H : False |- _ => contradiction
           end; subst; auto.
Qed.

Lemma selectedRange_In document position r :
  selectedRange document position = Some r ->
  In r (candidatesAt document position).
Proof.
  unfold selectedRange. rewrite candidatesAt_filter.
  intros H. apply sort_head in H. tauto.
Qed.

Lemma selectedRange_contains document position r :
  selectedRange document position = Some r -> contains r position = true.
Proof.
  intros H. apply (candidatesAt_contain document), selectedRange_In, H.
Qed.

Lemma selectEnclosingAt_selected document selection :
  selectEnclosingAt document selection =
  match selectedRange document (active selection) with
  | Some bestRange => toSelection bestRange
  | None => selection
  end.
Proof. reflexivity. Qed.

(** ** Single steps of the two loops *)

Lemma keepInner_outside range position bestRange :
  contains range position = false ->
  keepInner range position bestRange = bestRange.
Proof. intros H. unfold keepInner. now rewrite H. Qed.

Lemma bracketStep_unclosed document position i bracketPair bestRange :
  In bracketPair brackets ->
  nth_error (getText document) i = Some (fst bracketPair) ->
  neverCloses (getText document) bracketPair i ->
  bracketStep document position i bestRange = bestRange.
Proof.
  intros Hin Hi Hnever.
  destruct (bracketStep_cases document position i bestRange)
    as [(p & j & Hcl & _)|(_ & H)]; [|exact H].
  exfalso. pose proof (closesAt_inside _ _ _ _ Hcl) as Hj.
  destruct Hcl as (Hp & Hi' & _ & _ & Hz & _).
  assert (p = bracketPair) by (apply brackets_open_inj; congruence). subst p.
  specialize (Hnever j ltac:(lia)). lia.
Qed.

Lemma bracketStep_closes document position bracketPair i j bestRange :
  closesAt (getText document) bracketPair i j ->
  bracketStep document position i bestRange =
  keepInner (mkRange (i + 1) j) position bestRange.
Proof.
  intros Hcl.
  destruct (bracketStep_cases document position i bestRange)
    as [(p & j' & Hcl' & H)|(Hno & _)].
  - destruct (closesAt_unique _ _ _ _ _ _ Hcl Hcl') as [_ ->]. exact H.
  - exfalso. exact (Hno _ _ Hcl).
Qed.

Lemma tagStep_unclosed document position tag bestRange :
  tagNeverCloses (getText document) tag ->
  tagStep document position (Some tag) bestRange = bestRange.
Proof.
  intros Hnever.
  destruct (tagStep_cases document position tag bestRange)
    as [(e & [k Hk] & _)|(_ & H)]; [|exact H].
  exfalso. exact (firstZeroAt_not_neverZero _ _ _ _ Hk Hnever).
Qed.

Lemma tagStep_closes document position tag e bestRange :
  tagClosesAt (getText document) tag e ->
  tagStep document position (Some tag) bestRange =
  keepInner (mkRange (tag_end tag) e) position bestRange.
Proof.
  intros Hcl.
  destruct (tagStep_cases document position tag bestRange)
    as [(e' & Hcl' & _ & H)|(Hno & _)].
  - rewrite (tagClosesAt_unique _ _ _ _ Hcl Hcl'). exact H.
  - exfalso. destruct Hcl as [k Hk].
    exact (firstZeroAt_not_neverZero _ _ _ _ Hk Hno).
Qed.

Lemma matchers_past_the_end document position :
  length (getText document) <= position ->
  findEnclosingBrackets document position = None /\
  findEnclosingTags document position = None.
Proof.
  intros H. split.
  - destruct (findEnclosingBrackets document position) as [r|] eqn:E;
      [|reflexivity].
    apply findEnclosingBrackets_Some in E. lia.
  - destruct (findEnclosingTags document position) as [r|] eqn:E;
      [|reflexivity].
    apply findEnclosingTags_Some in E. lia.
Qed.

(** ** The forward search counts every tag whose text starts with [<name] *)

Lemma matchLit_here c k x rest' :
  input x = c :: rest' ->
  matchPattern (Lit c) k x = k (mkState rest' (S (endIndex x)) (capture x)).
Proof. intros H. simpl. rewrite H, N.eqb_refl. reflexivity. Qed.

Lemma matchLits_here s :
  forall k x rest',
  input x = s ++ rest' ->
  matchPattern (Lits s) k x =
  k (mkState rest' (endIndex x + length s) (capture x)).
Proof.
  induction s as [|c s IH]; intros k x rest' H.
  - simpl in *. rewrite Nat.add_0_r, <- H. destruct x; reflexivity.
  - cbn [Lits]. apply matchSeq_inv_eq.
    rewrite (matchLit_here c _ x (s ++ rest') H). cbv beta.
    rewrite (IH k (mkState (s ++ rest') (S (endIndex x)) (capture x)) rest' eq_refl).
    cbn [endIndex capture length].
    f_equal. f_equal. lia.
Qed.

(** The greedy star takes the whole run when what follows the run matches. *)
Lemma matchStar_greedy cls k cap y :
  forall run c rest' e,
  forallb cls run = true -> cls c = false ->
  k (mkState (c :: rest') (e + length run) cap) = Some y ->
  matchStar cls k (run ++ c :: rest') e cap = Some y.
Proof.
  induction run as [|a run IH]; intros c rest' e Hrun Hc Hk.
  - simpl in *. rewrite Hc. rewrite Nat.add_0_r in Hk. exact Hk.
  - simpl in Hrun. apply andb_true_iff in Hrun. destruct Hrun as [Ha Hrun].
    simpl. rewrite Ha.
    rewrite (IH c rest' (S e) Hrun Hc); [reflexivity|].
    simpl in Hk. replace (S e + length run) with (e + S (length run)) by lia.
    exact Hk.
Qed.

Lemma matchAlt_eq p q k x :
  matchPattern (Alt p q) k x =
  match matchPattern p k x with
  | Some y => Some y
  | None => matchPattern q k x
  end.
Proof. reflexivity. Qed.

Lemma matchSeq_eq p q k x :
  matchPattern (Seq p q) k x = matchPattern p (fun z => matchPattern q k z) x.
Proof. reflexivity. Qed.

(** [</] is not read where the second character is not [/]. *)
Lemma matchLits_slash_fails k x a b rest :
  input x = a :: b :: rest -> b <> chr "/" ->
  matchPattern (Lits (js "</")) k x = None.
Proof.
  intros H Hb.
  assert (Hb' : N.eqb b 47 = false) by (apply N.eqb_neq; exact Hb).
  cbn. rewrite H. destruct (N.eqb a 60); [|reflexivity].
  cbn. rewrite Hb'. reflexivity.
Qed.

(** At a tag [<name...>], whatever follows the name up to the [>], the
    pattern matches: the whole tag, by the second alternative. *)
Lemma closingTagRegex_reopening name more rest' i :
  name <> [] -> forallb word name = true -> forallb notGt more = true ->
  matchPattern (closingTagRegex name) Some
    (mkState (chr "<" :: name ++ more ++ chr ">" :: rest') i None)
  = Some (mkState rest' (i + (length name + length more + 2)) None).
Proof.
  intros Hne Hword Hmore. unfold closingTagRegex.
  destruct name as [|c name]; [contradiction|].
  simpl in Hword. apply andb_true_iff in Hword. destruct Hword as [Hc _].
  apply word_not_slash in Hc.
  rewrite matchAlt_eq, matchSeq_eq.
  erewrite matchLits_slash_fails; [|reflexivity | exact Hc].
  rewrite matchSeq_eq.
  erewrite matchLit_here; [|reflexivity].
  rewrite matchSeq_eq.
  erewrite (matchLits_here (c :: name)); [|reflexivity].
  rewrite matchSeq_eq. cbn [matchPattern input endIndex capture].
  apply matchStar_greedy; [exact Hmore | reflexivity|].
  cbn [input]. rewrite N.eqb_refl. cbn [endIndex capture length].
  f_equal. f_equal. lia.
Qed.

(** So, with [lastIndex] at such a tag, the inner loop goes on one level
    deeper after it. *)
Lemma closingLoop_reopening document position tag lastIndex depth bestRange
      more rest' :
  tag_name tag <> [] -> forallb word (tag_name tag) = true ->
  forallb notGt more = true ->
  lastIndex <= length (getText document) ->
  skipn lastIndex (getText document)
  = chr "<" :: tag_name tag ++ more ++ chr ">" :: rest' ->
  closingLoop document position tag lastIndex depth bestRange =
  closingLoop document position tag
              (lastIndex + (length (tag_name tag) + length more + 2))
              (depth + 1) bestRange.
Proof.
  intros Hne Hword Hmore Hlen Hskip.
  rewrite closingLoop_eq. unfold exec.
  destruct (Nat.ltb_spec (length (getText document)) lastIndex) as [Hlt|_]; [lia|].
  rewrite Hskip. destruct (tag_name tag) as [|c name] eqn:Hname; [contradiction|].
  cbn [searchFrom app].
  change (chr "<" :: c :: name ++ more ++ chr ">" :: rest')
    with (chr "<" :: (c :: name) ++ more ++ chr ">" :: rest').
  rewrite (closingTagRegex_reopening (c :: name) more rest' lastIndex Hne Hword Hmore).
  cbn [endIndex capture matched index].
  replace (lastIndex + (length (c :: name) + length more + 2) - lastIndex)
    with (S (length (c :: name) + length more + 1)) by lia.
  cbn [firstn startsWith js map list_ascii_of_string].
  rewrite N.eqb_refl.
  simpl in Hword. apply andb_true_iff in Hword. destruct Hword as [Hc _].
  apply word_not_slash in Hc.
  cbn [length Nat.add firstn app].
  destruct (N.eqb_spec c (code "/")) as [Heq|_]; [contradiction|].
  reflexivity.
Qed.

(** ** Regular expressions: the two patterns, character by character *)

Lemma startsWith_app s p q :
  startsWith s (p ++ q) = startsWith s p && startsWith (skipn (length p) s) q.
Proof.
  revert s. induction p as [|c p IH]; intros s; [reflexivity|].
  destruct s as [|d s]; [reflexivity|].
  simpl. rewrite IH. apply andb_assoc.
Qed.

Lemma startsWith_spec s p :
  startsWith s p = true <-> exists rest', s = p ++ rest'.
Proof.
  revert s. induction p as [|c p IH]; intros s.
  - split; [exists s; reflexivity | reflexivity].
  - destruct s as [|d s]; simpl.
    + split; [discriminate | intros [rest' H]; discriminate].
    + rewrite andb_true_iff, N.eqb_eq, IH. split.
      * intros [-> [rest' ->]]. exists rest'. reflexivity.
      * intros [rest' H]. inversion H; subst. split; [reflexivity|].
        exists rest'. reflexivity.
Qed.

Lemma sameText_spec a b : sameText a b = true <-> a = b.
Proof.
  unfold sameText. rewrite andb_true_iff, Nat.eqb_eq, startsWith_spec. split.
  - intros [Hlen [rest' H]]. subst a. rewrite length_app in Hlen.
    destruct rest'; [apply app_nil_r | simpl in Hlen; lia].
  - intros ->. split; [reflexivity|]. exists []. now rewrite app_nil_r.
Qed.

Lemma matchLits_eq s :
  forall k x,
  matchPattern (Lits s) k x =
  if startsWith (input x) s
  then k (mkState (skipn (length s) (input x)) (endIndex x + length s) (capture x))
  else None.
Proof.
  induction s as [|c s IH]; intros k x.
  - simpl. rewrite Nat.add_0_r. destruct x; reflexivity.
  - cbn [Lits]. rewrite matchSeq_eq. cbn [matchPattern].
    destruct (input x) as [|d rest'] eqn:Hx; [reflexivity|].
    cbn [startsWith]. destruct (N.eqb d c); [|reflexivity].
    rewrite IH. cbn [input endIndex capture andb length skipn].
    replace (S (endIndex x) + length s) with (endIndex x + S (length s)) by lia.
    reflexivity.
Qed.

(** The greedy star takes the longest run first. *)
Lemma matchStar_max cls k :
  forall rest e cap y,
  k (mkState (skipn (runLength cls rest) rest) (e + runLength cls rest) cap) = Some y ->
  matchStar cls k rest e cap = Some y.
Proof.
  induction rest as [|c rest IH]; intros e cap y; simpl.
  - rewrite Nat.add_0_r. auto.
  - destruct (cls c).
    + simpl. replace (e + S (runLength cls rest)) with (S e + runLength cls rest) by lia.
      intros H. now rewrite (IH _ _ _ H).
    + simpl. rewrite Nat.add_0_r. auto.
Qed.

(** It fails when what follows fails behind every part of the run. *)
Lemma matchStar_none cls k :
  forall rest e cap,
  (forall j, j <= runLength cls rest ->
             k (mkState (skipn j rest) (e + j) cap) = None) ->
  matchStar cls k rest e cap = None.
Proof.
  induction rest as [|c rest IH]; intros e cap H; simpl.
  - specialize (H 0 ltac:(lia)). simpl in H. now rewrite Nat.add_0_r in H.
  - pose proof (H 0 ltac:(lia)) as H0. simpl in H0. rewrite Nat.add_0_r in H0.
    destruct (cls c) eqn:Hc; [|exact H0].
    rewrite IH; [exact H0|].
    intros j Hj. specialize (H (S j)). simpl in H. rewrite Hc in H.
    replace (S e + j) with (e + S j) by lia. apply H. lia.
Qed.

Lemma runLength_le cls rest : runLength cls rest <= length rest.
Proof.
  induction rest as [|c rest IH]; simpl; [lia|]. destruct (cls c); simpl; lia.
Qed.

(** The character behind a run is not of the class. *)
Lemma runLength_stop cls rest c :
  nth_error rest (runLength cls rest) = Some c -> cls c = false.
Proof.
  induction rest as [|d rest IH]; simpl; [discriminate|].
  destruct (cls d) eqn:Hd; simpl; [exact IH|].
  intros H; inversion H; subst. exact Hd.
Qed.

Lemma runLength_inside cls rest j :
  j < runLength cls rest ->
  exists c, skipn j rest = c :: skipn (S j) rest /\ cls c = true.
Proof.
  revert j. induction rest as [|d rest IH]; intros j; simpl; [lia|].
  destruct (cls d) eqn:Hd; [|lia].
  destruct j as [|j]; intros Hj.
  - exists d. auto.
  - apply IH. lia.
Qed.

Lemma runLength_all cls rest :
  forallb cls (firstn (runLength cls rest) rest) = true.
Proof.
  induction rest as [|d rest IH]; simpl; [reflexivity|].
  destruct (cls d) eqn:Hd; simpl; [|reflexivity]. now rewrite Hd.
Qed.

(** Behind a part of a run of [cls], a run of a wider class goes on to the
    end of the run of [cls] and then as far as it goes from there. *)
Lemma runLength_skipn cls cls' rest j :
  (forall c, cls c = true -> cls' c = true) ->
  j <= runLength cls rest ->
  runLength cls' (skipn j rest)
  = runLength cls rest - j + runLength cls' (skipn (runLength cls rest) rest).
Proof.
  intros Hsub. revert j. induction rest as [|d rest IH]; intros j; simpl.
  - intros Hj. assert (j = 0) by lia. subst j. reflexivity.
  - destruct (cls d) eqn:Hd.
    + destruct j as [|j]; intros Hj.
      * simpl. rewrite (Hsub d Hd). specialize (IH 0 ltac:(lia)). simpl in IH.
        rewrite IH. lia.
      * simpl. apply IH. lia.
    + intros Hj. assert (j = 0) by lia. subst j. reflexivity.
Qed.

Lemma word_notGt c : word c = true -> notGt c = true.
Proof.
  intros H. unfold notGt. destruct (N.eqb_spec c (chr ">")) as [->|]; [|reflexivity].
  vm_compute in H. discriminate.
Qed.

(** [[^>]*>] reads up to the first [>], and fails when there is none. *)
Lemma matchAttrs_eq rest e cap :
  matchStar notGt (fun z => matchPattern (Lit (chr ">")) Some z) rest e cap =
  match nth_error rest (runLength notGt rest) with
  | Some _ => Some (mkState (skipn (S (runLength notGt rest)) rest)
                            (e + runLength notGt rest + 1) cap)
  | None => None
  end.
Proof.
  destruct (nth_error rest (runLength notGt rest)) as [g|] eqn:Hg.
  - apply matchStar_max.
    pose proof (runLength_stop _ _ _ Hg) as Hc.
    unfold notGt in Hc. apply negb_false_iff, N.eqb_eq in Hc. subst g.
    assert (Hs : skipn (runLength notGt rest) rest
                 = chr ">" :: skipn (S (runLength notGt rest)) rest).
    { clear -Hg. revert Hg. generalize (runLength notGt rest) as n.
      induction rest as [|d rest IH]; intros [|n]; simpl; try discriminate.
      - intros H; inversion H; reflexivity.
      - apply IH. }
    cbn [matchPattern input]. rewrite Hs, N.eqb_refl. cbn [endIndex capture].
    f_equal. f_equal. lia.
  - apply matchStar_none. intros j Hj.
    apply nth_error_None in Hg. pose proof (runLength_le notGt rest).
    cbn [matchPattern input].
    destruct (Nat.eq_dec j (runLength notGt rest)) as [->|Hne].
    + rewrite skipn_all2 by lia. reflexivity.
    + destruct (runLength_inside notGt rest j ltac:(lia)) as (c & -> & Hc).
      unfold notGt in Hc. apply negb_true_iff in Hc. now rewrite Hc.
Qed.

(** [openingTagRegex] reads an opening tag, and takes its whole name. *)
Lemma openingTagRegex_at rest i :
  matchPattern openingTagRegex Some (mkState rest i None) =
  match openingTagAt rest with
  | Some (name, len) => Some (mkState (skipn len rest) (i + len) (Some name))
  | None => None
  end.
Proof.
  unfold openingTagRegex, openingTagAt.
  rewrite matchSeq_eq. cbn [matchPattern input endIndex capture].
  destruct rest as [|c rest']; [reflexivity|].
  destruct (N.eqb c (chr "<")); [|reflexivity].
  destruct rest' as [|c' rest'']; [reflexivity|].
  cbn [runLength]. destruct (word c') eqn:Hc'; [|reflexivity].
  cbv zeta.
  set (n' := runLength word rest'').
  set (a := runLength notGt (skipn (S n') (c' :: rest''))).
  assert (Hk : forall j, j <= n' ->
    matchStar notGt (fun z => matchPattern (Lit (chr ">")) Some z)
              (skipn j rest'') (S (S i) + j)
              (Some (firstn (S (S i) + j - S i) (c' :: rest'')))
    = match nth_error (c' :: rest'') (S n' + a) with
      | Some _ => Some (mkState (skipn (S n' + a + 2) (c :: c' :: rest''))
                                (S (S i) + n' + a + 1)
                                (Some (firstn (S (S i) + j - S i) (c' :: rest''))))
      | None => None
      end).
  { intros j Hj. rewrite matchAttrs_eq.
    rewrite (runLength_skipn word notGt rest'' j word_notGt Hj).
    fold n'. change (skipn (S n') (c' :: rest'')) with (skipn n' rest'') in a.
    fold a. rewrite nth_error_skipn.
    replace (j + (n' - j + a)) with (n' + a) by lia.
    change (nth_error (c' :: rest'') (S n' + a)) with (nth_error rest'' (n' + a)).
    destruct (nth_error rest'' (n' + a)); [|reflexivity].
    rewrite skipn_skipn. f_equal. f_equal; [|lia].
    replace (S n' + a + 2) with (S (S (S (n' - j + a) + j))) by lia.
    reflexivity. }
  destruct (nth_error (c' :: rest'') (S n' + a)) as [g|] eqn:Hg.
  - apply matchStar_max. fold n'. cbn [input endIndex capture].
    etransitivity; [exact (Hk n' (Nat.le_refl _))|].
    f_equal. f_equal; [lia|]. f_equal.
    replace (S (S i) + n' - S i) with (S n') by lia. reflexivity.
  - apply matchStar_none. fold n'. intros j Hj. cbn [input endIndex capture].
    exact (Hk j Hj).
Qed.

(** What the second alternative of [closingTagRegex] reads at the head of
    [rest]: [<name], then anything up to the first [>]; its length. *)
Definition reopeningAt (name rest : Text) : option nat :=
  match rest with
  | c :: rest' =>
      if N.eqb c (chr "<") && startsWith rest' name then
        let a := runLength notGt (skipn (length name) rest') in
        match nth_error rest' (length name + a) with
        | Some _ => Some (length name + a + 2)
        | None => None
        end
      else None
  | [] => None
  end.

(** What [closingTagRegex] reads at the head of [rest]. *)
Definition closingTagRegexAt (name rest : Text) : option (bool * nat) :=
  if closingTagAt name rest then Some (true, length name + 3)
  else match reopeningAt name rest with
       | Some len => Some (false, len)
       | None => None
       end.

Lemma matchLit_eq c k x :
  matchPattern (Lit c) k x =
  if startsWith (input x) [c]
  then k (mkState (skipn 1 (input x)) (endIndex x + 1) (capture x))
  else None.
Proof. exact (matchLits_eq [c] k x). Qed.

Lemma closingAlternative_at name rest i :
  matchPattern (Seq (Lits (js "</")) (Seq (Lits name) (Lit (chr ">")))) Some
               (mkState rest i None) =
  if closingTagAt name rest
  then Some (mkState (skipn (length name + 3) rest) (i + (length name + 3)) None)
  else None.
Proof.
  unfold closingTagAt. rewrite !startsWith_app.
  rewrite matchSeq_eq, matchLits_eq. cbn [input endIndex capture].
  destruct (startsWith rest (js "</")); [|reflexivity].
  rewrite matchSeq_eq, matchLits_eq. cbn [input endIndex capture andb].
  destruct (startsWith (skipn (length (js "</")) rest) name); [|reflexivity].
  rewrite matchLit_eq. cbn [input endIndex capture andb].
  destruct (startsWith (skipn (length name) (skipn (length (js "</")) rest))
                       [chr ">"]); [|reflexivity].
  rewrite !skipn_skipn. change (length (js "</")) with 2.
  f_equal. f_equal; [f_equal|]; lia.
Qed.

Lemma reopeningAlternative_at name rest i :
  matchPattern (Seq (Lit (chr "<"))
                    (Seq (Lits name) (Seq (Star notGt) (Lit (chr ">")))))
               Some (mkState rest i None) =
  match reopeningAt name rest with
  | Some len => Some (mkState (skipn len rest) (i + len) None)
  | None => None
  end.
Proof.
  unfold reopeningAt.
  rewrite matchSeq_eq, matchLit_eq. cbn [input endIndex capture].
  destruct rest as [|c rest']; [reflexivity|].
  cbn [startsWith skipn]. rewrite andb_true_r.
  destruct (N.eqb c (chr "<")); [|reflexivity]. cbn [andb].
  rewrite matchSeq_eq, matchLits_eq. cbn [input endIndex capture].
  destruct (startsWith rest' name); [|reflexivity].
  rewrite matchSeq_eq.
  change (matchPattern (Star notGt)
            (fun z => matchPattern (Lit (chr ">")) Some z)
            (mkState (skipn (length name) rest') (i + 1 + length name) None))
    with (matchStar notGt (fun z => matchPattern (Lit (chr ">")) Some z)
            (skipn (length name) rest') (i + 1 + length name) None).
  rewrite matchAttrs_eq, nth_error_skipn. cbv zeta.
  destruct (nth_error rest' (length name + runLength notGt (skipn (length name) rest')));
    [|reflexivity].
  rewrite skipn_skipn. f_equal. f_equal; [|lia].
  replace (length name + runLength notGt (skipn (length name) rest') + 2)
    with (S (S (runLength notGt (skipn (length name) rest')) + length name)) by lia.
  reflexivity.
Qed.

(** [closingTagRegex] reads the closing tag, or else what its second
    alternative reads. *)
Lemma closingTagRegex_at name rest i :
  matchPattern (closingTagRegex name) Some (mkState rest i None) =
  match closingTagRegexAt name rest with
  | Some (_, len) => Some (mkState (skipn len rest) (i + len) None)
  | None => None
  end.
Proof.
  unfold closingTagRegex, closingTagRegexAt.
  rewrite matchAlt_eq, closingAlternative_at, reopeningAlternative_at.
  destruct (closingTagAt name rest); [reflexivity|].
  destruct (reopeningAt name rest); reflexivity.
Qed.

(** ** The matches of a loop over [exec] are the tokens of the text *)

Lemma tokens_skip {A} (recognise : Text -> option (A * nat)) :
  forall rest i skip,
  tokens recognise rest i skip = tokens recognise (skipn skip rest) (i + skip) 0.
Proof.
  induction rest as [|c rest IH]; intros i skip.
  - now rewrite skipn_nil.
  - destruct skip as [|skip]; simpl.
    + now rewrite Nat.add_0_r.
    + rewrite IH. f_equal. lia.
Qed.

Lemma tokens_ext {A} (f f' : Text -> option (A * nat)) :
  forall rest i skip,
  (forall j, f (skipn j rest) = f' (skipn j rest)) ->
  tokens f rest i skip = tokens f' rest i skip.
Proof.
  induction rest as [|c rest IH]; intros i skip H; [reflexivity|].
  assert (H' : forall j, f (skipn j rest) = f' (skipn j rest))
    by (intros j; apply (H (S j))).
  simpl. destruct skip as [|skip]; [|apply IH, H'].
  pose proof (H 0) as H0. simpl in H0. rewrite <- H0.
  destruct (f (c :: rest)) as [[a len]|]; [f_equal|]; apply IH, H'.
Qed.

Section Tokens.

Context {A : Type}.
Variable source : Pattern.
Variable recognise : Text -> option (A * nat).
Variable captured : A -> option Text.

(** The pattern reads what [recognise] tells. *)
Hypothesis reads : forall rest i,
  matchPattern source Some (mkState rest i None) =
  match recognise rest with
  | Some (a, len) => Some (mkState (skipn len rest) (i + len) (captured a))
  | None => None
  end.

(** A token is not empty and lies in the text. *)
Hypothesis fits : forall rest a len,
  recognise rest = Some (a, len) -> 1 <= len <= length rest.

Lemma searchFrom_tokens :
  forall rest i,
  match searchFrom source rest i with
  | Some (m, e) =>
      exists a,
        i <= index m /\ index m < e <= i + length rest /\
        recognise (skipn (index m - i) rest) = Some (a, e - index m) /\
        group1 m = captured a /\
        matched m = firstn (e - index m) (skipn (index m - i) rest) /\
        tokens recognise rest i 0
        = (index m, a, e) :: tokens recognise (skipn (e - i) rest) e 0
  | None => tokens recognise rest i 0 = []
  end.
Proof.
  induction rest as [|c rest IH]; intros i; cbn [searchFrom]; rewrite reads.
  - destruct (recognise []) as [[a len]|] eqn:E; [|reflexivity].
    apply fits in E. simpl in E. lia.
  - destruct (recognise (c :: rest)) as [[a len]|] eqn:E.
    + pose proof (fits _ _ _ E) as Hlen. cbn [length] in Hlen.
      exists a. cbn [index group1 matched endIndex capture].
      rewrite Nat.sub_diag. cbn [skipn].
      replace (i + len - i) with len by lia.
      split; [lia|]. split; [cbn [length]; lia|]. split; [exact E|].
      split; [reflexivity|]. split; [reflexivity|].
      cbn [tokens]. rewrite E. f_equal.
      rewrite tokens_skip. destruct len as [|len]; [lia|].
      cbn [skipn]. replace (S len - 1) with len by lia. f_equal. lia.
    + specialize (IH (S i)).
      destruct (searchFrom source rest (S i)) as [[m e]|].
      * destruct IH as (a & H1 & H2 & H3 & H4 & H5 & H6).
        exists a.
        replace (index m - i) with (S (index m - S i)) by lia.
        replace (e - i) with (S (e - S i)) by lia.
        cbn [skipn tokens]. rewrite E.
        split; [lia|]. split; [cbn [length]; lia|]. auto.
      * cbn [tokens]. rewrite E. exact IH.
Qed.

Lemma exec_tokens text lastIndex :
  lastIndex <= length text ->
  match exec source text lastIndex with
  | (Some m, lastIndex') =>
      exists a,
        lastIndex <= index m /\ index m < lastIndex' <= length text /\
        recognise (skipn (index m) text) = Some (a, lastIndex' - index m) /\
        group1 m = captured a /\
        matched m = firstn (lastIndex' - index m) (skipn (index m) text) /\
        tokens recognise (skipn lastIndex text) lastIndex 0
        = (index m, a, lastIndex')
            :: tokens recognise (skipn lastIndex' text) lastIndex' 0
  | (None, _) => tokens recognise (skipn lastIndex text) lastIndex 0 = []
  end.
Proof.
  intros Hle. unfold exec.
  destruct (Nat.ltb_spec (length text) lastIndex) as [Hlt|_]; [lia|].
  pose proof (searchFrom_tokens (skipn lastIndex text) lastIndex) as H.
  destruct (searchFrom source (skipn lastIndex text) lastIndex) as [[m e]|];
    [|exact H].
  destruct H as (a & H1 & H2 & H3 & H4 & H5 & H6).
  rewrite length_skipn in H2. rewrite skipn_skipn in H3, H5, H6.
  replace (index m - lastIndex + lastIndex) with (index m) in H3, H5 by lia.
  replace (e - lastIndex + lastIndex) with e in H6 by lia.
  exists a. split; [lia|]. split; [lia|]. auto.
Qed.

End Tokens.

Lemma openingTagAt_fits rest name len :
  openingTagAt rest = Some (name, len) ->
  1 <= len <= length rest /\ name <> [].
Proof.
  unfold openingTagAt. destruct rest as [|c rest']; [discriminate|].
  destruct (N.eqb c (chr "<")); [|discriminate]. cbv zeta.
  destruct (runLength word rest') as [|n] eqn:Hn; [discriminate|].
  destruct (nth_error rest' (S n + runLength notGt (skipn (S n) rest')))
    eqn:Hg; [|discriminate].
  intros [= <- <-].
  assert (Hlt : S n + runLength notGt (skipn (S n) rest') < length rest')
    by (apply nth_error_Some; congruence).
  split; [simpl in *; lia|].
  destruct rest'; [simpl in Hlt; lia | discriminate].
Qed.

Lemma closingTagRegexAt_fits name rest closing len :
  closingTagRegexAt name rest = Some (closing, len) ->
  1 <= len <= length rest.
Proof.
  unfold closingTagRegexAt, closingTagAt.
  destruct (startsWith rest (js "</" ++ name ++ [chr ">"])) eqn:Hc.
  - intros H; inversion H; subst. apply startsWith_spec in Hc.
    destruct Hc as [rest' ->]. rewrite !length_app. simpl. lia.
  - unfold reopeningAt. destruct rest as [|c rest']; [discriminate|].
    destruct (N.eqb c (chr "<") && startsWith rest' name); [|discriminate].
    cbv zeta.
    destruct (nth_error rest' (length name + runLength notGt (skipn (length name) rest')))
      eqn:Hg; [|discriminate].
    intros H; inversion H; subst.
    assert (length name + runLength notGt (skipn (length name) rest') < length rest')
      by (apply nth_error_Some; congruence).
    simpl. lia.
Qed.

(** The first loop of the tag matcher records the opening tags of the
    text. *)
Lemma collectTags_tokens text :
  forall lastIndex, lastIndex <= length text ->
  collectTags text (length text) lastIndex [] =
  map tagOfToken (tokens openingTagAt (skipn lastIndex text) lastIndex 0).
Proof.
  intros lastIndex.
  induction lastIndex as [lastIndex IH]
    using (exec_ind openingTagRegex text openingTagRegex_progress).
  intros Hle. rewrite collectTags_eq.
  pose proof (exec_tokens openingTagRegex openingTagAt Some openingTagRegex_at
                (fun rest a len H => proj1 (openingTagAt_fits rest a len H))
                text lastIndex Hle) as H.
  destruct (exec openingTagRegex text lastIndex) as [[m|] lastIndex'] eqn:E.
  - destruct H as (name & H1 & H2 & H3 & H4 & _ & H6).
    destruct (Nat.ltb_spec (length text) (index m)) as [Hout|_]; [lia|].
    rewrite collectTags_acc, (IH _ _ eq_refl) by lia. rewrite H6.
    cbn [map]. unfold pushTag. rewrite H4.
    apply openingTagAt_fits in H3. destruct H3 as [_ Hne].
    destruct name as [|c s]; [contradiction | reflexivity].
  - now rewrite H.
Qed.

Lemma openingTags_tagsOf text : openingTags text = tagsOf text.
Proof. exact (collectTags_tokens text 0 (Nat.le_0_l _)). Qed.

Lemma recordedTags_tagsOf document position :
  recordedTags document position =
  filter (fun t => tag_index t <=? offsetAt document position)
         (tagsOf (getText document)).
Proof.
  unfold recordedTags. rewrite collectTags_filter.
  fold (openingTags (getText document)). now rewrite openingTags_tagsOf.
Qed.

(** Of a match of [closingTagRegex] the matcher asks whether it starts with
    [</]: it does when it is the closing tag. *)
Lemma closingTagRegexAt_closing name rest closing len :
  name <> [] -> forallb word name = true ->
  closingTagRegexAt name rest = Some (closing, len) ->
  startsWith (firstn len rest) (js "</") = closing.
Proof.
  intros Hne Hword. unfold closingTagRegexAt, closingTagAt.
  destruct (startsWith rest (js "</" ++ name ++ [chr ">"])) eqn:Hc.
  - intros H; inversion H; subst. apply startsWith_spec in Hc.
    destruct Hc as [rest' ->].
    replace (length name + 3) with (S (S (length name + 1))) by lia.
    reflexivity.
  - unfold reopeningAt. destruct rest as [|c rest']; [discriminate|].
    destruct (N.eqb c (chr "<") && startsWith rest' name) eqn:Hs; [|discriminate].
    cbv zeta.
    destruct (nth_error rest' (length name + runLength notGt (skipn (length name) rest')));
      [|discriminate].
    intros H; inversion H; subst.
    apply andb_true_iff in Hs. destruct Hs as [_ Hs].
    apply startsWith_spec in Hs. destruct Hs as [rest'' ->].
    destruct name as [|h name]; [contradiction|].
    simpl in Hword. apply andb_true_iff in Hword. destruct Hword as [Hh _].
    apply word_not_slash in Hh.
    replace (length (h :: name) + runLength notGt
               (skipn (length (h :: name)) ((h :: name) ++ rest'')) + 2)
      with (S (S (length name + runLength notGt
               (skipn (length (h :: name)) ((h :: name) ++ rest'')) + 1)))
      by (simpl; lia).
    cbn [firstn app startsWith js map list_ascii_of_string].
    destruct (N.eqb_spec h (code "/")) as [Heq|_]; [contradiction|].
    apply andb_false_r.
Qed.

Definition matchEvent (m : RegExpMatch) : nat * bool := (index m, isClosing m).
Definition tokenEvent (t : nat * bool * nat) : nat * bool := fst t.

(** The matches the inner loop of the tag matcher goes through are the
    tokens [closingTagRegex] reads. *)
Lemma closingMatches_tokens text name :
  name <> [] -> forallb word name = true ->
  forall lastIndex, lastIndex <= length text ->
  map matchEvent (closingMatches text name lastIndex) =
  map tokenEvent (tokens (closingTagRegexAt name) (skipn lastIndex text) lastIndex 0).
Proof.
  intros Hne Hword lastIndex.
  induction lastIndex as [lastIndex IH]
    using (exec_ind (closingTagRegex name) text (minLength_closingTagRegex _)).
  intros Hle. rewrite closingMatches_eq.
  pose proof (exec_tokens (closingTagRegex name) (closingTagRegexAt name)
                (fun _ => None)
                (closingTagRegex_at name)
                (closingTagRegexAt_fits name)
                text lastIndex Hle) as H.
  destruct (exec (closingTagRegex name) text lastIndex) as [[m|] lastIndex'] eqn:E.
  - destruct H as (closing & H1 & H2 & H3 & _ & H5 & H6).
    rewrite H6. cbn [map]. rewrite (IH _ _ eq_refl) by lia. f_equal.
    unfold matchEvent, tokenEvent, isClosing. cbn [fst]. f_equal.
    rewrite H5. apply (closingTagRegexAt_closing name _ _ _ Hne Hword H3).
  - now rewrite H.
Qed.

(** ** Where the count of the matcher is the count by name *)

Lemma startsWith_run cls rest name :
  forallb cls name = true -> startsWith rest name = true ->
  length name <= runLength cls rest.
Proof.
  revert rest. induction name as [|c name IH]; intros rest Hall Hs; [simpl; lia|].
  destruct rest as [|d rest]; [discriminate|].
  simpl in Hall, Hs. apply andb_true_iff in Hall, Hs.
  destruct Hall as [Hc Hall], Hs as [Hd Hs]. apply N.eqb_eq in Hd. subst d.
  simpl. rewrite Hc. specialize (IH rest Hall Hs). lia.
Qed.

Lemma startsWith_firstn rest name n :
  length name <= n -> startsWith (firstn n rest) name = startsWith rest name.
Proof.
  revert rest n. induction name as [|c name IH]; intros rest n Hn; [reflexivity|].
  destruct n as [|n]; [simpl in Hn; lia|].
  destruct rest as [|d rest]; [reflexivity|].
  simpl. rewrite IH by (simpl in Hn; lia). reflexivity.
Qed.

(** Where no opening tag has a longer name that begins with [name],
    [closingTagRegex] reads the tags of the name [name] and nothing else. *)
Lemma closingTagRegexAt_plain name rest :
  name <> [] -> forallb word name = true ->
  (forall name' len, openingTagAt rest = Some (name', len) ->
                     extendsName name name' = false) ->
  closingTagRegexAt name rest = namedTagAt name rest.
Proof.
  intros Hne Hword Hplain. unfold closingTagRegexAt, namedTagAt.
  destruct (closingTagAt name rest); [reflexivity|].
  unfold reopeningAt, openingTagAt in *.
  destruct rest as [|c rest']; [reflexivity|].
  destruct (N.eqb c (chr "<")); [|reflexivity]. cbn [andb]. cbv zeta in *.
  destruct (startsWith rest' name) eqn:Hs.
  - pose proof (startsWith_run word _ _ Hword Hs) as Hrun.
    rewrite (runLength_skipn word notGt rest' (length name) word_notGt Hrun).
    set (n := runLength word rest') in *.
    set (a := runLength notGt (skipn n rest')) in *.
    replace (length name + (n - length name + a)) with (n + a) by lia.
    destruct n as [|n'] eqn:Hn.
    { destruct name; [contradiction | simpl in Hrun; lia]. }
    destruct (nth_error rest' (S n' + a)) as [g|]; [|reflexivity].
    specialize (Hplain _ _ eq_refl). unfold extendsName in Hplain.
    rewrite startsWith_firstn in Hplain by lia. rewrite Hs in Hplain.
    cbn [andb] in Hplain. apply Nat.ltb_ge in Hplain.
    assert (Hlen : length (firstn (S n') rest') = S n').
    { apply firstn_length_le. pose proof (runLength_le word rest'). lia. }
    assert (Hsame : sameText (firstn (S n') rest') name = true).
    { apply sameText_spec. apply startsWith_spec in Hs. destruct Hs as [rest'' ->].
      rewrite firstn_app. replace (S n' - length name) with 0 by lia.
      rewrite firstn_all2 by lia. simpl. apply app_nil_r. }
    rewrite Hsame. repeat f_equal; lia.
  - destruct (runLength word rest') as [|n'] eqn:Hn; [reflexivity|].
    destruct (nth_error rest' (S n' + runLength notGt (skipn (S n') rest')));
      [|reflexivity].
    destruct (sameText (firstn (S n') rest') name) eqn:Hsame; [|reflexivity].
    apply sameText_spec in Hsame.
    assert (Hs' : startsWith rest' name = true).
    { apply startsWith_spec. exists (skipn (S n') rest').
      rewrite <- Hsame. symmetry. apply firstn_skipn. }
    congruence.
Qed.

Lemma noLongerName_at name :
  forall rest j name' len,
  noLongerName name rest = true ->
  openingTagAt (skipn j rest) = Some (name', len) ->
  extendsName name name' = false.
Proof.
  induction rest as [|c rest IH]; intros j name' len H E.
  - rewrite skipn_nil in E. discriminate.
  - cbn [noLongerName] in H. apply andb_true_iff in H. destruct H as [H0 H].
    destruct j as [|j].
    + cbn [skipn] in E. rewrite E in H0. now apply negb_true_iff in H0.
    + apply (IH j name' len H E).
Qed.

Lemma tagsNamed_closingMatches text name from :
  name <> [] -> forallb word name = true -> from <= length text ->
  noLongerName name (skipn from text) = true ->
  map matchEvent (closingMatches text name from) =
  map tokenEvent (tagsNamed text name from).
Proof.
  intros Hne Hword Hle Hplain.
  rewrite (closingMatches_tokens text name Hne Hword from Hle).
  unfold tagsNamed. f_equal. apply tokens_ext. intros j.
  apply closingTagRegexAt_plain; try assumption.
  intros name' len E. exact (noLongerName_at name _ j name' len Hplain E).
Qed.

(** The two counts go together where the events are the same. *)
Lemma depth_events matches :
  forall events depth,
  map matchEvent matches = map tokenEvent events ->
  tagDepth depth matches = depthByName depth events.
Proof.
  induction matches as [|m matches IH]; intros [|[[i closing] e] events] depth H;
    try discriminate; [reflexivity|].
  simpl in H. inversion H as [[Hi Hc Hrest]].
  cbn [tagDepth depthByName]. rewrite Hc. apply IH, Hrest.
Qed.

Lemma map_firstn_eq {A B C} (f : A -> C) (g : B -> C) n :
  forall l l', map f l = map g l' -> map f (firstn n l) = map g (firstn n l').
Proof.
  intros l l' H. rewrite <- !firstn_map. now rewrite H.
Qed.

Lemma closes_events matches events :
  map matchEvent matches = map tokenEvent events ->
  forall k e,
  firstZeroAt matches 1 k e <->
  (exists e', nth_error events k = Some (e, true, e')) /\
  depthByName 1 (firstn (S k) events) = 0%Z /\
  forall k', k' < k -> (0 < depthByName 1 (firstn (S k') events))%Z.
Proof.
  intros H k e. unfold firstZeroAt.
  assert (Hd : forall n, tagDepth 1 (firstn n matches)
                         = depthByName 1 (firstn n events)).
  { intros n. apply depth_events, map_firstn_eq, H. }
  assert (Hn : nth_error (map matchEvent matches) k
               = nth_error (map tokenEvent events) k) by now rewrite H.
  rewrite !nth_error_map in Hn.
  rewrite Hd. split.
  - intros ((m & Hm & Hc & He) & Hz & Hpos). split; [|split].
    + rewrite Hm in Hn. destruct (nth_error events k) as [[[i c] e']|];
        [|discriminate].
      simpl in Hn. unfold matchEvent, tokenEvent in Hn. simpl in Hn.
      inversion Hn. exists e'. congruence.
    + exact Hz.
    + intros k' Hk'. rewrite <- Hd. apply Hpos, Hk'.
  - intros ((e' & He') & Hz & Hpos). split; [|split].
    + rewrite He' in Hn. destruct (nth_error matches k) as [m|]; [|discriminate].
      simpl in Hn. unfold matchEvent, tokenEvent in Hn. simpl in Hn.
      inversion Hn. exists m. auto.
    + exact Hz.
    + intros k' Hk'. rewrite Hd. apply Hpos, Hk'.
Qed.

Lemma tagsOf_opening text tag : In tag (tagsOf text) -> isOpeningTag text tag.
Proof. rewrite <- openingTags_tagsOf. apply openingTags_opening. Qed.

(** For a tag that no longer name follows, the matcher's count closes it
    where the count by name does. *)
Lemma closesByName_iff text tag e :
  In tag (tagsOf text) ->
  noLongerName (tag_name tag) (skipn (tag_end tag) text) = true ->
  tagClosesAt text tag e <-> closesByName text tag e.
Proof.
  intros Hin Hplain.
  pose proof (tagsOf_opening _ _ Hin) as Hop.
  rewrite <- openingTags_tagsOf in Hin.
  destruct (openingTags_inv text) as [_ Hall]. specialize (Hall _ Hin).
  destruct Hop as (Hne & Hword & _).
  pose proof (tagsNamed_closingMatches text (tag_name tag) (tag_end tag)
                Hne Hword ltac:(lia) Hplain) as Hev.
  unfold tagClosesAt, closesByName. cbv zeta.
  split; intros [k Hk]; exists k; apply (closes_events _ _ Hev); exact Hk.
Qed.

Lemma closesByName_unique text tag e e' :
  closesByName text tag e -> closesByName text tag e' -> e = e'.
Proof.
  unfold closesByName. cbv zeta.
  intros (k & (e1 & Hk) & Hz & Hpos) (k' & (e2 & Hk') & Hz' & Hpos').
  assert (E : k = k').
  { destruct (Nat.lt_trichotomy k k') as [Hlt|[Heq|Hgt]]; [|exact Heq|].
    - specialize (Hpos' k Hlt). lia.
    - specialize (Hpos k' Hgt). lia. }
  subst k'. congruence.
Qed.

Lemma plainNames_tag text tag :
  plainNames text = true -> In tag (tagsOf text) ->
  noLongerName (tag_name tag) (skipn (tag_end tag) text) = true.
Proof.
  unfold plainNames. rewrite forallb_forall. intros H Hin. exact (H tag Hin).
Qed.

Lemma tagsOf_end_inj text a b :
  In a (tagsOf text) -> In b (tagsOf text) -> tag_end a = tag_end b -> a = b.
Proof. rewrite <- openingTags_tagsOf. apply openingTags_end_inj. Qed.

(** ** The regular expression objects *)

Lemma nth_error_set regex n heap o :
  nth_error heap regex = Some o ->
  nth_error (setLastIndex regex n heap) regex = Some (mkRegExp (re_source o) n).
Proof.
  intros H. unfold setLastIndex. rewrite H.
  assert (Hlt : regex < length heap) by (apply nth_error_Some; congruence).
  rewrite nth_error_app2; rewrite length_firstn; [|lia].
  replace (regex - Nat.min regex (length heap)) with 0 by lia. reflexivity.
Qed.

(** Setting [lastIndex] of the last object of the heap. *)
Lemma setLastIndex_last heap o n :
  setLastIndex (length heap) n (heap ++ [o]) = heap ++ [mkRegExp (re_source o) n].
Proof.
  unfold setLastIndex.
  rewrite nth_error_app2, Nat.sub_diag by lia. cbn [nth_error].
  rewrite firstn_app, Nat.sub_diag, firstn_all. cbn [firstn].
  rewrite app_nil_r. f_equal. f_equal.
  rewrite skipn_all2; [reflexivity|]. rewrite length_app. simpl. lia.
Qed.

Lemma nth_error_last {A} (l : list A) a : nth_error (l ++ [a]) (length l) = Some a.
Proof. rewrite nth_error_app2, Nat.sub_diag by lia. reflexivity. Qed.

Lemma execOn_last heap s lastIndex text :
  execOn (length heap) text (heap ++ [mkRegExp s lastIndex]) =
  let (m, lastIndex') := exec (patternOf s) text lastIndex in
  (m, heap ++ [mkRegExp s lastIndex']).
Proof.
  unfold execOn. rewrite nth_error_last. cbn [re_source re_lastIndex].
  destruct (exec (patternOf s) text lastIndex) as [m lastIndex'].
  now rewrite setLastIndex_last.
Qed.

Lemma getLastIndex_last heap o : getLastIndex (length heap) (heap ++ [o]) = re_lastIndex o.
Proof. unfold getLastIndex. now rewrite nth_error_last. Qed.

Lemma collectTagsOn_eq regex text offset tags heap :
  collectTagsOn regex text offset tags heap =
  match execOn regex text heap with
  | (Some m, heap') =>
      if offset <? index m then (tags, heap')
      else collectTagsOn regex text offset
                         (pushTag m (getLastIndex regex heap') tags) heap'
  | (None, heap') => (tags, heap')
  end.
Proof.
  funelim (collectTagsOn regex text offset tags heap);
    match goal with E : execOn _ _ _ = _ |- _ => rewrite E end; reflexivity.
Qed.

Lemma closingLoopOn_eq document position tag regex depth bestRange heap :
  closingLoopOn document position tag regex depth bestRange heap =
  match execOn regex (getText document) heap with
  | (Some m, heap') =>
      if startsWith (matched m) (js "</") then
        if (depth - 1 =? 0)%Z then
          (keepInner (newRange (positionAt document (tag_end tag))
                               (positionAt document (index m)))
                     position bestRange, heap')
        else
          closingLoopOn document position tag regex (depth - 1) bestRange heap'
      else
        closingLoopOn document position tag regex (depth + 1) bestRange heap'
  | (None, heap') => (bestRange, heap')
  end.
Proof.
  funelim (closingLoopOn document position tag regex depth bestRange heap);
    match goal with E : execOn _ _ _ = _ |- _ => rewrite E end; reflexivity.
Qed.

(** The first loop on the last object of the heap computes what
    [collectTags] computes from the [lastIndex] of that object, and writes
    to that object only. *)
Lemma collectTagsOn_last text offset heap :
  forall lastIndex tags,
  exists lastIndex',
    collectTagsOn (length heap) text offset tags
                  (heap ++ [mkRegExp OpeningTag lastIndex])
    = (collectTags text offset lastIndex tags,
       heap ++ [mkRegExp OpeningTag lastIndex']).
Proof.
  intros lastIndex.
  induction lastIndex as [lastIndex IH]
    using (exec_ind openingTagRegex text openingTagRegex_progress).
  intros tags. rewrite collectTagsOn_eq, collectTags_eq, execOn_last.
  cbn [patternOf].
  destruct (exec openingTagRegex text lastIndex) as [[m|] lastIndex'] eqn:E.
  - destruct (offset <? index m); [eexists; reflexivity|].
    rewrite getLastIndex_last. cbn [re_lastIndex].
    apply (IH _ _ eq_refl).
  - eexists; reflexivity.
Qed.

Lemma closingLoopOn_last document position tag heap :
  forall lastIndex depth bestRange,
  exists lastIndex',
    closingLoopOn document position tag (length heap) depth bestRange
                  (heap ++ [mkRegExp (ClosingTag (tag_name tag)) lastIndex])
    = (closingLoop document position tag lastIndex depth bestRange,
       heap ++ [mkRegExp (ClosingTag (tag_name tag)) lastIndex']).
Proof.
  intros lastIndex.
  induction lastIndex as [lastIndex IH]
    using (exec_ind (closingTagRegex (tag_name tag)) (getText document)
                    (minLength_closingTagRegex _)).
  intros depth bestRange.
  rewrite closingLoopOn_eq, closingLoop_eq, execOn_last. cbn [patternOf].
  destruct (exec (closingTagRegex (tag_name tag)) (getText document) lastIndex)
    as [[m|] lastIndex'] eqn:E.
  - destruct (startsWith (matched m) (js "</")).
    + destruct (depth - 1 =? 0)%Z; [eexists; reflexivity|].
      apply (IH _ _ eq_refl).
    + apply (IH _ _ eq_refl).
  - eexists; reflexivity.
Qed.

Lemma tagStepOn_spec document position tag bestRange heap :
  exists more,
    tagStepOn document position tag bestRange heap
    = (tagStep document position tag bestRange, heap ++ more).
Proof.
  destruct tag as [tag|]; [|exists []; simpl; now rewrite app_nil_r].
  unfold tagStepOn, tagStep, newRegExp. rewrite setLastIndex_last.
  cbn [re_source].
  destruct (closingLoopOn_last document position tag heap (tag_end tag) 1 bestRange)
    as [lastIndex' ->].
  eexists; reflexivity.
Qed.

Lemma tagLoopOn_spec document position tags :
  forall n bestRange heap,
  exists more,
    tagLoopOn document position tags n bestRange heap
    = (tagLoop document position tags n bestRange, heap ++ more).
Proof.
  induction n as [|i IH]; intros bestRange heap.
  - exists []. simpl. now rewrite app_nil_r.
  - cbn [tagLoopOn tagLoop].
    destruct (tagStepOn_spec document position (nth_error tags i) bestRange heap)
      as [more ->].
    destruct (IH (tagStep document position (nth_error tags i) bestRange)
                 (heap ++ more)) as [more' ->].
    exists (more ++ more'). now rewrite app_assoc.
Qed.

(** Called in any heap, the tag matcher returns what [findEnclosingTags]
    tells, and leaves the objects it found as they were, followed by the
    objects it made. *)
Lemma findEnclosingTagsOn_spec heap document position :
  exists more,
    findEnclosingTagsOn heap document position
    = (findEnclosingTags document position, heap ++ more).
Proof.
  unfold findEnclosingTagsOn, findEnclosingTags, newRegExp. cbv zeta.
  destruct (collectTagsOn_last (getText document) (offsetAt document position)
              heap 0 []) as [lastIndex' ->].
  destruct (tagLoopOn_spec document position
              (collectTags (getText document) (offsetAt document position) 0 [])
              (length (collectTags (getText document)
                                   (offsetAt document position) 0 []))
              None (heap ++ [mkRegExp OpeningTag lastIndex'])) as [more ->].
  exists (mkRegExp OpeningTag lastIndex' :: more).
  now rewrite <- app_assoc.
Qed.

(** What [lastIndex] would carry: the first loop, leaving at the first tag
    behind the offset, leaves [lastIndex] at the end of that tag, and a loop
    on the same object would go on from there. *)
Lemma lastIndex_outlives_the_loop :
  collectTagsOn 0 (js "<a>x</a><b>") 4 [] [mkRegExp OpeningTag 0]
  = ([mkTag 0 (js "a") 3], [mkRegExp OpeningTag 11]) /\
  collectTagsOn 0 (js "<a>x</a><b>") 4 [] [mkRegExp OpeningTag 11]
  = ([], [mkRegExp OpeningTag 0]).
Proof. split; vm_compute; reflexivity. Qed.

(** ** The selector on any candidates, and the count by name *)

Lemma bestOf_spec position candidates :
  match bestOf position candidates with
  | Some w =>
      In w candidates /\ contains w position = true /\
      forall r, In r candidates -> contains r position = true -> ranksBefore w r
  | None => forall r, In r candidates -> contains r position = false
  end.
Proof.
  unfold bestOf.
  destruct (hd_error (sort compareRanges
                           (filter (fun r => contains r position) candidates)))
    as [w|] eqn:E.
  - apply sort_head in E. destruct E as [Hin Hall].
    apply filter_In in Hin. destruct Hin as [Hin Hc].
    split; [exact Hin|]. split; [exact Hc|].
    intros r Hr Hcr. apply Hall, filter_In. auto.
  - intros r Hr. destruct (contains r position) eqn:Hc; [|reflexivity].
    exfalso.
    pose proof (sort_perm (filter (fun r => contains r position) candidates)) as Hp.
    destruct (sort compareRanges
                   (filter (fun r => contains r position) candidates)) as [|w l];
      [|discriminate].
    apply Permutation_nil in Hp.
    assert (Hin : In r (filter (fun r => contains r position) candidates))
      by (apply filter_In; auto).
    rewrite Hp in Hin. contradiction.
Qed.

Lemma ranksBefore_antisym a b : ranksBefore a b -> ranksBefore b a -> a = b.
Proof.
  unfold ranksBefore. intros H1 H2. destruct a, b; simpl in *.
  f_equal; lia.
Qed.

(** Of two candidates that hold the position the one that ranks strictly
    before the other is taken, in whichever order they were pushed. *)
Lemma bestOf_two position a b :
  contains a position = true -> contains b position = true ->
  start b < start a \/ (start a = start b /\ end_ a < end_ b) ->
  bestOf position [a; b] = Some a /\ bestOf position [b; a] = Some a.
Proof.
  intros Ha Hb Hlt.
  assert (Hab : ranksBefore a b) by (unfold ranksBefore; lia).
  assert (Hba : ~ ranksBefore b a) by (unfold ranksBefore; lia).
  unfold bestOf. cbn [filter]. rewrite Ha, Hb, !sort_two.
  apply compareRanges_le in Hab. rewrite Hab.
  destruct (compareRanges b a <=? 0)%Z eqn:E.
  - apply compareRanges_le in E. contradiction.
  - split; reflexivity.
Qed.

Lemma selectedRange_bestOf document position :
  selectedRange document position = bestOf position (candidatesAt document position).
Proof. reflexivity. Qed.

Lemma enclosesByName_iff text position tag e :
  plainNames text = true ->
  In tag (openingTags text) /\ countEncloses text position tag e <->
  enclosesByName text position tag e.
Proof.
  intros Hplain. unfold countEncloses, enclosesByName.
  rewrite openingTags_tagsOf. split.
  - intros (Hin & Hcl & Hpos). split; [exact Hin|]. split; [|exact Hpos].
    apply closesByName_iff; auto using plainNames_tag.
  - intros (Hin & Hcl & Hpos). split; [exact Hin|]. split; [|exact Hpos].
    apply closesByName_iff; auto using plainNames_tag.
Qed.

Lemma findEnclosingTags_balanced document position r :
  plainNames (getText document) = true ->
  findEnclosingTags document position = Some r ->
  balancedTagSpan (getText document) r.
Proof.
  intros Hplain H. apply findEnclosingTags_Some in H.
  destruct H as (_ & _ & tag & Hin & Hs & Hcl & _).
  rewrite openingTags_tagsOf in Hin.
  exists tag. split; [exact Hin|]. split; [exact Hs|].
  apply closesByName_iff; auto using plainNames_tag.
Qed.

(** The tag matcher and the count by name agree where no longer name
    follows a tag. *)
Lemma findEnclosingTags_byName document position :
  plainNames (getText document) = true ->
  match findEnclosingTags document position with
  | Some r =>
      exists tag e,
        r = mkRange (tag_end tag) e /\
        enclosesByName (getText document) position tag e /\
        forall tag' e', enclosesByName (getText document) position tag' e' ->
                        tag_end tag' <= tag_end tag
  | None => forall tag e, ~ enclosesByName (getText document) position tag e
  end.
Proof.
  intros Hplain.
  pose proof (findEnclosingTags_spec document position) as S.
  destruct (findEnclosingTags document position) as [r|].
  - destruct S as (tag & e & -> & Henc & Hmax).
    exists tag, e. split; [reflexivity|]. split.
    + apply (enclosesByName_iff _ _ _ _ Hplain), enclosingTag_iff, Henc.
    + intros tag' e' H'. apply (Hmax tag' e').
      apply enclosingTag_iff, (enclosesByName_iff _ _ _ _ Hplain), H'.
  - intros tag e H. apply (S tag e).
    apply enclosingTag_iff, (enclosesByName_iff _ _ _ _ Hplain), H.
Qed.


(** ** The claims *)

(** C1. A span returned by the bracket matcher or by the tag matcher, and so
    the span the command selects, has the query offset between its start and
    its end, and a span of the bracket matcher is the interior of a balanced
    pair.  A span of the tag matcher is the interior of a balanced pair, the
    depth being counted over the tags of its name, in every text where no
    opening tag is followed by one whose name begins with its own and is
    longer.  In other texts it need not be: in [<a><abbr>x</a>y</a>] with
    the cursor anywhere from the end of [<a>] to the second [</a>], behind
    [y] for one, the tag matcher returns, and the command selects, the text
    from the end of [<a>] to the second [</a>], although the first [</a>]
    brings the depth of [<a>] back to 0; in [<i><i><img>x</i></i>]
    with the cursor at [x] it returns the text from the end of the second
    [<i>] to the last [</i>].  The search for the name has counted [<abbr>]
    and [<img>]. *)
Theorem C1_span_behind_a_longer_name_is_not_balanced :
  (forall document position r,
     findEnclosingBrackets document position = Some r \/
     findEnclosingTags document position = Some r \/
     selectedRange document position = Some r ->
     start r <= offsetAt document position <= end_ r) /\
  (forall document position r,
     findEnclosingBrackets document position = Some r ->
     balancedBracketSpan (getText document) r) /\
  (forall document position r,
     plainNames (getText document) = true ->
     (findEnclosingTags document position = Some r ->
      balancedTagSpan (getText document) r) /\
     (selectedRange document position = Some r ->
      balancedBracketSpan (getText document) r \/
      balancedTagSpan (getText document) r)) /\
  (let document := doc "<a><abbr>x</a>y</a>" in
   let text := getText document in
   plainNames text = false /\
   tagsOf text = [mkTag 0 (js "a") 3; mkTag 3 (js "abbr") 9] /\
   tagsNamed text (js "a") 3 = [(10, true, 14); (15, true, 19)] /\
   closesByName text (mkTag 0 (js "a") 3) 10 /\
   (forall position, 3 <= position <= 15 ->
      findEnclosingTags document position = Some (mkRange 3 15) /\
      selectedRange document position = Some (mkRange 3 15)) /\
   ~ balancedTagSpan text (mkRange 3 15) /\
   ~ balancedBracketSpan text (mkRange 3 15)) /\
  (let document := doc "<i><i><img>x</i></i>" in
   let text := getText document in
   tagsNamed text (js "i") 6 = [(12, true, 16); (16, true, 20)] /\
   closesByName text (mkTag 3 (js "i") 6) 12 /\
   findEnclosingTags document 11 = Some (mkRange 6 16) /\
   ~ balancedTagSpan text (mkRange 6 16)).
Proof.
  split; [|split; [|split; [|split]]].
  - intros document position r H.
    assert (Hret : findEnclosingBrackets document position = Some r \/
                   findEnclosingTags document position = Some r).
    { destruct H as [H|[H|H]]; auto.
      apply selectedRange_In, candidatesAt_In in H. tauto. }
    unfold offsetAt. destruct Hret as [Hb|Ht].
    + apply findEnclosingBrackets_Some in Hb. lia.
    + apply findEnclosingTags_Some in Ht. lia.
  - intros document position r Hb.
    apply findEnclosingBrackets_Some in Hb. tauto.
  - intros document position r Hplain. split.
    + apply findEnclosingTags_balanced, Hplain.
    + intros H. apply selectedRange_In, candidatesAt_In in H.
      destruct H as [Ht|Hb].
      * right. exact (findEnclosingTags_balanced _ _ _ Hplain Ht).
      * left. apply findEnclosingBrackets_Some in Hb. tauto.
  - cbv zeta.
    assert (Hcl : closesByName (getText (doc "<a><abbr>x</a>y</a>"))
                               (mkTag 0 (js "a") 3) 10).
    { exists 0. split; [exists 14; vm_compute; reflexivity|].
      split; [vm_compute; reflexivity | intros k' Hk'; lia]. }
    split; [vm_compute; reflexivity|]. split; [vm_compute; reflexivity|].
    split; [vm_compute; reflexivity|]. split; [exact Hcl|].
    split.
    { intros position Hp.
      do 16 (destruct position as [|position];
             [try lia; split; vm_compute; reflexivity|]).
      lia. }
    split.
    + intros (tag & Hin & Hs & Hcl').
      assert (Htags : tagsOf (getText (doc "<a><abbr>x</a>y</a>"))
                      = [mkTag 0 (js "a") 3; mkTag 3 (js "abbr") 9])
        by (vm_compute; reflexivity).
      rewrite Htags in Hin. cbn [start end_] in Hs, Hcl'.
      destruct Hin as [<-|[<-|[]]]; [|cbn [tag_end] in Hs; lia].
      pose proof (closesByName_unique _ _ _ _ Hcl Hcl'). lia.
    + intros (p & i & Hs & Hcl'). cbn [start end_] in Hs, Hcl'.
      assert (i = 2) by lia. subst i.
      destruct Hcl' as (Hp & Hi & _).
      destruct Hp as [<-|[<-|[<-|[]]]]; vm_compute in Hi; discriminate.
  - cbv zeta.
    assert (Hcl : closesByName (getText (doc "<i><i><img>x</i></i>"))
                               (mkTag 3 (js "i") 6) 12).
    { exists 0. split; [exists 16; vm_compute; reflexivity|].
      split; [vm_compute; reflexivity | intros k' Hk'; lia]. }
    split; [vm_compute; reflexivity|]. split; [exact Hcl|].
    split; [vm_compute; reflexivity|].
    intros (tag & Hin & Hs & Hcl').
    assert (Htags : tagsOf (getText (doc "<i><i><img>x</i></i>"))
                    = [mkTag 0 (js "i") 3; mkTag 3 (js "i") 6;
                       mkTag 6 (js "img") 11])
      by (vm_compute; reflexivity).
    rewrite Htags in Hin. cbn [start end_] in Hs, Hcl'.
    destruct Hin as [<-|[<-|[<-|[]]]]; cbn [tag_end] in Hs; try lia.
    pose proof (closesByName_unique _ _ _ _ Hcl Hcl'). lia.
Qed.

(** C2. The bracket matcher returns the interior of the innermost balanced
    bracket pair that encloses the position: an enclosing pair, opened
    latest among the enclosing pairs, with no other enclosing pair inside
    it; it returns nothing exactly when no balanced pair encloses the
    position.  In [{ [ ( x ) ] }] with the cursor at [x] (before or after
    it) the result is the interior of [( x )], although the pairs opened at
    [[] and at [{] offer their interiors too. *)
Theorem C2_bracket_matcher_returns_innermost_pair :
  (forall document position,
     let text := getText document in
     match findEnclosingBrackets document position with
     | Some r =>
         exists i j,
           r = mkRange (i + 1) j /\
           enclosingPair text position i j /\
           (forall i' j', enclosingPair text position i' j' -> i' <= i) /\
           (forall i' j', enclosingPair text position i' j' ->
                          containsRange r (mkRange (i' + 1) j') = true ->
                          mkRange (i' + 1) j' = r)
     | None => forall i j, ~ enclosingPair text position i j
     end) /\
  (let document := doc "{ [ ( x ) ] }" in
   findEnclosingBrackets document 6 = Some (mkRange 5 8) /\
   findEnclosingBrackets document 7 = Some (mkRange 5 8) /\
   bracketStep document 6 2 None = Some (mkRange 3 10) /\
   bracketStep document 6 0 None = Some (mkRange 1 12)).
Proof.
  split.
  - intros document position text. subst text.
    pose proof (findEnclosingBrackets_spec document position) as S.
    destruct (findEnclosingBrackets document position) as [r|]; [|exact S].
    destruct S as (i & j & -> & Henc & Hmax).
    exists i, j. split; [reflexivity|]. split; [exact Henc|]. split; [exact Hmax|].
    intros i' j' Henc' Hc.
    apply containsRange_spec in Hc. simpl in Hc.
    pose proof (Hmax _ _ Henc') as Hle.
    assert (i' = i) by lia. subst i'.
    destruct Henc as [[p Hp] _], Henc' as [[q Hq] _].
    destruct (closesAt_unique _ _ _ _ _ _ Hp Hq) as [_ ->]. reflexivity.
  - cbv zeta. repeat split; vm_compute; reflexivity.
Qed.

(** C3. Every match of the forward search for the tag [name] is the closing
    tag [</name>], at which the depth goes down, or [<name] followed by any
    characters but [>] and by [>], at which it goes up: the pattern does not
    end the name, so an opening tag whose name only starts with [name] goes
    up too.  In [<a><abbr>x</abbr></a>] with the cursor between [<a>] and
    [<abbr>], the search for [a] counts [<abbr>]: the depth goes to 2, the
    one [</a>] brings it back to 1, no candidate is formed and the matcher
    returns nothing.  With [<b>] in the place of [<abbr>] the interior of
    [<a>] is returned. *)
Theorem C3_longer_name_changes_depth :
  (forall text name lastIndex m lastIndex',
      name <> [] -> forallb word name = true ->
      exec (closingTagRegex name) text lastIndex = (Some m, lastIndex') ->
      (isClosing m = true /\ matched m = js "</" ++ name ++ [chr ">"]) \/
      (isClosing m = false /\
       exists more, forallb notGt more = true /\
                    matched m = chr "<" :: name ++ more ++ [chr ">"])) /\
  (forall document position tag lastIndex depth bestRange more rest',
      tag_name tag <> [] -> forallb word (tag_name tag) = true ->
      forallb notGt more = true ->
      lastIndex <= length (getText document) ->
      skipn lastIndex (getText document)
      = chr "<" :: tag_name tag ++ more ++ chr ">" :: rest' ->
      closingLoop document position tag lastIndex depth bestRange =
      closingLoop document position tag
                  (lastIndex + (length (tag_name tag) + length more + 2))
                  (depth + 1) bestRange) /\
  (let document := doc "<a><abbr>x</abbr></a>" in
   let text := getText document in
   recordedTags document 3 = [mkTag 0 (js "a") 3; mkTag 3 (js "abbr") 9] /\
   map (fun m => (index m, matched m, isClosing m))
       (closingMatches text (js "a") 3)
   = [(3, js "<abbr>", false); (17, js "</a>", true)] /\
   tagDepth 1 (firstn 1 (closingMatches text (js "a") 3)) = 2%Z /\
   tagNeverCloses text (mkTag 0 (js "a") 3) /\
   findEnclosingTags document 3 = None /\
   findEnclosingTags (doc "<a><b>x</b></a>") 3 = Some (mkRange 3 11)).
Proof.
  split; [|split].
  - intros text name lastIndex m lastIndex' Hne Hword E.
    apply (closingTagRegex_match _ _ _ _ _ Hne Hword E).
  - intros. apply closingLoop_reopening with rest'; assumption.
  - cbv zeta. split; [vm_compute; reflexivity|].
    split; [vm_compute; reflexivity|].
    split; [vm_compute; reflexivity|].
    split; [|split; vm_compute; reflexivity].
    intros k Hk.
    assert (Hlen : length (closingMatches (getText (doc "<a><abbr>x</abbr></a>"))
                                          (js "a") 3) = 2)
      by (vm_compute; reflexivity).
    unfold tag_name, tag_end in Hk. rewrite Hlen in Hk.
    destruct k as [|[|k]]; [vm_compute; reflexivity | vm_compute; reflexivity | lia].
Qed.

(** C4. The selector keeps the candidates that hold the position, sorts
    them by start descending and then by end ascending, and takes the first:
    the one it takes starts no earlier than any other candidate that holds
    the position, and ends no later than any that starts with it.  So of two
    candidates the one that starts later is taken, and of two that start
    together the one that ends earlier, in whichever order they were pushed.
    The command applies the selector to the spans of the two matchers, the
    tag span pushed first. *)
Theorem C4_selector_prefers_later_start_then_earlier_end :
  (forall position candidates,
     let holding := filter (fun r => contains r position) candidates in
     let ranked := sort compareRanges holding in
     StronglySorted ranksBefore ranked /\
     Permutation ranked holding /\
     bestOf position candidates = hd_error ranked /\
     match bestOf position candidates with
     | Some w =>
         In w candidates /\ contains w position = true /\
         forall r, In r candidates -> contains r position = true ->
                   start r < start w \/ (start r = start w /\ end_ w <= end_ r)
     | None => forall r, In r candidates -> contains r position = false
     end) /\
  (forall position a b,
     contains a position = true -> contains b position = true ->
     (start b < start a ->
      bestOf position [a; b] = Some a /\ bestOf position [b; a] = Some a) /\
     (start a = start b -> end_ a < end_ b ->
      bestOf position [a; b] = Some a /\ bestOf position [b; a] = Some a)) /\
  (forall document selection,
     let position := active selection in
     selectedRange document position
     = bestOf position (candidatesAt document position) /\
     selectEnclosingAt document selection
     = match bestOf position (candidatesAt document position) with
       | Some bestRange => toSelection bestRange
       | None => selection
       end) /\
  (forall document position t b,
     findEnclosingTags document position = Some t ->
     findEnclosingBrackets document position = Some b ->
     candidatesAt document position = [t; b] /\
     (start b < start t -> selectedRange document position = Some t) /\
     (start t < start b -> selectedRange document position = Some b)) /\
  (bestOf 2 [mkRange 1 5; mkRange 1 3] = Some (mkRange 1 3) /\
   bestOf 2 [mkRange 1 3; mkRange 1 5] = Some (mkRange 1 3) /\
   bestOf 2 [mkRange 0 3; mkRange 1 5; mkRange 3 9; mkRange 1 4] = Some (mkRange 1 4) /\
   bestOf 2 [mkRange 3 4; mkRange 0 1] = None).
Proof.
  split; [|split; [|split; [|split]]].
  - intros position candidates holding ranked.
    split; [apply sort_sorted|]. split; [apply sort_perm|].
    split; [reflexivity|].
    pose proof (bestOf_spec position candidates) as H.
    destruct (bestOf position candidates) as [w|]; [|exact H].
    destruct H as (Hin & Hc & Hall). split; [exact Hin|]. split; [exact Hc|].
    intros r Hr Hcr. specialize (Hall r Hr Hcr). unfold ranksBefore in Hall. lia.
  - intros position a b Ha Hb. split.
    + intros H. apply bestOf_two; auto.
    + intros H1 H2. apply bestOf_two; auto.
  - intros document selection position. split; reflexivity.
  - intros document position t b Ht Hb.
    assert (Hc : candidatesAt document position = [t; b])
      by (unfold candidatesAt; rewrite Ht, Hb; reflexivity).
    split; [exact Hc|].
    pose proof (findEnclosingTags_contains _ _ _ Ht) as Hct.
    pose proof (findEnclosingBrackets_contains _ _ _ Hb) as Hcb.
    rewrite selectedRange_bestOf, Hc. split; intros H.
    + apply (bestOf_two position t b); auto.
    + apply (bestOf_two position b t); auto.
  - repeat split; vm_compute; reflexivity.
Qed.

(** C5. When neither matcher yields a span that contains a cursor's
    position, the command leaves the selection of that cursor as it was. *)
Theorem C5_no_match_leaves_selection_unchanged
        (document : TextDocument) (selections : list Selection)
        (k : nat) (selection : Selection) :
  nth_error selections k = Some selection ->
  (forall r, findEnclosingTags document (active selection) = Some r ->
             contains r (active selection) = false) ->
  (forall r, findEnclosingBrackets document (active selection) = Some r ->
             contains r (active selection) = false) ->
  nth_error (selectEnclosing document selections) k = Some selection.
Proof.
  intros Hk Ht Hb. unfold selectEnclosing.
  rewrite nth_error_map, Hk. simpl. f_equal.
  rewrite selectEnclosingAt_selected.
  destruct (selectedRange document (active selection)) as [r|] eqn:Hsel;
    [|reflexivity].
  exfalso. apply selectedRange_In in Hsel.
  pose proof (candidatesAt_contain _ _ _ Hsel) as Hc.
  apply candidatesAt_In in Hsel. destruct Hsel as [H|H].
  - rewrite (Ht r H) in Hc. discriminate.
  - rewrite (Hb r H) in Hc. discriminate.
Qed.

Lemma C5_witness :
  findEnclosingTags (doc "(a") 2 = None /\
  findEnclosingBrackets (doc "(a") 2 = None /\
  nth_error (selectEnclosing (doc "(a") [mkSelection 0 0; mkSelection 2 2]) 1
  = Some (mkSelection 2 2).
Proof.
  split; [vm_compute; reflexivity|]. split; [vm_compute; reflexivity|].
  apply (C5_no_match_leaves_selection_unchanged
           (doc "(a") [mkSelection 0 0; mkSelection 2 2] 1 (mkSelection 2 2)).
  - reflexivity.
  - intros r H. vm_compute in H. discriminate.
  - intros r H. vm_compute in H. discriminate.
Defined.

(** C6. An opening delimiter, or an opening tag, that is never closed in
    the rest of the text offers no candidate: the step of the matcher that
    examines it leaves [bestRange] as it was, and the matcher never returns
    a span that starts just after it.  For [(a] with the cursor after [a]
    the bracket matcher returns nothing, and so does the tag matcher for
    [<a>x] with the cursor after [x]. *)
Theorem C6_unclosed_opening_offers_no_candidate :
  (forall document position i bracketPair,
     In bracketPair brackets ->
     nth_error (getText document) i = Some (fst bracketPair) ->
     neverCloses (getText document) bracketPair i ->
     (forall bestRange,
         bracketStep document position i bestRange = bestRange) /\
     (forall r, findEnclosingBrackets document position = Some r ->
                start r <> i + 1)) /\
  (forall document position tag,
     In tag (openingTags (getText document)) ->
     tagNeverCloses (getText document) tag ->
     (forall bestRange,
         tagStep document position (Some tag) bestRange = bestRange) /\
     (forall r, findEnclosingTags document position = Some r ->
                start r <> tag_end tag)) /\
  (neverCloses (js "(a") (chr "(", chr ")") 0 /\
   findEnclosingBrackets (doc "(a") 2 = None) /\
  (openingTags (js "<a>x") = [mkTag 0 (js "a") 3] /\
   tagNeverCloses (js "<a>x") (mkTag 0 (js "a") 3) /\
   findEnclosingTags (doc "<a>x") 4 = None).
Proof.
  split; [|split; [|split]].
  - intros document position i bracketPair Hin Hi Hnever. split.
    + intros bestRange. apply bracketStep_unclosed with bracketPair; assumption.
    + intros r Hr Hstart.
      apply findEnclosingBrackets_Some in Hr.
      destruct Hr as (_ & _ & p & i0 & Hs & Hcl).
      assert (i0 = i) by lia. subst i0.
      pose proof (closesAt_inside _ _ _ _ Hcl) as Hj.
      destruct Hcl as (Hp & Hi' & _ & _ & Hz & _).
      assert (p = bracketPair) by (apply brackets_open_inj; congruence). subst p.
      specialize (Hnever (end_ r) ltac:(lia)). lia.
  - intros document position tag Hin Hnever. split.
    + intros bestRange. apply tagStep_unclosed. exact Hnever.
    + intros r Hr Hstart.
      apply findEnclosingTags_Some in Hr.
      destruct Hr as (_ & _ & tag0 & Hin0 & Hs & [k Hk] & _).
      assert (tag0 = tag) by (apply (openingTags_end_inj _ _ _ Hin0 Hin); lia).
      subst tag0. exact (firstZeroAt_not_neverZero _ _ _ _ Hk Hnever).
  - split; [|vm_compute; reflexivity].
    intros k Hk. simpl in Hk. assert (k = 1) by lia. subst k.
    vm_compute. reflexivity.
  - split; [vm_compute; reflexivity|]. split; [|vm_compute; reflexivity].
    intros k Hk. exfalso. revert Hk. vm_compute. lia.
Qed.

(** C7. In a text where no opening tag is followed by one whose name
    begins with its own and is longer, the tag matcher returns the interior
    of the innermost enclosing tag: of an opening tag of the text that the
    tags of its name close and whose interior holds the position, the last
    such tag, with no other such interior inside it; and it returns nothing
    exactly when there is no such tag.  In [<a><b>text</b></a>] with the
    cursor in [text] it is the interior of [<b>]; in
    [<div><div>x</div></div>] it is the interior of the inner [<div>] with
    the cursor at [x], and of the outer one with the cursor between the two
    opening tags.  In [<a><abbr>x</abbr></a>] with the cursor between [<a>]
    and [<abbr>] the tag [<a>], closed by [</a>], is the one enclosing tag,
    and the matcher returns nothing. *)
Theorem C7_enclosing_tag_before_a_longer_name_is_missed :
  (forall document position,
     let text := getText document in
     plainNames text = true ->
     match findEnclosingTags document position with
     | Some r =>
         exists tag e,
           r = mkRange (tag_end tag) e /\
           enclosesByName text position tag e /\
           (forall tag' e', enclosesByName text position tag' e' ->
                            tag_end tag' <= tag_end tag) /\
           (forall tag' e', enclosesByName text position tag' e' ->
                            containsRange r (mkRange (tag_end tag') e') = true ->
                            mkRange (tag_end tag') e' = r)
     | None => forall tag e, ~ enclosesByName text position tag e
     end) /\
  (let document := doc "<a><b>text</b></a>" in
   plainNames (getText document) = true /\
   forall position, 6 <= position <= 10 ->
     findEnclosingTags document position = Some (mkRange 6 10)) /\
  (let document := doc "<div><div>x</div></div>" in
   plainNames (getText document) = true /\
   findEnclosingTags document 10 = Some (mkRange 10 11) /\
   findEnclosingTags document 11 = Some (mkRange 10 11) /\
   findEnclosingTags document 5 = Some (mkRange 5 17)) /\
  (let document := doc "<a><abbr>x</abbr></a>" in
   let text := getText document in
   plainNames text = false /\
   tagsOf text = [mkTag 0 (js "a") 3; mkTag 3 (js "abbr") 9] /\
   tagsNamed text (js "a") 3 = [(17, true, 21)] /\
   enclosesByName text 3 (mkTag 0 (js "a") 3) 17 /\
   (forall tag e, enclosesByName text 3 tag e ->
                  mkRange (tag_end tag) e = mkRange 3 17) /\
   findEnclosingTags document 3 = None).
Proof.
  split; [|split; [|split]].
  - intros document position text Hplain. subst text.
    pose proof (findEnclosingTags_byName document position Hplain) as S.
    destruct (findEnclosingTags document position) as [r|]; [|exact S].
    destruct S as (tag & e & -> & Henc & Hmax).
    exists tag, e. split; [reflexivity|]. split; [exact Henc|].
    split; [exact Hmax|].
    intros tag' e' Henc' Hc.
    apply containsRange_spec in Hc. simpl in Hc.
    pose proof (Hmax _ _ Henc') as Hle.
    destruct Henc as (Hin & Hcl & _), Henc' as (Hin' & Hcl' & _).
    assert (tag' = tag) by (apply (tagsOf_end_inj _ _ _ Hin' Hin); lia).
    subst tag'. rewrite (closesByName_unique _ _ _ _ Hcl' Hcl). reflexivity.
  - cbv zeta. split; [vm_compute; reflexivity|]. intros position Hp.
    assert (H : position = 6 \/ position = 7 \/ position = 8 \/
                position = 9 \/ position = 10) by lia.
    destruct H as [->|[->|[->|[->| ->]]]]; vm_compute; reflexivity.
  - cbv zeta. repeat split; vm_compute; reflexivity.
  - cbv zeta.
    assert (Htags : tagsOf (getText (doc "<a><abbr>x</abbr></a>"))
                    = [mkTag 0 (js "a") 3; mkTag 3 (js "abbr") 9])
      by (vm_compute; reflexivity).
    assert (Hcl : closesByName (getText (doc "<a><abbr>x</abbr></a>"))
                               (mkTag 0 (js "a") 3) 17).
    { exists 0. split; [exists 21; vm_compute; reflexivity|].
      split; [vm_compute; reflexivity | intros k' Hk'; lia]. }
    split; [vm_compute; reflexivity|]. split; [exact Htags|].
    split; [vm_compute; reflexivity|].
    split; [split; [rewrite Htags; left; reflexivity | split; [exact Hcl | simpl; lia]]|].
    split; [|vm_compute; reflexivity].
    intros tag e (Hin & Hcl' & Hpos). rewrite Htags in Hin.
    destruct Hin as [<-|[<-|[]]]; [|cbn [tag_end] in Hpos; lia].
    now rewrite (closesByName_unique _ _ _ _ Hcl' Hcl).
Qed.

(** C8. Both matchers are functions of the text and the query offset
    alone: on documents with the same text, at positions with the same
    offset, each returns the same span or nothing, and the tag matcher does
    so in whatever heap of regular expression objects it is called.  It
    leaves every object it found as it was, and called again in the heap it
    left it returns the same again: a call reads and writes the objects it
    has made itself, and [lastIndex], which outlives a loop
    ([lastIndex_outlives_the_loop]), never passes from one call to the next.
    The bracket matcher uses no object. *)
Theorem C8_matchers_are_functions_of_text_and_offset
        (document1 document2 : TextDocument) (position1 position2 : Position)
        (heap1 heap2 : Heap) :
  getText document1 = getText document2 ->
  offsetAt document1 position1 = offsetAt document2 position2 ->
  findEnclosingBrackets document1 position1 =
  findEnclosingBrackets document2 position2 /\
  fst (findEnclosingTagsOn heap1 document1 position1) =
  fst (findEnclosingTagsOn heap2 document2 position2) /\
  (let heap' := snd (findEnclosingTagsOn heap1 document1 position1) in
   firstn (length heap1) heap' = heap1 /\
   fst (findEnclosingTagsOn heap' document1 position1) =
   fst (findEnclosingTagsOn heap1 document1 position1)) /\
  fst (findEnclosingTagsOn heap1 document1 position1) =
  findEnclosingTags document1 position1.
Proof.
  intros Htext Hoff.
  assert (Hpure : findEnclosingBrackets document1 position1 =
                  findEnclosingBrackets document2 position2 /\
                  findEnclosingTags document1 position1 =
                  findEnclosingTags document2 position2).
  { destruct document1 as [text1], document2 as [text2]. simpl in Htext.
    subst text2. unfold offsetAt in Hoff. simpl in Hoff.
    destruct (Nat.eq_dec position1 position2) as [->|Hne]; [split; reflexivity|].
    destruct (matchers_past_the_end (mkDocument text1) position1) as [Hb1 Ht1];
      [simpl; lia|].
    destruct (matchers_past_the_end (mkDocument text1) position2) as [Hb2 Ht2];
      [simpl; lia|].
    rewrite Hb1, Hb2, Ht1, Ht2. split; reflexivity. }
  destruct Hpure as [Hb Ht].
  destruct (findEnclosingTagsOn_spec heap1 document1 position1) as [more1 E1].
  destruct (findEnclosingTagsOn_spec heap2 document2 position2) as [more2 E2].
  rewrite E1, E2. cbn [fst snd].
  split; [exact Hb|]. split; [exact Ht|]. split; [|reflexivity].
  split.
  - rewrite firstn_app, Nat.sub_diag, firstn_all. simpl. apply app_nil_r.
  - destruct (findEnclosingTagsOn_spec (heap1 ++ more1) document1 position1)
      as [more3 ->]. reflexivity.
Qed.

Lemma C8_witness :
  fst (findEnclosingTagsOn [] (doc "<a>(x)</a>") 5) = Some (mkRange 3 6) /\
  fst (findEnclosingTagsOn [mkRegExp OpeningTag 9; mkRegExp (ClosingTag (js "a")) 4]
                           (doc "<a>(x)</a>") 5) = Some (mkRange 3 6) /\
  getText (doc "<a>(x)</a>") = getText (mkDocument (js "<a>" ++ js "(x)</a>")) /\
  offsetAt (doc "<a>(x)</a>") 12 = offsetAt (mkDocument (js "<a>" ++ js "(x)</a>")) 25 /\
  fst (findEnclosingTagsOn [] (doc "<a>(x)</a>") 12) =
  fst (findEnclosingTagsOn [mkRegExp OpeningTag 9; mkRegExp (ClosingTag (js "a")) 4]
                           (mkDocument (js "<a>" ++ js "(x)</a>")) 25).
Proof.
  split; [vm_compute; reflexivity|]. split; [vm_compute; reflexivity|].
  split; [reflexivity|]. split; [reflexivity|].
  apply (C8_matchers_are_functions_of_text_and_offset
           (doc "<a>(x)</a>") (mkDocument (js "<a>" ++ js "(x)</a>")) 12 25
           [] [mkRegExp OpeningTag 9; mkRegExp (ClosingTag (js "a")) 4]);
    reflexivity.
Defined.

(** C9. The interior of a pair is taken inclusive at both ends and leaves
    the opening delimiter out.  With the position on the opening bracket (or
    before it), or inside the text of the opening tag, the step that
    examines the pair leaves [bestRange] as it was, the matcher does not
    return the interior of that pair and the command does not select it.
    With the position anywhere from the
    start of the interior to its end, the closing delimiter's own offset,
    the step accepts the interior when nothing is kept yet, and the matcher
    returns a span that starts no earlier.  So for [(x)] the interior is
    returned at offsets 1 and 2 and not at 0; for [<a>x</a>] at offsets 3
    and 4 and not at 0, 1 or 2. *)
Theorem C9_interior_is_inclusive_and_excludes_the_opening :
  (forall document position bracketPair i j,
     closesAt (getText document) bracketPair i j ->
     (position <= i ->
      (forall bestRange,
          bracketStep document position i bestRange = bestRange) /\
      findEnclosingBrackets document position <> Some (mkRange (i + 1) j) /\
      selectedRange document position <> Some (mkRange (i + 1) j)) /\
     (i + 1 <= position <= j ->
      contains (mkRange (i + 1) j) position = true /\
      bracketStep document position i None = Some (mkRange (i + 1) j) /\
      exists r, findEnclosingBrackets document position = Some r /\
                i + 1 <= start r)) /\
  (forall document position tag e,
     In tag (openingTags (getText document)) ->
     tagClosesAt (getText document) tag e ->
     (position < tag_end tag ->
      (forall bestRange,
          tagStep document position (Some tag) bestRange = bestRange) /\
      findEnclosingTags document position <> Some (mkRange (tag_end tag) e) /\
      selectedRange document position <> Some (mkRange (tag_end tag) e)) /\
     (tag_end tag <= position <= e ->
      contains (mkRange (tag_end tag) e) position = true /\
      tagStep document position (Some tag) None = Some (mkRange (tag_end tag) e) /\
      exists r, findEnclosingTags document position = Some r /\
                tag_end tag <= start r)) /\
  (closesAt (js "(x)") (chr "(", chr ")") 0 2 /\
   findEnclosingBrackets (doc "(x)") 0 = None /\
   findEnclosingBrackets (doc "(x)") 1 = Some (mkRange 1 2) /\
   findEnclosingBrackets (doc "(x)") 2 = Some (mkRange 1 2) /\
   openingTags (js "<a>x</a>") = [mkTag 0 (js "a") 3] /\
   tagClosesAt (js "<a>x</a>") (mkTag 0 (js "a") 3) 4 /\
   findEnclosingTags (doc "<a>x</a>") 0 = None /\
   findEnclosingTags (doc "<a>x</a>") 1 = None /\
   findEnclosingTags (doc "<a>x</a>") 2 = None /\
   findEnclosingTags (doc "<a>x</a>") 3 = Some (mkRange 3 4) /\
   findEnclosingTags (doc "<a>x</a>") 4 = Some (mkRange 3 4)).
Proof.
  split; [|split].
  - intros document position bracketPair i j Hcl. split.
    + intros Hpos. split.
      * intros bestRange. rewrite (bracketStep_closes _ _ _ _ _ _ Hcl).
        apply keepInner_outside.
        destruct (contains (mkRange (i + 1) j) position) eqn:E; [|reflexivity].
        apply contains_spec in E. simpl in E. lia.
      * split; intros H.
        -- apply findEnclosingBrackets_Some in H. simpl in H. lia.
        -- apply selectedRange_contains, contains_spec in H. simpl in H. lia.
    + intros Hpos.
      assert (Hc : contains (mkRange (i + 1) j) position = true)
        by (apply contains_spec; simpl; lia).
      split; [exact Hc|]. split.
      * rewrite (bracketStep_closes _ _ _ _ _ _ Hcl), keepInner_None, Hc.
        reflexivity.
      * pose proof (findEnclosingBrackets_spec document position) as S.
        assert (Henc : enclosingPair (getText document) position i j)
          by (split; [exists bracketPair; exact Hcl | exact Hpos]).
        destruct (findEnclosingBrackets document position) as [r|].
        -- destruct S as (i0 & j0 & -> & _ & Hmax).
           exists (mkRange (i0 + 1) j0). split; [reflexivity|].
           specialize (Hmax _ _ Henc). simpl. lia.
        -- exfalso. exact (S _ _ Henc).
  - intros document position tag e Hin Hcl. split.
    + intros Hpos. split.
      * intros bestRange. rewrite (tagStep_closes _ _ _ _ _ Hcl).
        apply keepInner_outside.
        destruct (contains (mkRange (tag_end tag) e) position) eqn:E;
          [|reflexivity].
        apply contains_spec in E. simpl in E. lia.
      * split; intros H.
        -- apply findEnclosingTags_Some in H. simpl in H. lia.
        -- apply selectedRange_contains, contains_spec in H. simpl in H. lia.
    + intros Hpos.
      assert (Hc : contains (mkRange (tag_end tag) e) position = true)
        by (apply contains_spec; simpl; lia).
      split; [exact Hc|]. split.
      * rewrite (tagStep_closes _ _ _ _ _ Hcl), keepInner_None, Hc.
        reflexivity.
      * pose proof (findEnclosingTags_spec document position) as S.
        assert (Henc : enclosingTag document position tag e).
        { apply enclosingTag_iff. split; [exact Hin|]. split; assumption. }
        destruct (findEnclosingTags document position) as [r|].
        -- destruct S as (tag0 & e0 & -> & _ & Hmax).
           exists (mkRange (tag_end tag0) e0). split; [reflexivity|].
           specialize (Hmax _ _ Henc). simpl. lia.
        -- exfalso. exact (S _ _ Henc).
  - split.
    { split; [simpl; auto|]. split; [reflexivity|]. split; [lia|].
      split; [reflexivity|]. split; [vm_compute; reflexivity|].
      intros k Hk. assert (k = 1) by lia. subst k. vm_compute. reflexivity. }
    do 3 (split; [vm_compute; reflexivity|]).
    split; [vm_compute; reflexivity|].
    split.
    { exists 0. split; [|split].
      - eexists. split; [vm_compute; reflexivity|]. split; reflexivity.
      - vm_compute. reflexivity.
      - intros k' Hk'. lia. }
    repeat split; vm_compute; reflexivity.
Qed.

(** C10. For every cursor of the command the containment filter keeps
    every candidate, the candidates being exactly the spans the matchers
    return; the command leaves the selection of the cursor as it was when
    both matchers return nothing, and otherwise puts in its place the
    interior one of them returned.  The command returns as many selections
    as it was given. *)
Theorem C10_selection_replaced_iff_a_matcher_succeeds
        (document : TextDocument) (selections : list Selection)
        (k : nat) (selection : Selection) :
  nth_error selections k = Some selection ->
  let position := active selection in
  length (selectEnclosing document selections) = length selections /\
  filter (fun r => contains r position) (candidatesAt document position)
  = candidatesAt document position /\
  (forall r, In r (candidatesAt document position) <->
             findEnclosingTags document position = Some r \/
             findEnclosingBrackets document position = Some r) /\
  match findEnclosingTags document position,
        findEnclosingBrackets document position with
  | None, None =>
      selectedRange document position = None /\
      nth_error (selectEnclosing document selections) k = Some selection
  | tagRange, bracketRange =>
      exists r, (tagRange = Some r \/ bracketRange = Some r) /\
                selectedRange document position = Some r /\
                nth_error (selectEnclosing document selections) k
                = Some (toSelection r)
  end.
Proof.
  intros Hk position.
  assert (Hnth : nth_error (selectEnclosing document selections) k
                 = Some (selectEnclosingAt document selection)).
  { unfold selectEnclosing. rewrite nth_error_map, Hk. reflexivity. }
  split; [apply length_map|].
  split; [apply candidatesAt_filter|]. split; [apply candidatesAt_In|].
  rewrite Hnth.
  assert (Hsome : forall r,
             selectedRange document position = Some r ->
             exists r0,
               (findEnclosingTags document position = Some r0 \/
                findEnclosingBrackets document position = Some r0) /\
               selectedRange document position = Some r0 /\
               Some (selectEnclosingAt document selection) = Some (toSelection r0)).
  { intros r Hr. exists r. split.
    - apply candidatesAt_In, selectedRange_In, Hr.
    - split; [exact Hr|]. rewrite selectEnclosingAt_selected.
      fold position. now rewrite Hr. }
  assert (Hex : candidatesAt document position <> [] ->
                exists r, selectedRange document position = Some r).
  { intros Hne. unfold selectedRange. rewrite candidatesAt_filter.
    pose proof (sort_perm (candidatesAt document position)) as Hp.
    destruct (sort compareRanges (candidatesAt document position)) as [|w l].
    - apply Permutation_nil in Hp. congruence.
    - exists w. reflexivity. }
  destruct (findEnclosingTags document position) as [t|] eqn:Ht;
    destruct (findEnclosingBrackets document position) as [b|] eqn:Hb.
  - destruct Hex as [r Hr];
      [unfold candidatesAt; rewrite Ht, Hb; discriminate|].
    exact (Hsome r Hr).
  - destruct Hex as [r Hr];
      [unfold candidatesAt; rewrite Ht, Hb; discriminate|].
    exact (Hsome r Hr).
  - destruct Hex as [r Hr];
      [unfold candidatesAt; rewrite Ht, Hb; discriminate|].
    exact (Hsome r Hr).
  - assert (Hnone : selectedRange document position = None).
    { unfold selectedRange, candidatesAt. rewrite Ht, Hb. reflexivity. }
    split; [exact Hnone|].
    rewrite selectEnclosingAt_selected. fold position. now rewrite Hnone.
Qed.

Lemma C10_witness :
  nth_error [mkSelection 0 0; mkSelection 2 5; mkSelection 6 6] 1
  = Some (mkSelection 2 5) /\
  selectEnclosing (doc "<a>(x)</a>")
                  [mkSelection 0 0; mkSelection 2 5; mkSelection 6 6]
  = [mkSelection 0 0; mkSelection 4 5; mkSelection 3 6] /\
  exists r,
    (findEnclosingTags (doc "<a>(x)</a>") 5 = Some r \/
     findEnclosingBrackets (doc "<a>(x)</a>") 5 = Some r) /\
    selectedRange (doc "<a>(x)</a>") 5 = Some r /\
    nth_error (selectEnclosing (doc "<a>(x)</a>")
                 [mkSelection 0 0; mkSelection 2 5; mkSelection 6 6]) 1
    = Some (toSelection r).
Proof.
  split; [reflexivity|]. split; [vm_compute; reflexivity|].
  pose proof (C10_selection_replaced_iff_a_matcher_succeeds
                (doc "<a>(x)</a>")
                [mkSelection 0 0; mkSelection 2 5; mkSelection 6 6]
                1 (mkSelection 2 5) eq_refl) as H.
  cbv zeta in H. destruct H as (_ & _ & _ & H).
  change (active (mkSelection 2 5)) with 5 in H.
  replace (findEnclosingTags (doc "<a>(x)</a>") 5) with (Some (mkRange 3 6)) in H
    by (vm_compute; reflexivity).
  replace (findEnclosingBrackets (doc "<a>(x)</a>") 5) with (Some (mkRange 4 5)) in H
    by (vm_compute; reflexivity).
  destruct H as (r & Hr & Hsel & Hnth). exists r.
  replace (findEnclosingTags (doc "<a>(x)</a>") 5) with (Some (mkRange 3 6))
    by (vm_compute; reflexivity).
  replace (findEnclosingBrackets (doc "<a>(x)</a>") 5) with (Some (mkRange 4 5))
    by (vm_compute; reflexivity).
  auto.
Defined.

(** * More of the code: edges, invariants and how the parts compose *)

(** ** Where a piece of text lies *)

Lemma slice_incl text a b c : In c (slice text a b) -> In c text.
Proof.
  unfold slice. intros H.
  rewrite <- (firstn_skipn a text). apply in_or_app. right.
  rewrite <- (firstn_skipn (b - a) (skipn a text)). apply in_or_app. left.
  exact H.
Qed.

Lemma occursAt_In text i s c : occursAt text i s -> In c s -> In c text.
Proof.
  unfold occursAt. intros H Hc. rewrite <- H in Hc.
  exact (slice_incl _ _ _ _ Hc).
Qed.

Lemma occursAt_nth text i s k c :
  occursAt text i s -> nth_error s k = Some c ->
  nth_error text (i + k) = Some c.
Proof.
  unfold occursAt, slice. intros H Hk. rewrite <- H in Hk.
  rewrite nth_error_firstn in Hk.
  destruct (k <? i + length s - i); [|discriminate].
  rewrite nth_error_skipn in Hk. exact Hk.
Qed.

Lemma occursAt_fits text i s :
  occursAt text i s -> s <> [] -> i + length s <= length text.
Proof.
  unfold occursAt, slice. intros H Hne.
  assert (Hl : length (firstn (i + length s - i) (skipn i text)) = length s)
    by (rewrite H; reflexivity).
  rewrite length_firstn, length_skipn in Hl.
  destruct s; [contradiction|]. simpl in *. lia.
Qed.

Lemma nth_error_last_of_three {A} (l1 l2 : list A) x :
  nth_error (l1 ++ l2 ++ [x]) (length l1 + length l2) = Some x.
Proof.
  rewrite app_assoc, nth_error_app2 by (rewrite length_app; lia).
  rewrite length_app, Nat.sub_diag. reflexivity.
Qed.

(** An opening tag starts with [<], ends with [>] just before [tag.end],
    and lies inside the text. *)
Lemma isOpeningTag_delimiters text tag :
  isOpeningTag text tag ->
  nth_error text (tag_index tag) = Some (chr "<") /\
  nth_error text (tag_end tag - 1) = Some (chr ">") /\
  tag_index tag + 3 <= tag_end tag <= length text.
Proof.
  intros (Hne & _ & attrs & _ & Hocc & Hend).
  assert (Hlen : 1 <= length (tag_name tag))
    by (destruct (tag_name tag); [contradiction | simpl; lia]).
  split; [|split].
  - rewrite <- (Nat.add_0_r (tag_index tag)).
    apply (occursAt_nth _ _ _ _ _ Hocc). reflexivity.
  - replace (tag_end tag - 1)
      with (tag_index tag + S (length (tag_name tag) + length attrs)) by lia.
    apply (occursAt_nth _ _ _ _ _ Hocc). simpl.
    apply nth_error_last_of_three.
  - split; [lia|]. apply occursAt_fits in Hocc; [|discriminate].
    simpl in Hocc. rewrite !length_app in Hocc. simpl in Hocc. lia.
Qed.

(** ** The two candidates of a cursor *)

Lemma selectedRange_cases document position :
  selectedRange document position =
  match findEnclosingTags document position,
        findEnclosingBrackets document position with
  | Some t, Some b => Some (if (compareRanges t b <=? 0)%Z then t else b)
  | Some t, None => Some t
  | None, Some b => Some b
  | None, None => None
  end.
Proof.
  unfold selectedRange. rewrite candidatesAt_filter. unfold candidatesAt.
  destruct (findEnclosingTags document position) as [t|];
    destruct (findEnclosingBrackets document position) as [b|]; simpl pushIf;
    try reflexivity.
  rewrite sort_two. destruct (compareRanges t b <=? 0)%Z; reflexivity.
Qed.

Lemma bracket_span_opener document position b :
  findEnclosingBrackets document position = Some b ->
  exists bracketPair,
    In bracketPair brackets /\ 1 <= start b /\
    nth_error (getText document) (start b - 1) = Some (fst bracketPair).
Proof.
  intros H. apply findEnclosingBrackets_Some in H.
  destruct H as (_ & _ & p & i & Hs & Hin & Hi & _).
  exists p. rewrite Hs. replace (i + 1 - 1) with i by lia.
  split; [exact Hin|]. split; [lia | exact Hi].
Qed.

Lemma tag_span_opener document position t :
  findEnclosingTags document position = Some t ->
  3 <= start t /\ nth_error (getText document) (start t - 1) = Some (chr ">").
Proof.
  intros H. apply findEnclosingTags_Some in H.
  destruct H as (_ & _ & tag & Hin & Hs & _).
  apply openingTags_opening, isOpeningTag_delimiters in Hin.
  rewrite Hs. split; [lia | tauto].
Qed.

Lemma candidates_never_tie document position t b :
  findEnclosingTags document position = Some t ->
  findEnclosingBrackets document position = Some b ->
  start t <> start b.
Proof.
  intros Ht Hb Heq.
  apply tag_span_opener in Ht. destruct Ht as [_ Ht].
  apply bracket_span_opener in Hb. destruct Hb as (p & Hin & _ & Hb).
  rewrite Heq, Hb in Ht.
  destruct Hin as [<-|[<-|[<-|[]]]]; discriminate.
Qed.

(** Of a tag candidate and a bracket candidate, the one that starts later
    is selected. *)
Lemma selectedRange_two document position t b :
  findEnclosingTags document position = Some t ->
  findEnclosingBrackets document position = Some b ->
  selectedRange document position =
  Some (if start b <? start t then t else b).
Proof.
  intros Ht Hb. pose proof (candidates_never_tie _ _ _ _ Ht Hb) as Hne.
  rewrite selectedRange_cases, Ht, Hb. f_equal.
  destruct (compareRanges t b <=? 0)%Z eqn:E.
  - apply compareRanges_le in E. unfold ranksBefore in E.
    destruct (Nat.ltb_spec (start b) (start t)); [reflexivity | lia].
  - destruct (Nat.ltb_spec (start b) (start t)) as [Hlt|_]; [|reflexivity].
    assert (ranksBefore t b) by (left; exact Hlt).
    apply compareRanges_le in H. congruence.
Qed.

(** ** The edges of the document *)

Lemma matchers_at_offset_zero document :
  findEnclosingBrackets document 0 = None /\
  findEnclosingTags document 0 = None.
Proof.
  split.
  - destruct (findEnclosingBrackets document 0) as [r|] eqn:E; [|reflexivity].
    pose proof (bracket_span_opener _ _ _ E) as (_ & _ & H & _).
    apply findEnclosingBrackets_Some in E. lia.
  - destruct (findEnclosingTags document 0) as [r|] eqn:E; [|reflexivity].
    pose proof (tag_span_opener _ _ _ E) as [H _].
    apply findEnclosingTags_Some in E. lia.
Qed.

(** X1. With the cursor at the very start of the document, or at its end
    or beyond, neither matcher returns a span and the command leaves the
    selection as it is: an interior starts after an opening delimiter and
    ends before a closing one. *)
Theorem X1_nothing_is_selected_at_the_document_edges
        (document : TextDocument) (position : Position) :
  position = 0 \/ length (getText document) <= position ->
  findEnclosingBrackets document position = None /\
  findEnclosingTags document position = None /\
  forall anchor,
    selectEnclosingAt document (mkSelection anchor position)
    = mkSelection anchor position.
Proof.
  intros H.
  assert (Hnone : findEnclosingBrackets document position = None /\
                  findEnclosingTags document position = None).
  { destruct H as [->|H].
    - apply matchers_at_offset_zero.
    - apply matchers_past_the_end, H. }
  destruct Hnone as [Hb Ht]. split; [exact Hb|]. split; [exact Ht|].
  intros anchor. rewrite selectEnclosingAt_selected. simpl active.
  rewrite selectedRange_cases, Hb, Ht. reflexivity.
Qed.

Lemma X1_witness :
  length (getText (doc "(a)")) <= 3 /\
  findEnclosingBrackets (doc "(a)") 3 = None /\
  findEnclosingTags (doc "(a)") 3 = None /\
  forall anchor,
    selectEnclosingAt (doc "(a)") (mkSelection anchor 3) = mkSelection anchor 3.
Proof.
  split; [vm_compute; lia|].
  apply (X1_nothing_is_selected_at_the_document_edges (doc "(a)") 3).
  right. vm_compute. lia.
Defined.

(** ** Text without delimiters *)

(** X2. In a text that holds no opening bracket, or no closing bracket, the
    bracket matcher returns nothing at any position. *)
Theorem X2_no_bracket_no_span (document : TextDocument) :
  (forall bracketPair, In bracketPair brackets ->
                       ~ In (fst bracketPair) (getText document)) \/
  (forall bracketPair, In bracketPair brackets ->
                       ~ In (snd bracketPair) (getText document)) ->
  forall position, findEnclosingBrackets document position = None.
Proof.
  intros H position.
  destruct (findEnclosingBrackets document position) as [r|] eqn:E;
    [|reflexivity].
  exfalso. apply findEnclosingBrackets_Some in E.
  destruct E as (_ & _ & p & i & _ & Hin & Hi & _ & Hj & _).
  apply nth_error_In in Hi, Hj.
  destruct H as [H|H]; exact (H p Hin ltac:(assumption)).
Qed.

Lemma X2_witness :
  (forall bracketPair, In bracketPair brackets ->
                       ~ In (snd bracketPair) (getText (doc "a(b[c{d"))) /\
  forall position, findEnclosingBrackets (doc "a(b[c{d") position = None.
Proof.
  assert (H : forall bracketPair, In bracketPair brackets ->
                ~ In (snd bracketPair) (getText (doc "a(b[c{d"))).
  { intros p [<-|[<-|[<-|[]]]] Hin; vm_compute in Hin;
      repeat (destruct Hin as [Hin|Hin]; [discriminate|]); exact Hin. }
  split; [exact H|].
  apply (X2_no_bracket_no_span (doc "a(b[c{d")). right. exact H.
Defined.

(** X3. In a text that holds no [<], or no [/], the tag matcher returns
    nothing at any position: a span needs an opening tag before it and a
    closing tag [</name>] at its end. *)
Theorem X3_no_tag_no_span (document : TextDocument) :
  ~ In (chr "<") (getText document) \/ ~ In (chr "/") (getText document) ->
  forall position, findEnclosingTags document position = None.
Proof.
  intros H position.
  destruct (findEnclosingTags document position) as [r|] eqn:E; [|reflexivity].
  exfalso. apply findEnclosingTags_Some in E.
  destruct E as (_ & _ & tag & _ & _ & _ & Hocc).
  destruct H as [H|H]; apply H; apply (occursAt_In _ _ _ _ Hocc).
  - left. reflexivity.
  - right. left. reflexivity.
Qed.

Lemma X3_witness :
  ~ In (chr "/") (getText (doc "<a>x<b>")) /\
  forall position, findEnclosingTags (doc "<a>x<b>") position = None.
Proof.
  assert (H : ~ In (chr "/") (getText (doc "<a>x<b>"))).
  { intros Hin. vm_compute in Hin.
    repeat (destruct Hin as [Hin|Hin]; [discriminate|]). exact Hin. }
  split; [exact H|].
  apply (X3_no_tag_no_span (doc "<a>x<b>")). right. exact H.
Defined.

(** ** The cursor just inside an opening delimiter *)

Lemma findEnclosingBrackets_after_opening document bracketPair i j :
  closesAt (getText document) bracketPair i j ->
  findEnclosingBrackets document (i + 1) = Some (mkRange (i + 1) j).
Proof.
  intros Hcl.
  pose proof (closesAt_inside _ _ _ _ Hcl) as Hj.
  assert (Henc : enclosingPair (getText document) (i + 1) i j)
    by (split; [exists bracketPair; exact Hcl | lia]).
  pose proof (findEnclosingBrackets_spec document (i + 1)) as S.
  destruct (findEnclosingBrackets document (i + 1)) as [r|].
  - destruct S as (i0 & j0 & -> & [[q Hq] Hpos] & Hmax).
    specialize (Hmax _ _ Henc). assert (i0 = i) by lia. subst i0.
    destruct (closesAt_unique _ _ _ _ _ _ Hcl Hq) as [_ ->]. reflexivity.
  - exfalso. exact (S _ _ Henc).
Qed.

Lemma findEnclosingTags_after_opening document tag e :
  In tag (openingTags (getText document)) ->
  tagClosesAt (getText document) tag e ->
  findEnclosingTags document (tag_end tag) = Some (mkRange (tag_end tag) e).
Proof.
  intros Hin Hcl.
  destruct (tagClosesAt_closing _ _ _ (openingTags_opening _ _ Hin) Hcl) as [He _].
  assert (Henc : enclosingTag document (tag_end tag) tag e).
  { apply enclosingTag_iff. split; [exact Hin|]. split; [exact Hcl | lia]. }
  pose proof (findEnclosingTags_spec document (tag_end tag)) as S.
  destruct (findEnclosingTags document (tag_end tag)) as [r|].
  - destruct S as (tag0 & e0 & -> & Henc0 & Hmax).
    specialize (Hmax _ _ Henc).
    apply enclosingTag_iff in Henc0. destruct Henc0 as (Hin0 & Hcl0 & Hpos0).
    assert (tag0 = tag) by (apply (openingTags_end_inj _ _ _ Hin0 Hin); lia).
    subst tag0. rewrite (tagClosesAt_unique _ _ _ _ Hcl0 Hcl). reflexivity.
  - exfalso. exact (S _ _ Henc).
Qed.

(** X4. With the cursor just after an opening bracket that is closed, the
    bracket matcher returns the interior of that very pair, and the command
    selects it, whatever the tag matcher returns. *)
Theorem X4_cursor_after_opening_bracket_selects_its_pair
        (document : TextDocument) (bracketPair : BracketPair) (i j : nat) :
  closesAt (getText document) bracketPair i j ->
  findEnclosingBrackets document (i + 1) = Some (mkRange (i + 1) j) /\
  forall anchor,
    selectEnclosingAt document (mkSelection anchor (i + 1))
    = mkSelection (i + 1) j.
Proof.
  intros Hcl.
  pose proof (findEnclosingBrackets_after_opening _ _ _ _ Hcl) as Hb.
  split; [exact Hb|]. intros anchor.
  rewrite selectEnclosingAt_selected. simpl active.
  destruct (findEnclosingTags document (i + 1)) as [t|] eqn:Ht.
  - rewrite (selectedRange_two _ _ _ _ Ht Hb).
    apply findEnclosingTags_Some in Ht. simpl start.
    destruct (Nat.ltb_spec (i + 1) (start t)); [lia | reflexivity].
  - rewrite selectedRange_cases, Ht, Hb. reflexivity.
Qed.

Lemma closesAt_example : closesAt (js "(x)") (chr "(", chr ")") 0 2.
Proof.
  split; [simpl; auto|]. split; [reflexivity|]. split; [lia|].
  split; [reflexivity|]. split; [vm_compute; reflexivity|].
  intros k Hk. assert (k = 1) by lia. subst k. vm_compute. reflexivity.
Qed.

Lemma X4_witness :
  closesAt (getText (doc "(x)")) (chr "(", chr ")") 0 2 /\
  findEnclosingBrackets (doc "(x)") (0 + 1) = Some (mkRange (0 + 1) 2) /\
  forall anchor,
    selectEnclosingAt (doc "(x)") (mkSelection anchor (0 + 1))
    = mkSelection (0 + 1) 2.
Proof.
  split; [exact closesAt_example|].
  apply (X4_cursor_after_opening_bracket_selects_its_pair
           (doc "(x)") (chr "(", chr ")") 0 2).
  exact closesAt_example.
Defined.

(** X5. With the cursor just after the [>] of an opening tag that is
    closed, the tag matcher returns the interior of that very tag, and the
    command selects it, whatever the bracket matcher returns. *)
Theorem X5_cursor_after_opening_tag_selects_its_interior
        (document : TextDocument) (tag : TagInfo) (e : nat) :
  In tag (openingTags (getText document)) ->
  tagClosesAt (getText document) tag e ->
  findEnclosingTags document (tag_end tag) = Some (mkRange (tag_end tag) e) /\
  forall anchor,
    selectEnclosingAt document (mkSelection anchor (tag_end tag))
    = mkSelection (tag_end tag) e.
Proof.
  intros Hin Hcl.
  pose proof (findEnclosingTags_after_opening _ _ _ Hin Hcl) as Ht.
  split; [exact Ht|]. intros anchor.
  rewrite selectEnclosingAt_selected. simpl active.
  destruct (findEnclosingBrackets document (tag_end tag)) as [b|] eqn:Hb.
  - rewrite (selectedRange_two _ _ _ _ Ht Hb).
    pose proof (candidates_never_tie _ _ _ _ Ht Hb) as Hne.
    apply findEnclosingBrackets_Some in Hb. simpl start in *.
    destruct (Nat.ltb_spec (start b) (tag_end tag)); [reflexivity | lia].
  - rewrite selectedRange_cases, Ht, Hb. reflexivity.
Qed.

Lemma tagClosesAt_example :
  In (mkTag 0 (js "a") 3) (openingTags (js "<a>x</a>")) /\
  tagClosesAt (js "<a>x</a>") (mkTag 0 (js "a") 3) 4.
Proof.
  split; [vm_compute; left; reflexivity|].
  exists 0. split; [|split].
  - eexists. split; [vm_compute; reflexivity|]. split; reflexivity.
  - vm_compute. reflexivity.
  - intros k' Hk'. lia.
Qed.

Lemma X5_witness :
  In (mkTag 0 (js "a") 3) (openingTags (getText (doc "<a>x</a>"))) /\
  tagClosesAt (getText (doc "<a>x</a>")) (mkTag 0 (js "a") 3) 4 /\
  findEnclosingTags (doc "<a>x</a>") 3 = Some (mkRange 3 4) /\
  forall anchor,
    selectEnclosingAt (doc "<a>x</a>") (mkSelection anchor 3) = mkSelection 3 4.
Proof.
  split; [exact (proj1 tagClosesAt_example)|].
  split; [exact (proj2 tagClosesAt_example)|].
  apply (X5_cursor_after_opening_tag_selects_its_interior
           (doc "<a>x</a>") (mkTag 0 (js "a") 3) 4).
  - exact (proj1 tagClosesAt_example).
  - exact (proj2 tagClosesAt_example).
Defined.

(** ** A tag candidate and a bracket candidate together *)

(** X6. A span of the tag matcher and a span of the bracket matcher never
    start at the same offset (one starts after a [>], the other after an
    opening bracket), so [compareRanges] never returns 0 on them, its
    comparison of the ends is never reached, and the command selects the
    one that starts later. *)
Theorem X6_candidates_never_tie
        (document : TextDocument) (position : Position) (t b : Range) :
  findEnclosingTags document position = Some t ->
  findEnclosingBrackets document position = Some b ->
  start t <> start b /\
  compareRanges t b = compareTo (start b) (start t) /\
  compareRanges t b <> 0%Z /\
  selectedRange document position = Some (if start b <? start t then t else b).
Proof.
  intros Ht Hb. pose proof (candidates_never_tie _ _ _ _ Ht Hb) as Hne.
  assert (Hcmp : compareRanges t b = compareTo (start b) (start t)).
  { unfold compareRanges. cbv zeta.
    destruct (compareTo_cases (start b) (start t)) as [[H ->]|[[H ->]|[H ->]]];
      try reflexivity. lia. }
  split; [exact Hne|]. split; [exact Hcmp|]. split.
  - intros H0. apply compareRanges_zero in H0. subst b. apply Hne. reflexivity.
  - apply selectedRange_two; assumption.
Qed.

Lemma X6_witness :
  findEnclosingTags (doc "<a>(x)</a>") 5 = Some (mkRange 3 6) /\
  findEnclosingBrackets (doc "<a>(x)</a>") 5 = Some (mkRange 4 5) /\
  selectedRange (doc "<a>(x)</a>") 5 = Some (mkRange 4 5).
Proof.
  split; [vm_compute; reflexivity|]. split; [vm_compute; reflexivity|].
  apply (X6_candidates_never_tie (doc "<a>(x)</a>") 5 (mkRange 3 6) (mkRange 4 5));
    vm_compute; reflexivity.
Defined.

(** X7. When the span of one matcher lies inside the span of the other,
    the command selects the inner one. *)
Theorem X7_inner_candidate_is_selected
        (document : TextDocument) (position : Position) (t b : Range) :
  findEnclosingTags document position = Some t ->
  findEnclosingBrackets document position = Some b ->
  (containsRange t b = true -> selectedRange document position = Some b) /\
  (containsRange b t = true -> selectedRange document position = Some t).
Proof.
  intros Ht Hb. pose proof (candidates_never_tie _ _ _ _ Ht Hb) as Hne.
  rewrite (selectedRange_two _ _ _ _ Ht Hb).
  split; intros Hc; apply containsRange_spec in Hc;
    destruct (Nat.ltb_spec (start b) (start t)); try reflexivity; lia.
Qed.

Lemma X7_witness :
  findEnclosingTags (doc "(<a>x</a>)") 5 = Some (mkRange 4 5) /\
  findEnclosingBrackets (doc "(<a>x</a>)") 5 = Some (mkRange 1 9) /\
  containsRange (mkRange 1 9) (mkRange 4 5) = true /\
  selectedRange (doc "(<a>x</a>)") 5 = Some (mkRange 4 5).
Proof.
  split; [vm_compute; reflexivity|]. split; [vm_compute; reflexivity|].
  split; [reflexivity|].
  apply (X7_inner_candidate_is_selected
           (doc "(<a>x</a>)") 5 (mkRange 4 5) (mkRange 1 9));
    vm_compute; reflexivity.
Defined.

(** ** Running the command again *)

Lemma selectedRange_best document position w :
  selectedRange document position = Some w ->
  forall c, In c (candidatesAt document position) -> ranksBefore w c.
Proof.
  unfold selectedRange. rewrite candidatesAt_filter.
  intros H. apply sort_head in H. tauto.
Qed.

Lemma selectedRange_exists document position c :
  In c (candidatesAt document position) ->
  exists w, selectedRange document position = Some w.
Proof.
  intros Hin. unfold selectedRange. rewrite candidatesAt_filter.
  pose proof (sort_perm (candidatesAt document position)) as Hp.
  destruct (sort compareRanges (candidatesAt document position)) as [|w l].
  - apply Permutation_nil in Hp. rewrite Hp in Hin. contradiction.
  - exists w. reflexivity.
Qed.

(** A matcher that returns a span returns, at the end of that span, a span
    that starts no earlier. *)
Lemma findEnclosingBrackets_at_end document position r :
  findEnclosingBrackets document position = Some r ->
  exists r', findEnclosingBrackets document (end_ r) = Some r' /\
             start r <= start r'.
Proof.
  intros H. pose proof (findEnclosingBrackets_spec document position) as S.
  rewrite H in S. destruct S as (i & j & -> & [[p Hcl] _] & _). simpl.
  pose proof (closesAt_inside _ _ _ _ Hcl) as Hj.
  assert (Henc : enclosingPair (getText document) j i j)
    by (split; [exists p; exact Hcl | lia]).
  pose proof (findEnclosingBrackets_spec document j) as S'.
  destruct (findEnclosingBrackets document j) as [r'|].
  - destruct S' as (i' & j' & -> & _ & Hmax). specialize (Hmax _ _ Henc).
    eexists. split; [reflexivity | simpl; lia].
  - exfalso. exact (S' _ _ Henc).
Qed.

Lemma findEnclosingTags_at_end document position r :
  findEnclosingTags document position = Some r ->
  exists r', findEnclosingTags document (end_ r) = Some r' /\
             start r <= start r'.
Proof.
  intros H. pose proof (findEnclosingTags_spec document position) as S.
  rewrite H in S. destruct S as (tag & e & -> & Henc0 & _). simpl.
  apply enclosingTag_iff in Henc0. destruct Henc0 as (Hin & Hcl & Hpos).
  assert (Henc : enclosingTag document e tag e).
  { apply enclosingTag_iff. split; [exact Hin|]. split; [exact Hcl | lia]. }
  pose proof (findEnclosingTags_spec document e) as S'.
  destruct (findEnclosingTags document e) as [r'|].
  - destruct S' as (tag' & e' & -> & _ & Hmax). specialize (Hmax _ _ Henc).
    eexists. split; [reflexivity | simpl; lia].
  - exfalso. exact (S' _ _ Henc).
Qed.

(** X8. Running the command again never widens the selection to the left:
    when the command selects a span, the cursor is left at the end of it,
    and from there the command selects a span again, one that starts and
    ends no earlier than the first.  So repeated use does not grow the
    selection towards the enclosing pairs. *)
Theorem X8_second_run_never_moves_left
        (document : TextDocument) (selection : Selection) (r : Range) :
  selectedRange document (active selection) = Some r ->
  let first := selectEnclosingAt document selection in
  let second := selectEnclosingAt document first in
  first = toSelection r /\
  exists r', selectedRange document (active first) = Some r' /\
             second = toSelection r' /\
             anchor first <= anchor second /\ active first <= active second.
Proof.
  intros Hsel first second.
  assert (Hfirst : first = toSelection r).
  { unfold first. rewrite selectEnclosingAt_selected, Hsel. reflexivity. }
  split; [exact Hfirst|].
  assert (Hnext : exists c, In c (candidatesAt document (end_ r)) /\
                            start r <= start c).
  { pose proof (selectedRange_In _ _ _ Hsel) as Hin.
    apply candidatesAt_In in Hin. destruct Hin as [Ht|Hb].
    - destruct (findEnclosingTags_at_end _ _ _ Ht) as (c & Hc & Hle).
      exists c. split; [apply candidatesAt_In; auto | exact Hle].
    - destruct (findEnclosingBrackets_at_end _ _ _ Hb) as (c & Hc & Hle).
      exists c. split; [apply candidatesAt_In; auto | exact Hle]. }
  destruct Hnext as (c & Hc & Hle).
  destruct (selectedRange_exists _ _ _ Hc) as [r' Hr'].
  pose proof (selectedRange_best _ _ _ Hr' c Hc) as Hrank.
  pose proof (selectedRange_contains _ _ _ Hr') as Hcont.
  apply contains_spec in Hcont.
  exists r'. rewrite Hfirst. simpl active. split; [exact Hr'|]. split.
  - unfold second. rewrite Hfirst, selectEnclosingAt_selected. simpl active.
    rewrite Hr'. reflexivity.
  - unfold second. rewrite Hfirst, selectEnclosingAt_selected. simpl active.
    rewrite Hr'. simpl. unfold ranksBefore in Hrank. lia.
Qed.

Lemma X8_witness :
  selectedRange (doc "(a[b)c]") (active (mkSelection 1 1)) = Some (mkRange 1 4) /\
  selectEnclosingAt (doc "(a[b)c]") (mkSelection 1 1) = mkSelection 1 4 /\
  selectEnclosingAt (doc "(a[b)c]") (mkSelection 1 4) = mkSelection 3 6.
Proof.
  split; [vm_compute; reflexivity|].
  destruct (X8_second_run_never_moves_left
              (doc "(a[b)c]") (mkSelection 1 1) (mkRange 1 4))
    as [H1 _]; [vm_compute; reflexivity|].
  split; [exact H1|]. vm_compute. reflexivity.
Defined.

(** ** The interior of a bracket span *)

Lemma count_app c l1 l2 : count c (l1 ++ l2) = (count c l1 + count c l2)%Z.
Proof.
  induction l1 as [|x l1 IH]; simpl; [reflexivity|]. rewrite IH. lia.
Qed.

Lemma firstn_snoc {A} (l : list A) n x :
  nth_error l n = Some x -> firstn (S n) l = firstn n l ++ [x].
Proof.
  revert n. induction l as [|a l IH]; intros [|n] H; simpl in *;
    try discriminate.
  - inversion H. reflexivity.
  - rewrite (IH n H). reflexivity.
Qed.

(** Inside a balanced pair every stretch from the start holds no more
    closing delimiters than opening ones, and the whole holds as many. *)
Lemma closesAt_interior text bracketPair i j :
  closesAt text bracketPair i j ->
  let interior := slice text (i + 1) j in
  count (fst bracketPair) interior = count (snd bracketPair) interior /\
  forall m, (count (snd bracketPair) (firstn m interior)
             <= count (fst bracketPair) (firstn m interior))%Z.
Proof.
  intros Hcl interior.
  pose proof (closesAt_inside _ _ _ _ Hcl) as Hj.
  destruct Hcl as (Hin & Hi & Hij & Hcj & Hz & Hpos).
  pose proof (brackets_distinct _ Hin) as Hne.
  assert (Hlen : length interior = j - (i + 1)).
  { unfold interior, slice. rewrite length_firstn, length_skipn. lia. }
  assert (Hwhole : slice text (i + 1) (j + 1) = interior ++ [snd bracketPair]).
  { unfold interior, slice.
    replace (j + 1 - (i + 1)) with (S (j - (i + 1))) by lia.
    apply firstn_snoc. rewrite nth_error_skipn.
    replace (i + 1 + (j - (i + 1))) with j by lia. exact Hcj. }
  assert (Heq : count (fst bracketPair) interior = count (snd bracketPair) interior).
  { unfold bracketDepth, depthAfter in Hz. rewrite Hwhole, !count_app in Hz.
    cbn [count] in Hz. rewrite N.eqb_refl in Hz.
    destruct (N.eqb_spec (snd bracketPair) (fst bracketPair)); [congruence | lia]. }
  split; [exact Heq|].
  intros m. destruct (Nat.le_gt_cases (length interior) m) as [Hge|Hlt].
  - rewrite firstn_all2 by exact Hge. lia.
  - destruct m as [|m]; [simpl; lia|].
    specialize (Hpos (i + S m) ltac:(lia)).
    unfold bracketDepth, depthAfter, slice in Hpos.
    replace (i + S m + 1 - (i + 1)) with (S m) in Hpos by lia.
    unfold interior, slice. rewrite firstn_firstn.
    replace (Nat.min (S m) (j - (i + 1))) with (S m) by lia. lia.
Qed.

(** X9. The text of a span the bracket matcher returns is well bracketed
    for its own kind of bracket: it holds as many closing as opening
    delimiters of that kind, and no stretch from its start holds more closing
    than opening ones.  The characters just before and just after it are the
    opening and the closing delimiter of that kind. *)
Theorem X9_bracket_interior_is_well_bracketed
        (document : TextDocument) (position : Position) (r : Range) :
  findEnclosingBrackets document position = Some r ->
  let text := getText document in
  let interior := slice text (start r) (end_ r) in
  exists bracketPair,
    In bracketPair brackets /\
    1 <= start r <= end_ r /\ end_ r < length text /\
    nth_error text (start r - 1) = Some (fst bracketPair) /\
    nth_error text (end_ r) = Some (snd bracketPair) /\
    count (fst bracketPair) interior = count (snd bracketPair) interior /\
    forall m, (count (snd bracketPair) (firstn m interior)
               <= count (fst bracketPair) (firstn m interior))%Z.
Proof.
  intros H text interior. subst text interior.
  apply findEnclosingBrackets_Some in H.
  destruct H as (_ & Hlen & p & i & Hs & Hcl).
  pose proof (closesAt_inside _ _ _ _ Hcl) as Hj.
  pose proof (closesAt_interior _ _ _ _ Hcl) as [Heq Hpre].
  destruct Hcl as (Hin & Hi & _ & Hcj & _).
  exists p. rewrite Hs. replace (i + 1 - 1) with i by lia.
  split; [exact Hin|]. split; [lia|]. split; [lia|].
  split; [exact Hi|]. split; [exact Hcj|]. split; [exact Heq | exact Hpre].
Qed.

Lemma X9_witness :
  findEnclosingBrackets (doc "f((a)(b))") 5 = Some (mkRange 2 8) /\
  slice (getText (doc "f((a)(b))")) 2 8 = js "(a)(b)".
Proof.
  split; [vm_compute; reflexivity|].
  destruct (X9_bracket_interior_is_well_bracketed
              (doc "f((a)(b))") 5 (mkRange 2 8))
    as (p & _); [vm_compute; reflexivity|].
  vm_compute. reflexivity.
Defined.

(** ** The loops keep the first candidate they accept *)

(** A loop that goes down from [n - 1] to 0 and stops at the first index
    whose step yields a range. *)
Fixpoint firstAccepted (step : nat -> option Range) (n : nat) : option Range :=
  match n with
  | 0 => None
  | S i =>
      match step i with
      | Some r => Some r
      | None => firstAccepted step i
      end
  end.

Lemma bracketStep_None_start document position i r :
  bracketStep document position i None = Some r -> start r = i + 1.
Proof.
  destruct (bracketStep_cases document position i None)
    as [(p & j & _ & ->)|(_ & ->)]; [|discriminate].
  rewrite keepInner_None.
  destruct (contains (mkRange (i + 1) j) position); [|discriminate].
  intros H; inversion H. reflexivity.
Qed.

Lemma bracketLoop_firstAccepted document position n :
  bracketLoop document position n None =
  firstAccepted (fun i => bracketStep document position i None) n.
Proof.
  induction n as [|i IH]; [reflexivity|]. simpl.
  destruct (bracketStep document position i None) as [r|] eqn:E; [|exact IH].
  apply bracketLoop_kept. rewrite (bracketStep_None_start _ _ _ _ E). lia.
Qed.

Lemma tagStep_None_start document position tag r :
  tagStep document position (Some tag) None = Some r -> start r = tag_end tag.
Proof.
  destruct (tagStep_cases document position tag None)
    as [(e & _ & _ & ->)|(_ & ->)]; [|discriminate].
  rewrite keepInner_None.
  destruct (contains (mkRange (tag_end tag) e) position); [|discriminate].
  intros H; inversion H. reflexivity.
Qed.

Lemma tagLoop_firstAccepted document position tags :
  increasingEnds tags ->
  forall n, n <= length tags ->
  tagLoop document position tags n None =
  firstAccepted (fun i => tagStep document position (nth_error tags i) None) n.
Proof.
  intros Hinc. induction n as [|i IH]; intros Hn; [reflexivity|]. simpl.
  destruct (tagStep document position (nth_error tags i) None) as [r|] eqn:E;
    [|apply IH; lia].
  destruct (nth_error tags i) as [tag|] eqn:Ht; [|discriminate].
  apply tagLoop_kept. intros i' t Hi' Ht'.
  rewrite (tagStep_None_start _ _ _ _ E). exact (Hinc i' i t tag Hi' Ht' Ht).
Qed.

(** X10. Both matchers return the first candidate they accept: going down
    from the cursor (from the last recorded tag), the first opening
    delimiter (tag) whose interior holds the position decides, and no later
    turn of the loop replaces it, since the test [bestRange.contains(range)]
    fails for every candidate that starts earlier.  Each matcher equals the
    loop that stops there. *)
Theorem X10_matchers_return_the_first_accepted_candidate :
  forall document position,
    findEnclosingBrackets document position =
    firstAccepted (fun i => bracketStep document position i None)
                  (S (offsetAt document position)) /\
    findEnclosingTags document position =
    firstAccepted
      (fun i => tagStep document position
                        (nth_error (recordedTags document position) i) None)
      (length (recordedTags document position)) /\
    (forall i best, i + 1 < start best ->
       bracketStep document position i (Some best) = Some best) /\
    (forall tag best, tag_end tag < start best ->
       tagStep document position (Some tag) (Some best) = Some best).
Proof.
  intros document position. split; [|split; [|split]].
  - apply bracketLoop_firstAccepted.
  - unfold findEnclosingTags. cbv zeta. fold (recordedTags document position).
    apply tagLoop_firstAccepted; [|lia].
    apply recordedTags_inv.
  - intros i best Hi.
    destruct (bracketStep_cases document position i (Some best))
      as [(p & j & _ & ->)|(_ & ->)]; [|reflexivity].
    apply keepInner_outer. simpl. lia.
  - intros tag best Hlt.
    destruct (tagStep_cases document position tag (Some best))
      as [(e & _ & _ & ->)|(_ & ->)]; [|reflexivity].
    apply keepInner_outer. simpl. exact Hlt.
Qed.

(** ** The tags the first loop records *)

(** Tags in the order of the text that do not overlap: each ends at or
    before the start of the next. *)
Definition disjointTags (tags : list TagInfo) : Prop :=
  forall i j a b, i < j ->
    nth_error tags i = Some a -> nth_error tags j = Some b ->
    tag_end a <= tag_index b.

Lemma disjointTags_push bound bound' tags m :
  disjointTags tags -> (forall t, In t tags -> tag_end t <= bound) ->
  bound <= index m -> index m < bound' ->
  disjointTags (pushTag m bound' tags) /\
  forall t, In t (pushTag m bound' tags) -> tag_end t <= bound'.
Proof.
  intros Hd Hall Hb Hm. unfold pushTag.
  assert (Hsame : forall t, In t tags -> tag_end t <= bound').
  { intros t Ht. specialize (Hall t Ht). lia. }
  destruct (group1 m) as [[|c s]|]; try (split; assumption).
  split.
  - intros i j a b Hij Ha Hb'.
    assert (Hj : j < length (tags ++ [mkTag (index m) (c :: s) bound']))
      by (apply nth_error_Some; congruence).
    rewrite length_app in Hj. simpl in Hj.
    rewrite nth_error_app1 in Ha by lia.
    destruct (Nat.eq_dec j (length tags)) as [->|Hne].
    + rewrite nth_error_app2, Nat.sub_diag in Hb' by lia.
      simpl in Hb'. inversion Hb'; subst b; simpl.
      apply nth_error_In in Ha. specialize (Hall a Ha). lia.
    + rewrite nth_error_app1 in Hb' by lia.
      exact (Hd i j a b Hij Ha Hb').
  - intros t Ht. apply in_app_or in Ht. destruct Ht as [Ht|[<-|[]]].
    + apply Hsame, Ht.
    + simpl. lia.
Qed.

Lemma collectTags_disjoint text offset :
  forall lastIndex tags,
  disjointTags tags -> (forall t, In t tags -> tag_end t <= lastIndex) ->
  disjointTags (collectTags text offset lastIndex tags).
Proof.
  intros lastIndex.
  induction lastIndex as [lastIndex IH]
    using (exec_ind openingTagRegex text openingTagRegex_progress).
  intros tags Hd Hall. rewrite collectTags_eq.
  destruct (exec openingTagRegex text lastIndex) as [[m|] lastIndex'] eqn:E;
    [|exact Hd].
  destruct (offset <? index m); [exact Hd|].
  pose proof (exec_bounds _ _ _ _ _ E) as (Hb1 & Hb2 & Hb3). simpl in Hb2.
  destruct (disjointTags_push lastIndex lastIndex' tags m Hd Hall Hb1 ltac:(lia))
    as [Hd' Hall'].
  exact (IH _ _ eq_refl _ Hd' Hall').
Qed.

(** X11. The first loop, which leaves at the first opening tag that starts
    after the offset, records exactly the opening tags of the text that start
    at or before the offset, in the order of the text, the opening tags
    being read off the characters of the text: a [<], the word characters
    that follow, at least one, and everything up to the first [>], one tag
    after the other.  Leaving early loses none of them, and with the offset
    at the end of the text every opening tag is recorded. *)
Theorem X11_recorded_tags_are_the_opening_tags_up_to_the_offset :
  forall document position,
    recordedTags document position =
    filter (fun t => tag_index t <=? offsetAt document position)
           (tagsOf (getText document)) /\
    (length (getText document) <= position ->
     recordedTags document position = tagsOf (getText document)).
Proof.
  intros document position. split.
  - apply recordedTags_tagsOf.
  - intros H. rewrite <- openingTags_tagsOf.
    unfold recordedTags, openingTags, offsetAt.
    replace (Nat.min position (length (getText document)))
      with (length (getText document)) by lia.
    reflexivity.
Qed.

(** X12. Every tag the first loop records is an opening tag of the text:
    it starts with [<] at [tag.index], at or before the offset; its name is
    a run of one or more word characters right after the [<]; it ends with
    the first [>] after the name, just before [tag.end], inside the text.
    The recorded tags are in the order of the text and do not overlap. *)
Theorem X12_recorded_tags_are_disjoint_opening_tags :
  forall document position,
    let text := getText document in
    let tags := recordedTags document position in
    (forall tag, In tag tags ->
       isOpeningTag text tag /\
       tag_index tag <= offsetAt document position /\
       nth_error text (tag_index tag) = Some (chr "<") /\
       nth_error text (tag_end tag - 1) = Some (chr ">") /\
       tag_index tag + 3 <= tag_end tag <= length text) /\
    disjointTags tags /\ increasingEnds tags.
Proof.
  intros document position text tags. subst text tags.
  split; [|split].
  - intros tag Hin.
    pose proof (recordedTags_opening _ _ _ Hin) as Hop.
    destruct (recordedTags_inv document position) as [_ Hall].
    specialize (Hall tag Hin).
    pose proof (isOpeningTag_delimiters _ _ Hop) as (H1 & H2 & H3).
    split; [exact Hop|]. split; [lia|]. split; [exact H1|].
    split; [exact H2 | exact H3].
  - apply collectTags_disjoint; [|intros t []].
    intros i j a b _ Ha. destruct i; discriminate.
  - apply recordedTags_inv.
Qed.

(** X13. The test [if (match[1])] of the first loop never fails: every
    match of [openingTagRegex] captures a name that is not empty, so every
    match that starts at or before the offset adds one tag, with the index of
    the match, the captured name and the new [lastIndex] as its end. *)
Theorem X13_every_opening_match_is_recorded
        (text : Text) (lastIndex : nat) (m : RegExpMatch) (lastIndex' : nat) :
  exec openingTagRegex text lastIndex = (Some m, lastIndex') ->
  exists name,
    name <> [] /\ forallb word name = true /\ group1 m = Some name /\
    forall tags,
      pushTag m lastIndex' tags = tags ++ [mkTag (index m) name lastIndex'].
Proof.
  intros E. apply openingTagRegex_match in E.
  destruct E as (name & attrs & Hg & Hne & Hword & _).
  exists name. split; [exact Hne|]. split; [exact Hword|]. split; [exact Hg|].
  intros tags. unfold pushTag. rewrite Hg.
  destruct name; [contradiction | reflexivity].
Qed.

Lemma X13_witness :
  exec openingTagRegex (js "x<br/>") 0
  = (Some (mkMatch 1 (js "<br/>") (Some (js "br"))), 6) /\
  pushTag (mkMatch 1 (js "<br/>") (Some (js "br"))) 6 []
  = [mkTag 1 (js "br") 6].
Proof.
  split; [vm_compute; reflexivity|].
  destruct (X13_every_opening_match_is_recorded
              (js "x<br/>") 0 (mkMatch 1 (js "<br/>") (Some (js "br"))) 6)
    as (name & _ & _ & Hg & Hpush); [vm_compute; reflexivity|].
  rewrite Hpush. simpl in Hg. inversion Hg. reflexivity.
Defined.

(** ** Brackets of different kinds do not interact *)

(** Two characters that are alike for a kind of bracket: each is the
    opening delimiter of the kind exactly when the other is, and the same for
    the closing delimiter. *)
Definition sameFor (bracketPair : BracketPair) (c c' : char) : Prop :=
  (c = fst bracketPair <-> c' = fst bracketPair) /\
  (c = snd bracketPair <-> c' = snd bracketPair).

Lemma sameFor_eqb bracketPair c c' :
  sameFor bracketPair c c' ->
  N.eqb c (fst bracketPair) = N.eqb c' (fst bracketPair) /\
  N.eqb c (snd bracketPair) = N.eqb c' (snd bracketPair).
Proof.
  intros [Ho Hc]. split.
  - destruct (N.eqb_spec c (fst bracketPair)), (N.eqb_spec c' (fst bracketPair));
      tauto.
  - destruct (N.eqb_spec c (snd bracketPair)), (N.eqb_spec c' (snd bracketPair));
      tauto.
Qed.

Lemma scanForward_sameFor document document' position bracketPair i :
  (forall k, positionAt document k = positionAt document' k) ->
  forall rest rest', Forall2 (sameFor bracketPair) rest rest' ->
  forall j depth bestRange,
    scanForward document position bracketPair i rest j depth bestRange =
    scanForward document' position bracketPair i rest' j depth bestRange.
Proof.
  intros Hpos rest rest' H.
  induction H as [|c c' rest rest' Hc _ IH]; intros j depth bestRange;
    [reflexivity|].
  simpl. destruct (sameFor_eqb _ _ _ Hc) as [<- <-].
  rewrite !Hpos, !IH. reflexivity.
Qed.

Lemma Forall2_skipn {A B} (R : A -> B -> Prop) n :
  forall l l', Forall2 R l l' -> Forall2 R (skipn n l) (skipn n l').
Proof.
  induction n as [|n IH]; intros l l' H; [exact H|].
  destruct H; simpl; [constructor | apply IH; assumption].
Qed.

Lemma Forall2_nth_error {A B} (R : A -> B -> Prop) l l' :
  Forall2 R l l' ->
  forall i a, nth_error l i = Some a ->
              exists b, nth_error l' i = Some b /\ R a b.
Proof.
  induction 1 as [|x y l l' Hxy _ IH]; intros [|i] a Ha; simpl in *;
    try discriminate.
  - inversion Ha; subst. exists y. auto.
  - apply IH, Ha.
Qed.

(** X14. Brackets of different kinds do not interact: when the characters
    of a text are replaced by others, keeping every opening and closing
    delimiter of one kind where it is and putting none of them elsewhere,
    the step of the bracket matcher at an opening delimiter of that kind
    yields the same range.  A [{] is never closed by a [)], and brackets of
    other kinds in between change nothing. *)
Theorem X14_other_characters_do_not_change_the_pair
        (text text' : Text) (bracketPair : BracketPair)
        (position : Position) (i : nat) (bestRange : option Range) :
  In bracketPair brackets ->
  Forall2 (sameFor bracketPair) text text' ->
  nth_error text i = Some (fst bracketPair) ->
  bracketStep (mkDocument text) position i bestRange =
  bracketStep (mkDocument text') position i bestRange.
Proof.
  intros Hin Hsame Hi. unfold bracketStep. cbv zeta. simpl getText.
  destruct (Forall2_nth_error _ _ _ Hsame _ _ Hi) as (c' & Hi' & [Ho _]).
  assert (c' = fst bracketPair) by (apply Ho; reflexivity). subst c'.
  rewrite Hi, Hi'.
  assert (Hf : findPair (Some (fst bracketPair)) = Some bracketPair)
    by (apply findPair_spec; auto).
  rewrite Hf. apply scanForward_sameFor.
  - intros k. unfold positionAt. simpl.
    rewrite (Forall2_length Hsame). reflexivity.
  - apply Forall2_skipn, Hsame.
Qed.

Lemma X14_witness :
  bracketStep (doc "(a]b)c") 2 0 None = Some (mkRange 1 4) /\
  bracketStep (doc "({}})[") 2 0 None = Some (mkRange 1 4).
Proof.
  assert (H : bracketStep (mkDocument (js "(a]b)c")) 2 0 None =
              bracketStep (mkDocument (js "({}})[")) 2 0 None).
  { apply (X14_other_characters_do_not_change_the_pair
             (js "(a]b)c") (js "({}})[") (chr "(", chr ")") 2 0 None).
    - left. reflexivity.
    - vm_compute.
      repeat (constructor;
              [split; split; intros H; first [reflexivity | discriminate H]|]).
      constructor.
    - reflexivity. }
  split; [vm_compute; reflexivity|].
  unfold doc. rewrite <- H. vm_compute. reflexivity.
Defined.

(** ** The comparison of ranges *)

Lemma compareTo_opp a b : compareTo b a = (- compareTo a b)%Z.
Proof.
  destruct (compareTo_cases a b) as [[H ->]|[[H ->]|[H ->]]];
    destruct (compareTo_cases b a) as [[H' ->]|[[H' ->]|[H' ->]]];
    try reflexivity; lia.
Qed.

(** X15. [compareRanges] is a consistent comparison, as a sort needs: it
    returns -1, 0 or 1; 0 exactly on equal ranges; swapping the arguments
    swaps the sign; and it is transitive.  A range that starts later comes
    first, and of two that start together the one that ends first. *)
Theorem X15_compareRanges_is_a_total_order :
  (forall a b, compareRanges a b = (-1)%Z \/ compareRanges a b = 0%Z \/
               compareRanges a b = 1%Z) /\
  (forall a b, compareRanges a b = 0%Z <-> a = b) /\
  (forall a b, compareRanges b a = (- compareRanges a b)%Z) /\
  (forall a b c, (compareRanges a b <= 0)%Z -> (compareRanges b c <= 0)%Z ->
                 (compareRanges a c <= 0)%Z) /\
  (forall a b, (compareRanges a b < 0)%Z <->
               start b < start a \/ (start a = start b /\ end_ a < end_ b)).
Proof.
  split; [|split; [|split; [|split]]].
  - intros a b. unfold compareRanges. cbv zeta.
    destruct (compareTo_cases (start b) (start a)) as [[H ->]|[[H ->]|[H ->]]];
      simpl; auto.
    destruct (compareTo_cases (end_ a) (end_ b)) as [[H' ->]|[[H' ->]|[H' ->]]];
      auto.
  - apply compareRanges_zero.
  - intros a b. unfold compareRanges. cbv zeta.
    rewrite (compareTo_opp (start b) (start a)), (compareTo_opp (end_ a) (end_ b)).
    destruct (compareTo_cases (start b) (start a)) as [[H ->]|[[H ->]|[H ->]]];
      reflexivity.
  - intros a b c Hab Hbc.
    apply Z.leb_le, compareRanges_le in Hab.
    apply Z.leb_le, compareRanges_le in Hbc.
    apply Z.leb_le, compareRanges_le.
    exact (ranksBefore_trans _ _ _ Hab Hbc).
  - intros a b. unfold compareRanges. cbv zeta.
    destruct (compareTo_cases (start b) (start a)) as [[H ->]|[[H ->]|[H ->]]];
      simpl; try lia.
    destruct (compareTo_cases (end_ a) (end_ b)) as [[H' ->]|[[H' ->]|[H' ->]]];
      lia.
Qed.

(** ** The commands and the keybinding of [activate]

    The host's side of [activate] is modelled after the documented
    behaviour of the editor's API: the host keeps the identifiers of the
    registered commands; [vscode.commands.registerCommand(id, ...)] throws
    when [id] is taken and returns a disposable that takes [id] out again;
    the configuration holds the value of [bracketTagSelector.shortcut], if
    it is set; a change of configuration is told to the listeners, which ask
    it whether it affects a setting. *)

Inductive Disposable : Type :=
| CommandRegistration (id : string)
| ConfigurationListener.

Record ExtensionState := mkExtension {
  commands : list string;              (* host: the registered commands *)
  shortcut : option string;            (* host: bracketTagSelector.shortcut *)
  messages : nat;                      (* host: information messages shown *)
  subscriptions : list Disposable;     (* context.subscriptions *)
  keybindingDisposable : option Disposable
}.

(** A call returns, or throws and leaves a state behind. *)
Inductive Outcome : Type :=
| Returned (st : ExtensionState)
| Threw (st : ExtensionState).

Definition stateOf (o : Outcome) : ExtensionState :=
  match o with Returned st => st | Threw st => st end.

Definition returned (o : Outcome) : bool :=
  match o with Returned _ => true | Threw _ => false end.

Definition selectEnclosingId : string := "extension.selectEnclosing".

(** [`bracketTagSelector.${keybinding}`] *)
Definition keybindingId (keybinding : string) : string :=
  ("bracketTagSelector." ++ keybinding)%string.

(** [vscode.commands.registerCommand(id, ...)]: the new registry, or nothing
    when the call throws. *)
Definition registerCommand (id : string) (registry : list string)
  : option (list string) :=
  if existsb (String.eqb id) registry then None else Some (id :: registry).

(** [disposable.dispose()] *)
Definition dispose (d : Disposable) (registry : list string) : list string :=
  match d with
  | CommandRegistration id => filter (fun c => negb (String.eqb c id)) registry
  | ConfigurationListener => registry
  end.

(** [config.get<string>('shortcut', 'ctrl+[')] *)
Definition getShortcut (value : option string) : string :=
  match value with
  | Some s => s
  | None => "ctrl+["%string
  end.

Definition updateKeybinding (st : ExtensionState) : Outcome :=
  let keybinding := getShortcut (shortcut st) in
  (* Clean up previous binding *)
  let registry :=
    match keybindingDisposable st with
    | Some d => dispose d (commands st)
    | None => commands st
    end in
  let st := mkExtension registry (shortcut st) (messages st)
                        (subscriptions st) (keybindingDisposable st) in
  (* Register new keybinding using input rules *)
  match registerCommand (keybindingId keybinding) registry with
  | None => Threw st
  | Some registry' =>
      let d := CommandRegistration (keybindingId keybinding) in
      Returned (mkExtension registry' (shortcut st) (messages st)
                            (subscriptions st ++ [d]) (Some d))
  end.

(** [activate(context)], in a host with the commands [registry] and the
    configured shortcut [value]. *)
Definition activate (registry : list string) (value : option string) : Outcome :=
  match registerCommand selectEnclosingId registry with
  | None => Threw (mkExtension registry value 0 [] None)
  | Some registry' =>
      let st := mkExtension registry' value 0
                            [CommandRegistration selectEnclosingId] None in
      (* Initial setup *)
      match updateKeybinding st with
      | Threw st' => Threw st'
      | Returned st' =>
          (* Watch for configuration changes *)
          Returned (mkExtension (commands st') (shortcut st') (messages st')
                                (subscriptions st' ++ [ConfigurationListener])
                                (keybindingDisposable st'))
      end
  end.

(** A change of configuration: of the shortcut, to a new value or to none,
    or of some other setting. *)
Inductive ConfigurationChange : Type :=
| ShortcutChanged (value : option string)
| OtherSettingChanged.

(** [e.affectsConfiguration('bracketTagSelector.shortcut')] *)
Definition affectsShortcut (e : ConfigurationChange) : bool :=
  match e with
  | ShortcutChanged _ => true
  | OtherSettingChanged => false
  end.

(** The host changes the configuration and calls the listener that
    [activate] registered. *)
Definition onDidChangeConfiguration (e : ConfigurationChange)
           (st : ExtensionState) : Outcome :=
  let value :=
    match e with
    | ShortcutChanged value => value
    | OtherSettingChanged => shortcut st
    end in
  let st := mkExtension (commands st) value (messages st)
                        (subscriptions st) (keybindingDisposable st) in
  if affectsShortcut e then
    match updateKeybinding st with
    | Threw st' => Threw st'
    | Returned st' =>
        (* vscode.window.showInformationMessage(...) *)
        Returned (mkExtension (commands st') (shortcut st') (S (messages st'))
                              (subscriptions st') (keybindingDisposable st'))
    end
  else Returned st.

(** A run of configuration changes: the state at the end, and whether every
    call of the listener returned. *)
Fixpoint changes (events : list ConfigurationChange) (st : ExtensionState)
  : ExtensionState * bool :=
  match events with
  | [] => (st, true)
  | e :: events' =>
      let o := onDidChangeConfiguration e st in
      let (st', ok) := changes events' (stateOf o) in
      (st', returned o && ok)
  end.

(** The values the shortcut takes in a run of changes. *)
Fixpoint shortcutValues (events : list ConfigurationChange) : list (option string) :=
  match events with
  | [] => []
  | ShortcutChanged value :: events' => value :: shortcutValues events'
  | OtherSettingChanged :: events' => shortcutValues events'
  end.

(** A registry that holds none of the identifiers the extension uses. *)
Definition freeOfExtension (registry : list string) : Prop :=
  forall id, In id registry ->
    id <> selectEnclosingId /\ forall keybinding, id <> keybindingId keybinding.

Lemma keybindingId_not_selectEnclosingId keybinding :
  keybindingId keybinding <> selectEnclosingId.
Proof. unfold keybindingId, selectEnclosingId. simpl. discriminate. Qed.

Lemma existsb_eqb_false id registry :
  ~ In id registry -> existsb (String.eqb id) registry = false.
Proof.
  intros H. destruct (existsb (String.eqb id) registry) eqn:E; [|reflexivity].
  apply existsb_exists in E. destruct E as (x & Hx & Heq).
  apply String.eqb_eq in Heq. subst x. contradiction.
Qed.

Lemma registerCommand_free id registry :
  ~ In id registry -> registerCommand id registry = Some (id :: registry).
Proof.
  intros H. unfold registerCommand. now rewrite (existsb_eqb_false _ _ H).
Qed.

Lemma registerCommand_taken id registry :
  In id registry -> registerCommand id registry = None.
Proof.
  intros H. unfold registerCommand.
  assert (E : existsb (String.eqb id) registry = true).
  { apply existsb_exists. exists id. split; [exact H | apply String.eqb_refl]. }
  now rewrite E.
Qed.

Lemma filter_out_absent id registry :
  ~ In id registry ->
  filter (fun c => negb (String.eqb c id)) registry = registry.
Proof.
  intros H. apply filter_all. intros x Hx.
  destruct (String.eqb_spec x id) as [->|_]; [contradiction | reflexivity].
Qed.

(** The registry of a host in which the extension runs with the shortcut
    [value]. *)
Definition registryWith (others : list string) (value : option string)
  : list string :=
  keybindingId (getShortcut value) :: selectEnclosingId :: others.

Definition settled (others : list string) (st : ExtensionState) : Prop :=
  commands st = registryWith others (shortcut st) /\
  keybindingDisposable st
  = Some (CommandRegistration (keybindingId (getShortcut (shortcut st)))).

Lemma updateKeybinding_settled others st value :
  freeOfExtension others ->
  commands st = registryWith others value ->
  keybindingDisposable st
  = Some (CommandRegistration (keybindingId (getShortcut value))) ->
  updateKeybinding st =
  Returned (mkExtension
              (registryWith others (shortcut st)) (shortcut st) (messages st)
              (subscriptions st
               ++ [CommandRegistration (keybindingId (getShortcut (shortcut st)))])
              (Some (CommandRegistration (keybindingId (getShortcut (shortcut st)))))).
Proof.
  intros Hfree Hc Hd. unfold updateKeybinding. cbv zeta.
  rewrite Hd, Hc. unfold registryWith. cbn [dispose filter].
  rewrite String.eqb_refl. cbn [negb].
  destruct (String.eqb_spec selectEnclosingId (keybindingId (getShortcut value)))
    as [Heq|_].
  { exfalso. symmetry in Heq. exact (keybindingId_not_selectEnclosingId _ Heq). }
  cbn [negb]. rewrite filter_out_absent.
  2:{ intros Hin. destruct (Hfree _ Hin) as [_ H]. exact (H _ eq_refl). }
  rewrite registerCommand_free; [reflexivity|].
  intros [Heq|Hin].
  - symmetry in Heq. exact (keybindingId_not_selectEnclosingId _ Heq).
  - destruct (Hfree _ Hin) as [_ H]. exact (H _ eq_refl).
Qed.

Lemma activate_settled others value :
  freeOfExtension others ->
  activate others value =
  Returned (mkExtension
              (registryWith others value) value 0
              [CommandRegistration selectEnclosingId;
               CommandRegistration (keybindingId (getShortcut value));
               ConfigurationListener]
              (Some (CommandRegistration (keybindingId (getShortcut value))))).
Proof.
  intros Hfree. unfold activate.
  rewrite registerCommand_free.
  2:{ intros Hin. destruct (Hfree _ Hin) as [H _]. exact (H eq_refl). }
  unfold updateKeybinding. cbv zeta. cbn [keybindingDisposable commands shortcut
    messages subscriptions].
  rewrite registerCommand_free; [reflexivity|].
  intros [Heq|Hin].
  - symmetry in Heq. exact (keybindingId_not_selectEnclosingId _ Heq).
  - destruct (Hfree _ Hin) as [_ H]. exact (H _ eq_refl).
Qed.

Lemma onDidChangeConfiguration_settled others e st :
  freeOfExtension others -> settled others st ->
  exists st',
    onDidChangeConfiguration e st = Returned st' /\
    settled others st' /\
    shortcut st' = match e with
                   | ShortcutChanged value => value
                   | OtherSettingChanged => shortcut st
                   end /\
    subscriptions st' =
    subscriptions st ++
    map (fun value => CommandRegistration (keybindingId (getShortcut value)))
        (shortcutValues [e]) /\
    messages st' = messages st + length (shortcutValues [e]).
Proof.
  intros Hfree [Hc Hd]. destruct e as [value|].
  - unfold onDidChangeConfiguration. cbv zeta. cbn [affectsShortcut].
    rewrite (updateKeybinding_settled others
               (mkExtension (commands st) value (messages st)
                            (subscriptions st) (keybindingDisposable st))
               (shortcut st) Hfree Hc Hd).
    eexists. split; [reflexivity|]. cbn.
    split; [split; reflexivity|]. split; [reflexivity|].
    split; [reflexivity | lia].
  - unfold onDidChangeConfiguration. cbv zeta. cbn [affectsShortcut].
    eexists. split; [reflexivity|]. cbn.
    split; [split; assumption|]. split; [reflexivity|].
    split; [now rewrite app_nil_r | lia].
Qed.

Lemma last_cons_default {A} (x : A) l d d' :
  last (x :: l) d = last (x :: l) d'.
Proof.
  revert x. induction l as [|y l IH]; intros x; [reflexivity|].
  change (last (x :: y :: l) d) with (last (y :: l) d).
  change (last (x :: y :: l) d') with (last (y :: l) d').
  apply IH.
Qed.

Lemma changes_settled others :
  freeOfExtension others ->
  forall events st, settled others st ->
  let (final, ok) := changes events st in
  ok = true /\ settled others final /\
  shortcut final = last (shortcutValues events) (shortcut st) /\
  subscriptions final =
  subscriptions st ++
  map (fun value => CommandRegistration (keybindingId (getShortcut value)))
      (shortcutValues events) /\
  messages final = messages st + length (shortcutValues events).
Proof.
  intros Hfree events.
  induction events as [|e events IH]; intros st Hst.
  - simpl. rewrite app_nil_r. repeat split; try apply Hst; lia.
  - cbn [changes]. cbv zeta.
    destruct (onDidChangeConfiguration_settled others e st Hfree Hst)
      as (st' & -> & Hst' & Hs & Hsub & Hmsg).
    cbn [stateOf returned].
    specialize (IH st' Hst').
    destruct (changes events st') as [final ok].
    destruct IH as (Hok & Hset & Hshort & Hsubs & Hmsgs).
    split; [rewrite Hok; reflexivity|]. split; [exact Hset|].
    rewrite Hshort, Hsubs, Hmsgs, Hsub, Hmsg, Hs.
    destruct e as [value|]; simpl.
    + split; [|split; [now rewrite <- app_assoc | lia]].
      destruct (shortcutValues events) as [|v vs]; [reflexivity|].
      apply last_cons_default.
    + split; [reflexivity|]. split; [now rewrite app_nil_r | lia].
Qed.

(** X16. In a host whose commands are none of the extension's own,
    [activate] returns, every later call of the configuration listener
    returns, and after any run of configuration changes the host holds the
    command of the extension, the commands it had, and exactly one keybinding
    command: the one of the shortcut now configured, the earlier one having
    been disposed of before the new one is registered. *)
Theorem X16_one_keybinding_command_is_registered others value events :
  freeOfExtension others ->
  exists st,
    activate others value = Returned st /\
    snd (changes events st) = true /\
    commands (fst (changes events st))
    = keybindingId (getShortcut (last (shortcutValues events) value))
        :: selectEnclosingId :: others /\
    keybindingDisposable (fst (changes events st))
    = Some (CommandRegistration
              (keybindingId (getShortcut (last (shortcutValues events) value)))).
Proof.
  intros Hfree. eexists. split; [apply activate_settled, Hfree|].
  match goal with |- snd (changes _ ?s) = _ /\ _ => set (st := s) end.
  assert (Hst : settled others st) by (split; reflexivity).
  pose proof (changes_settled others Hfree events st Hst) as H.
  destruct (changes events st) as [final ok]. cbn [fst snd].
  destruct H as (Hok & [Hc Hd] & Hs & _).
  split; [exact Hok|]. rewrite Hc, Hd, Hs. split; reflexivity.
Qed.

Lemma X16_witness :
  freeOfExtension ["editor.action.selectAll"%string] /\
  exists st,
    activate ["editor.action.selectAll"%string] None = Returned st /\
    snd (changes [ShortcutChanged (Some "alt+b"%string); OtherSettingChanged;
                  ShortcutChanged (Some "alt+b"%string)] st) = true /\
    commands (fst (changes [ShortcutChanged (Some "alt+b"%string);
                            OtherSettingChanged;
                            ShortcutChanged (Some "alt+b"%string)] st))
    = ["bracketTagSelector.alt+b"%string; "extension.selectEnclosing"%string;
       "editor.action.selectAll"%string] /\
    keybindingDisposable
      (fst (changes [ShortcutChanged (Some "alt+b"%string);
                     OtherSettingChanged;
                     ShortcutChanged (Some "alt+b"%string)] st))
    = Some (CommandRegistration "bracketTagSelector.alt+b"%string).
Proof.
  assert (Hfree : freeOfExtension ["editor.action.selectAll"%string]).
  { intros id [<-|[]]. split; [discriminate|].
    intros keybinding. unfold keybindingId. simpl. discriminate. }
  split; [exact Hfree|].
  exact (X16_one_keybinding_command_is_registered
           ["editor.action.selectAll"%string] None
           [ShortcutChanged (Some "alt+b"%string); OtherSettingChanged;
            ShortcutChanged (Some "alt+b"%string)] Hfree).
Defined.

(** X17. [context.subscriptions] only grows: after activation it holds the
    command, the first keybinding command and the configuration listener,
    and every change of the shortcut adds the new keybinding command behind
    them, the disposed ones staying in the list; one information message is
    shown for each change of the shortcut and none for another setting. *)
Theorem X17_subscriptions_keep_every_keybinding_command others value events :
  freeOfExtension others ->
  exists st,
    activate others value = Returned st /\
    subscriptions (fst (changes events st))
    = [CommandRegistration selectEnclosingId;
       CommandRegistration (keybindingId (getShortcut value));
       ConfigurationListener]
      ++ map (fun v => CommandRegistration (keybindingId (getShortcut v)))
             (shortcutValues events) /\
    messages (fst (changes events st)) = length (shortcutValues events).
Proof.
  intros Hfree. eexists. split; [apply activate_settled, Hfree|].
  match goal with |- subscriptions (fst (changes _ ?s)) = _ /\ _ =>
    set (st := s) end.
  assert (Hst : settled others st) by (split; reflexivity).
  pose proof (changes_settled others Hfree events st Hst) as H.
  destruct (changes events st) as [final ok]. cbn [fst snd].
  destruct H as (_ & _ & _ & Hsub & Hmsg).
  rewrite Hsub, Hmsg. split; reflexivity.
Qed.

Lemma X17_witness :
  freeOfExtension [] /\
  exists st,
    activate [] (Some "ctrl+m"%string) = Returned st /\
    subscriptions (fst (changes [ShortcutChanged None; OtherSettingChanged;
                                 ShortcutChanged (Some "ctrl+m"%string)] st))
    = [CommandRegistration "extension.selectEnclosing"%string;
       CommandRegistration "bracketTagSelector.ctrl+m"%string;
       ConfigurationListener;
       CommandRegistration "bracketTagSelector.ctrl+["%string;
       CommandRegistration "bracketTagSelector.ctrl+m"%string] /\
    messages (fst (changes [ShortcutChanged None; OtherSettingChanged;
                            ShortcutChanged (Some "ctrl+m"%string)] st)) = 2.
Proof.
  assert (Hfree : freeOfExtension []) by (intros id []).
  split; [exact Hfree|].
  exact (X17_subscriptions_keep_every_keybinding_command
           [] (Some "ctrl+m"%string)
           [ShortcutChanged None; OtherSettingChanged;
            ShortcutChanged (Some "ctrl+m"%string)] Hfree).
Defined.

(** X18. When the identifier of the keybinding command is taken in the host,
    and the one of the command is not, [activate] throws in
    [updateKeybinding]: the command stays registered and in
    [context.subscriptions], and no configuration listener is set up. *)
Theorem X18_taken_keybinding_identifier_stops_activation others value :
  ~ In selectEnclosingId others ->
  In (keybindingId (getShortcut value)) others ->
  activate others value
  = Threw (mkExtension (selectEnclosingId :: others) value 0
                       [CommandRegistration selectEnclosingId] None).
Proof.
  intros Hsel Hkey. unfold activate.
  rewrite (registerCommand_free _ _ Hsel).
  unfold updateKeybinding. cbv zeta.
  cbn [keybindingDisposable commands shortcut messages subscriptions].
  rewrite registerCommand_taken; [reflexivity|].
  right. exact Hkey.
Qed.

Lemma X18_witness :
  activate ["bracketTagSelector.ctrl+["%string] None
  = Threw (mkExtension ["extension.selectEnclosing"%string;
                        "bracketTagSelector.ctrl+["%string] None 0
                       [CommandRegistration "extension.selectEnclosing"%string]
                       None).
Proof.
  apply (X18_taken_keybinding_identifier_stops_activation
           ["bracketTagSelector.ctrl+["%string] None).
  - simpl. intros [H|[]]. discriminate.
  - simpl. left. reflexivity.
Defined.
